(** * The data pipeline of the repository showcase (src/app.js)

    A shallow embedding of the [GitHubShowcase] class of [src/app.js]:
    [processRepositoryData], [createSearchText], [performAdvancedSearch],
    [updateFilteredRepositories], [sortRepositories] and
    [groupRepositoriesByLanguage], together with the few JavaScript
    built-ins they call.

    Conventions of the embedding.
    - Strings are byte strings and are taken to be ASCII text: [toLowerCase]
      folds [A-Z] only and the whitespace class of [/\s+/] is the six ASCII
      white-space characters.
    - Numbers are integers ([Z]); ids, star counts, indices and scores of
      the payload are integers, on which double arithmetic is exact.
    - [null] and [undefined] behave alike at every place the code reads a
      raw field ([||], [&&], [?.], [Array.isArray], property access), so an
      absent field and a [null] field are both [None].
    - A thrown exception is the [Throw] outcome of [result]. *)

From Stdlib Require Import ZArith NArith String Ascii List Bool Lia.
From Stdlib Require Import Sorting.Sorted Sorting.Permutation.
From stdpp Require Import base tactics option list sorting gmap strings pretty.

Local Open Scope string_scope.
Local Open Scope Z_scope.

(** ** JavaScript built-ins *)

Module JS.

Inductive exn : Type := TypeError.

Inductive result (A : Type) : Type :=
| Ok (a : A)
| Throw (e : exn).
Arguments Ok {A} a.
Arguments Throw {A} e.

(** *** Strings *)

(** [String.prototype.toLowerCase], on ASCII. *)
Definition lower_ascii (c : ascii) : ascii :=
  let n := N_of_ascii c in
  if ((65 <=? n) && (n <=? 90))%N then ascii_of_N (n + 32) else c.

Fixpoint toLowerCase (s : string) : string :=
  match s with
  | EmptyString => EmptyString
  | String c s' => String (lower_ascii c) (toLowerCase s')
  end.

(** [s.includes(t)]: [t] occurs in [s] as a contiguous substring. *)
Fixpoint includes (s t : string) : bool :=
  String.prefix t s
  || match s with
     | EmptyString => false
     | String _ s' => includes s' t
     end.

(** The class [\s] of a regular expression, restricted to ASCII:
    TAB, LF, VT, FF, CR and SPACE. *)
Definition is_ws (c : ascii) : bool :=
  let n := N_of_ascii c in
  (((9 <=? n) && (n <=? 13)) || (n =? 32))%N.

(** [s.split(/\s+/)]: the pieces between maximal runs of white space;
    a string that starts or ends with white space yields an empty first
    or last piece, and the empty string yields one empty piece.
    [prev_ws] tells that the character before [s] was white space. *)
Fixpoint split_ws (prev_ws : bool) (s : string) : list string :=
  match s with
  | EmptyString => [EmptyString]
  | String c s' =>
      if is_ws c then
        if prev_ws then split_ws true s' else EmptyString :: split_ws true s'
      else
        match split_ws false s' with
        | p :: ps => String c p :: ps
        | [] => [String c EmptyString]
        end
  end.

(** [parts.join(' ')]. *)
Definition join_space (parts : list string) : string :=
  String.concat " " parts.

(** *** [Array.prototype.sort]

    [cmp a b] is the number returned by the comparator, a [NaN] already
    read as [+0] the way the sort does.  The sort is stable.  For a
    consistent comparator the stable sorted arrangement is unique, and
    it is what the insertion below computes: an element goes before the
    elements that followed it in the array unless the comparator places
    it strictly after them. *)
Section Sort.
Context {A : Type} (cmp : A -> A -> Z).

Fixpoint sort_insert (x : A) (l : list A) : list A :=
  match l with
  | [] => [x]
  | y :: l' => if cmp x y <=? 0 then x :: y :: l' else y :: sort_insert x l'
  end.

Fixpoint sort (l : list A) : list A :=
  match l with
  | [] => []
  | x :: l' => sort_insert x (sort l')
  end.
End Sort.

(** *** Ordinary objects used as maps

    The names every object literal inherits from [Object.prototype]:
    reading one of them from an object that has no own property of
    that name yields the inherited member, which is truthy and is
    neither [null] nor [undefined]. *)
Definition Object_prototype_keys : list string :=
  [ "constructor"; "__proto__"; "hasOwnProperty"; "isPrototypeOf";
    "propertyIsEnumerable"; "toLocaleString"; "toString"; "valueOf";
    "__defineGetter__"; "__defineSetter__"; "__lookupGetter__";
    "__lookupSetter__" ].

Definition inherited (k : string) : bool :=
  bool_decide (k ∈ Object_prototype_keys).

(** A property key is an array index when it is the canonical decimal
    form of an integer below [2^32 - 1]. *)
Definition digit_of (c : ascii) : option N :=
  let n := N_of_ascii c in
  if ((48 <=? n) && (n <=? 57))%N then Some (n - 48)%N else None.

Fixpoint digits_value (acc : N) (s : string) : option N :=
  match s with
  | EmptyString => Some acc
  | String c s' =>
      match digit_of c with
      | Some d => digits_value (10 * acc + d)%N s'
      | None => None
      end
  end.

Definition array_index (k : string) : option N :=
  match k with
  | EmptyString => None
  | String c rest =>
      if Ascii.eqb c "0" && negb (String.eqb rest "") then None
      else match digits_value 0%N k with
           | Some n => if (n <=? 4294967294)%N then Some n else None
           | None => None
           end
  end.

Definition index_key {V} (kv : string * V) : Z :=
  match array_index kv.1 with
  | Some n => Z.of_N n
  | None => 0
  end.

(** The order in which [Object.keys], [Object.entries] and [for-in]
    enumerate the own properties of an object whose properties were
    created in the order [created]: array indices first, in ascending
    numeric order, then the other names in creation order. *)
Definition own_property_order {V} (created : list (string * V))
  : list (string * V) :=
  sort (fun a b => index_key a - index_key b)
       (filter (fun kv => is_Some (array_index kv.1)) created)
  ++ filter (fun kv => array_index kv.1 = None) created.

End JS.

Import JS.

(** ** Data model *)

(** The owner of a raw record; only [login] is read by the pipeline. *)
Record Owner : Type := { login : option string }.

(** A record of [data.json], with the fields the pipeline reads.  Every
    field is optional; a field that is present holds a value of the type
    the GitHub API gives it: a number for [id] and [stargazers_count], a
    string for the names, the description, the language and the
    timestamps, an array of strings for [topics], an object for
    [owner]. *)
Record RawRepository : Type := {
  raw_id : option Z;
  raw_name : option string;
  raw_full_name : option string;
  raw_description : option string;
  raw_stargazers_count : option Z;
  raw_language : option string;
  raw_topics : option (list string);
  raw_created_at : option string;
  raw_updated_at : option string;
  raw_owner : option Owner
}.

(** An element of an array of records: [None] is a falsy element such as
    [null]; a truthy element that is not a record has no [id] and is the
    record without fields. *)
Definition entry : Type := option RawRepository.

(** The value parsed from [data.json].  The groups of [PObj] are listed
    in [Object.keys] order; a group whose value is not an array is
    [None]. *)
Inductive payload : Type :=
| PNull
| PBool (b : bool)
| PNum (n : Z)
| PStr (s : string)
| PArr (items : list entry)
| PObj (groups : list (string * option (list entry))).

(** A normalized repository, as built by the [map] of
    [processRepositoryData].  The spread [...repo] copies [id], [name],
    [full_name] and [owner]; the [map] runs on records that passed the
    [filter], which all have an [id] and a [name].  [searchScore] is the
    property [performAdvancedSearch] attaches; [None] until then.  The
    display strings [formattedStars], [relativeTime] and [languageColor]
    are read by the renderer only and are left out. *)
Record Repository : Type := {
  id : Z;
  name : string;
  full_name : option string;
  description : string;
  stargazers_count : Z;
  language : string;
  topics : list string;
  created_at : string;
  updated_at : string;
  owner : option Owner;
  originalIndex : Z;
  searchText : string;
  searchScore : option Z
}.

(** Truthiness of a number and of a string. *)
Definition truthy_num (n : Z) : bool := negb (n =? 0).
Definition truthy_str (s : string) : bool := negb (String.eqb s "").

(** [x || d] for an optional field [x]. *)
Definition js_or {A} (truthy : A -> bool) (x : option A) (d : A) : A :=
  match x with
  | Some v => if truthy v then v else d
  | None => d
  end.

(** Truthiness of an optional field. *)
Definition truthy_field {A} (truthy : A -> bool) (x : option A) : bool :=
  match x with
  | Some v => truthy v
  | None => false
  end.

(** ** processRepositoryData *)

(** [.filter(Boolean)] on an array of optional strings: the strings that
    are present and not empty. *)
Definition filter_Boolean (xs : list (option string)) : list string :=
  omap (fun x : option string =>
          match x with
          | Some s => if truthy_str s then Some s else None
          | None => None
          end) xs.

(** [createSearchText(repo)]. *)
Definition createSearchText (repo : RawRepository) : string :=
  let fields : list (option string) :=
    ([ raw_name repo; raw_full_name repo; raw_description repo;
       raw_language repo ]
     ++ (Some <$> js_or (fun _ => true) (raw_topics repo) [])
     ++ [ raw_owner repo ≫= login ])%list in
  toLowerCase (join_space (filter_Boolean fields)).

(** The callback of [.filter(repo => repo && repo.id && repo.name)]. *)
Definition valid_entry (e : entry) : bool :=
  match e with
  | Some repo =>
      truthy_field truthy_num (raw_id repo)
      && truthy_field truthy_str (raw_name repo)
  | None => false
  end.

Section Normalizer.

(** [new Date().toISOString()] as read while the entry with a given
    [originalIndex] is mapped, for [created_at] and for [updated_at]. *)
Variable now_created now_updated : nat -> string.

(** The callback of [.map(repo => ({...repo, ...}))]; [i] is the value
    of the counter [originalIndex] when the callback runs. *)
Definition normalize (i : nat) (repo : RawRepository) : Repository :=
  {| id := default 0 (raw_id repo);
     name := default "" (raw_name repo);
     full_name := raw_full_name repo;
     description := js_or truthy_str (raw_description repo) "";
     stargazers_count := js_or truthy_num (raw_stargazers_count repo) 0;
     language := js_or truthy_str (raw_language repo) "Unknown";
     topics := match raw_topics repo with Some ts => ts | None => [] end;
     created_at := js_or truthy_str (raw_created_at repo) (now_created i);
     updated_at := js_or truthy_str (raw_updated_at repo) (now_updated i);
     owner := raw_owner repo;
     originalIndex := Z.of_nat i;
     searchText := createSearchText repo;
     searchScore := None |}.

(** The [map] over the filtered array, the counter starting at [i]. *)
Fixpoint normalize_from (i : nat) (repos : list RawRepository)
  : list Repository :=
  match repos with
  | [] => []
  | repo :: rest => normalize i repo :: normalize_from (S i) rest
  end.

(** The records that pass the [filter], in order. *)
Definition validated (flat : list entry) : list RawRepository :=
  omap (fun e => if valid_entry e then e else None) flat.

(** [languageOrder[language]] read for its truthiness: an own property
    holds a number, an inherited member is truthy. *)
Definition order_recorded (languageOrder : gmap string Z) (language : string)
  : bool :=
  match languageOrder !! language with
  | Some n => truthy_num n
  | None => inherited language
  end.

(** The [forEach] over [Object.keys(data)]: the state is the flat array
    [repositories], the object [languageOrder] and the counter
    [languageOrderIndex]. *)
Fixpoint flatten_groups (groups : list (string * option (list entry)))
    (repositories : list entry) (languageOrder : gmap string Z)
    (languageOrderIndex : Z)
  : list entry * gmap string Z :=
  match groups with
  | [] => (repositories, languageOrder)
  | (language, languageRepos) :: rest =>
      let '(languageOrder, languageOrderIndex) :=
        if order_recorded languageOrder language
        then (languageOrder, languageOrderIndex)
        else (<[language := languageOrderIndex]> languageOrder,
              languageOrderIndex + 1) in
      let repositories :=
        match languageRepos with
        | Some rs => (repositories ++ rs)%list
        | None => repositories
        end in
      flatten_groups rest repositories languageOrder languageOrderIndex
  end.

(** The first half of [processRepositoryData]: the flat array and the
    language order.  [Object.keys(null)] throws. *)
Definition flatten (data : payload) : result (list entry * gmap string Z) :=
  match data with
  | PArr items => Ok (items, ∅)
  | PObj groups => Ok (flatten_groups groups [] ∅ 0)
  | PNull => Throw TypeError
  | PBool _ | PNum _ | PStr _ => Ok ([], ∅)
  end.

(** [processRepositoryData(data)]: the returned array, and the object
    stored in [this.languageOrder]. *)
Definition processRepositoryData (data : payload)
  : result (list Repository * gmap string Z) :=
  match flatten data with
  | Throw e => Throw e
  | Ok (repositories, languageOrder) =>
      Ok (JS.sort (fun a b => stargazers_count b - stargazers_count a)
            (normalize_from 0 (validated repositories)),
          languageOrder)
  end.

End Normalizer.

(** ** The object store

    The normalized repositories are objects shared by
    [state.repositories], [state.filteredRepositories] and every array
    derived from them; [performAdvancedSearch] writes [searchScore] into
    them.  An array of repositories is a list of references and the
    store gives the object behind each reference. *)

Definition ref : Type := nat.
Definition store : Type := ref -> Repository.

(** [repo.searchScore = score]. *)
Definition with_searchScore (repo : Repository) (score : Z) : Repository :=
  {| id := id repo;
     name := name repo;
     full_name := full_name repo;
     description := description repo;
     stargazers_count := stargazers_count repo;
     language := language repo;
     topics := topics repo;
     created_at := created_at repo;
     updated_at := updated_at repo;
     owner := owner repo;
     originalIndex := originalIndex repo;
     searchText := searchText repo;
     searchScore := Some score |}.

Definition set_searchScore (σ : store) (repo : ref) (score : Z) : store :=
  fun r => if decide (r = repo) then with_searchScore (σ r) score else σ r.

(** Computations that read and write the store and may throw.  The
    store is returned also when an exception is thrown: the writes done
    before the throw stay. *)
Definition M (A : Type) : Type := store -> store * result A.

Definition ret {A} (a : A) : M A := fun σ => (σ, Ok a).

Definition bindM {A B} (m : M A) (k : A -> M B) : M B :=
  fun σ =>
    match m σ with
    | (σ', Ok a) => k a σ'
    | (σ', Throw e) => (σ', Throw e)
    end.

Definition read {A} (f : store -> A) : M A := fun σ => (σ, Ok (f σ)).

Notation "'let*' x ':=' m 'in' k" := (bindM m (fun x => k))
  (at level 10, x name, m at level 100, k at level 200).

(** [array.filter(callback)] for a callback with effects. *)
Fixpoint filterM (callback : ref -> M bool) (array : list ref) : M (list ref) :=
  match array with
  | [] => ret []
  | repo :: rest =>
      let* keep := callback repo in
      let* kept := filterM callback rest in
      ret (if keep : bool then repo :: kept else kept)
  end.

(** ** performAdvancedSearch *)

(** [repo.owner.login.toLowerCase()]: reading [login] of a missing
    owner throws, and so does calling [toLowerCase] on a missing login. *)
Definition owner_login_lower (repo : Repository) : result string :=
  match owner repo with
  | None => Throw TypeError
  | Some o =>
      match login o with
      | None => Throw TypeError
      | Some l => Ok (toLowerCase l)
      end
  end.

(** One round of [terms.forEach(term => { ... })]. *)
Definition score_term (repo : Repository) (score : Z) (term : string)
  : result Z :=
  let score :=
    if includes (toLowerCase (name repo)) term then score + 10 else score in
  let score :=
    if includes (toLowerCase (description repo)) term then score + 5 else score in
  let score :=
    if existsb (fun topic => includes (toLowerCase topic) term) (topics repo)
    then score + 8 else score in
  let score :=
    if includes (toLowerCase (language repo)) term then score + 6 else score in
  match owner_login_lower repo with
  | Throw e => Throw e
  | Ok l => Ok (if includes l term then score + 4 else score)
  end.

Fixpoint score_terms (repo : Repository) (score : Z) (terms : list string)
  : result Z :=
  match terms with
  | [] => Ok score
  | term :: rest =>
      match score_term repo score term with
      | Throw e => Throw e
      | Ok score => score_terms repo score rest
      end
  end.

(** [terms.every(term => searchableText.includes(term))]. *)
Definition hasAllTerms (searchableText : string) (terms : list string) : bool :=
  forallb (fun term => includes searchableText term) terms.

(** The callback of [repositories.filter(repo => { ... })]. *)
Definition search_callback (terms : list string) (repo : ref) : M bool :=
  fun σ =>
    let searchableText := searchText (σ repo) in
    if negb (hasAllTerms searchableText terms) then (σ, Ok false)
    else
      match score_terms (σ repo) 0 terms with
      | Throw e => (σ, Throw e)
      | Ok score => (set_searchScore σ repo score, Ok (0 <? score))
      end.

(** [searchTerm.toLowerCase().split(/\s+/).filter(term => term.length > 0)]. *)
Definition search_terms (searchTerm : string) : list string :=
  filter (fun term => term ≠ "") (split_ws false (toLowerCase searchTerm)).

(** [repo.searchScore || 0]. *)
Definition searchScore_or_0 (repo : Repository) : Z :=
  js_or truthy_num (searchScore repo) 0.

(** [performAdvancedSearch(repositories, searchTerm)], the method of the
    class.  ([optimizeSearch] wraps it, at start-up, in a cache keyed by
    the search term and the length of the array; the wrapper is not part
    of the method and is not modelled.) *)
Definition performAdvancedSearch (repositories : list ref) (searchTerm : string)
  : M (list ref) :=
  if negb (truthy_str searchTerm) then ret repositories
  else
    let terms := search_terms searchTerm in
    let* kept := filterM (search_callback terms) repositories in
    read (fun σ =>
            JS.sort (fun a b => searchScore_or_0 (σ b) - searchScore_or_0 (σ a))
              kept).

(** ** The application state *)

Definition is_Some_bool {A} (x : option A) : bool :=
  match x with Some _ => true | None => false end.

(** The fields of [this.state] the pipeline reads and writes. *)
Record State : Type := {
  repositories : list ref;
  filteredRepositories : list ref;
  searchTerm : string;
  selectedLanguage : string;
  sortBy : string;
  languageCategory : string
}.

Definition with_filteredRepositories (st : State) (filtered : list ref) : State :=
  {| repositories := repositories st;
     filteredRepositories := filtered;
     searchTerm := searchTerm st;
     selectedLanguage := selectedLanguage st;
     sortBy := sortBy st;
     languageCategory := languageCategory st |}.

(** The argument of [setState]: the properties the caller passes.
    ([sortOrder], which no comparator reads, is left out.) *)
Record StateUpdate : Type := {
  new_repositories : option (list ref);
  new_filteredRepositories : option (list ref);
  new_searchTerm : option string;
  new_selectedLanguage : option string;
  new_sortBy : option string;
  new_languageCategory : option string
}.

(** [{ ...this.state, ...newState }]. *)
Definition merge_state (st : State) (u : StateUpdate) : State :=
  {| repositories := default (repositories st) (new_repositories u);
     filteredRepositories :=
       default (filteredRepositories st) (new_filteredRepositories u);
     searchTerm := default (searchTerm st) (new_searchTerm u);
     selectedLanguage := default (selectedLanguage st) (new_selectedLanguage u);
     sortBy := default (sortBy st) (new_sortBy u);
     languageCategory := default (languageCategory st) (new_languageCategory u)
  |}.

Section Environment.

(** The time value of [new Date(s)], [None] for an invalid date, and
    [a.localeCompare(b, undefined, { sensitivity: 'base' })]: both are
    given by the host. *)
Variable Date_value : string -> option Z.
Variable localeCompare_base : string -> string -> Z.

(** [new Date(x) - new Date(y)] as the sort reads it: the difference
    of the time values, and [+0] when it is [NaN]. *)
Definition date_difference (x y : string) : Z :=
  match Date_value x, Date_value y with
  | Some tx, Some ty => tx - ty
  | _, _ => 0
  end.

(** [x || 0] on a number. *)
Definition num_or_0 (x : Z) : Z := if truthy_num x then x else 0.

(** The comparator of [sortRepositories], by the [switch] on [sortBy]. *)
Definition comparison (sortBy : string) (a b : Repository) : Z :=
  if String.eqb sortBy "stars" then
    stargazers_count b - stargazers_count a
  else if String.eqb sortBy "recent-likes" then
    num_or_0 (originalIndex a) - num_or_0 (originalIndex b)
  else if String.eqb sortBy "stars-asc" then
    stargazers_count a - stargazers_count b
  else if String.eqb sortBy "name" then
    localeCompare_base (name a) (name b)
  else if String.eqb sortBy "name-desc" then
    localeCompare_base (name b) (name a)
  else if String.eqb sortBy "updated" then
    date_difference (updated_at b) (updated_at a)
  else if String.eqb sortBy "created" then
    date_difference (created_at b) (created_at a)
  else
    stargazers_count b - stargazers_count a.

(** [sortRepositories()]: sorts [state.filteredRepositories] in place. *)
Definition sortRepositories (st : State) : M State :=
  read (fun σ =>
          with_filteredRepositories st
            (JS.sort (fun a b => comparison (sortBy st) (σ a) (σ b))
               (filteredRepositories st))).

(** The language filter of [updateFilteredRepositories]. *)
Definition language_filter (selectedLanguage : string) (filtered : list ref)
  : M (list ref) :=
  read (fun σ => filter (fun repo => language (σ repo) = selectedLanguage)
                   filtered).

(** [updateFilteredRepositories()]. *)
Definition updateFilteredRepositories (st : State) : M State :=
  let filtered := repositories st in
  let* filtered :=
    (if truthy_str (searchTerm st)
     then performAdvancedSearch filtered (searchTerm st)
     else ret filtered) in
  let* filtered :=
    (if truthy_str (selectedLanguage st)
     then language_filter (selectedLanguage st) filtered
     else ret filtered) in
  sortRepositories (with_filteredRepositories st filtered).

(** [setState(newState)]. *)
Definition setState (st : State) (newState : StateUpdate) : M State :=
  let st := merge_state st newState in
  let* st :=
    (if is_Some_bool (new_repositories newState)
        || is_Some_bool (new_searchTerm newState)
        || is_Some_bool (new_selectedLanguage newState)
     then updateFilteredRepositories st
     else ret st) in
  if is_Some_bool (new_sortBy newState)
  then sortRepositories st
  else ret st.

End Environment.

(** ** groupRepositoriesByLanguage *)

(** The object [grouped]: its own properties in creation order, each an
    array of repositories. *)
Definition groups : Type := list (string * list ref).

(** [grouped[language].push(repo)] on an own property; [None] when
    [grouped] has no own property [language]. *)
Fixpoint push_own (grouped : groups) (language : string) (repo : ref)
  : option groups :=
  match grouped with
  | [] => None
  | (k, repos) :: rest =>
      if decide (k = language) then Some ((k, (repos ++ [repo])%list) :: rest)
      else cons (k, repos) <$> push_own rest language repo
  end.

(** One round of [repositories.forEach(repo => { ... })].  A name
    inherited from [Object.prototype] is truthy, so no array is created
    for it, and the member found has no [push]: the call throws. *)
Definition group_add (σ : store) (grouped : groups) (repo : ref)
  : result groups :=
  let language :=
    if truthy_str (language (σ repo)) then language (σ repo) else "Other" in
  match push_own grouped language repo with
  | Some grouped' => Ok grouped'
  | None =>
      if inherited language then Throw TypeError
      else Ok (grouped ++ [(language, [repo])])%list
  end.

Fixpoint group_all (σ : store) (grouped : groups) (repositories : list ref)
  : result groups :=
  match repositories with
  | [] => Ok grouped
  | repo :: rest =>
      match group_add σ grouped repo with
      | Throw e => Throw e
      | Ok grouped' => group_all σ grouped' rest
      end
  end.

(** [this.languageOrder[lang] ?? 999]: [None] stands for an inherited
    member, which is not a number. *)
Definition language_position (languageOrder : gmap string Z) (lang : string)
  : option Z :=
  match languageOrder !! lang with
  | Some n => Some n
  | None => if inherited lang then None else Some 999
  end.

(** [orderA - orderB], and [+0] when it is [NaN]. *)
Definition position_difference (languageOrder : gmap string Z)
    (langA langB : string) : Z :=
  match language_position languageOrder langA,
        language_position languageOrder langB with
  | Some orderA, Some orderB => orderA - orderB
  | _, _ => 0
  end.

(** [groupRepositoriesByLanguage(repositories)]; the result lists the
    properties of the returned object in enumeration order. *)
Definition groupRepositoriesByLanguage
    (languageCategory : string) (languageOrder : gmap string Z)
    (σ : store) (repositories : list ref) : result groups :=
  match group_all σ [] repositories with
  | Throw e => Throw e
  | Ok grouped =>
      let sortedEntries :=
        if String.eqb languageCategory "recently" then
          JS.sort (fun a b => position_difference languageOrder a.1 b.1)
            (own_property_order grouped)
        else
          JS.sort (fun a b => Z.of_nat (length b.2) - Z.of_nat (length a.2))
            (own_property_order grouped) in
      Ok (own_property_order sortedEntries)
  end.

(** ** Loading

    [loadData] passes the array returned by [processRepositoryData] to
    [setState]: its elements become the objects of the store, the
    reference [i] standing for the [i]-th element. *)
Definition no_repository : Repository :=
  {| id := 0; name := ""; full_name := None; description := "";
     stargazers_count := 0; language := ""; topics := [];
     created_at := ""; updated_at := ""; owner := None;
     originalIndex := 0; searchText := ""; searchScore := None |}.

Definition store_of (objects : list Repository) : store :=
  fun r => nth r objects no_repository.

Definition refs_of (objects : list Repository) : list ref :=
  seq 0 (length objects).

(** ** Notions used to state the properties *)

(** Every character of [s] satisfies [P]. *)
Fixpoint all_chars (P : ascii -> bool) (s : string) : bool :=
  match s with
  | EmptyString => true
  | String c s' => P c && all_chars P s'
  end.

(** Two states of a repository object that agree on every field other
    than [searchScore]. *)
Definition same_fields (a b : Repository) : Prop :=
  id a = id b
  /\ name a = name b
  /\ full_name a = full_name b
  /\ description a = description b
  /\ stargazers_count a = stargazers_count b
  /\ language a = language b
  /\ topics a = topics b
  /\ created_at a = created_at b
  /\ updated_at a = updated_at b
  /\ owner a = owner b
  /\ originalIndex a = originalIndex b
  /\ searchText a = searchText b.

(** [a] may stand before [b] for the comparator [cmp]. *)
Definition before {A} (cmp : A -> A -> Z) (a b : A) : Prop := cmp a b <= 0.

Global Instance before_dec {A} (cmp : A -> A -> Z) (a b : A) :
  Decision (before cmp a b).
Proof. unfold before. apply _. Defined.

(** A computation that leaves every field other than [searchScore] of
    every object as it is, whether it returns or throws. *)
Definition frames {A} (m : M A) : Prop :=
  forall σ r, same_fields (σ r) ((m σ).1 r).

(** The position of a language for the ['recently'] mode: its position
    in [languageOrder], and the sentinel 999 when it has none. *)
Definition position (languageOrder : gmap string Z) (lang : string) : Z :=
  default 999 (languageOrder !! lang).

(** The ordering the specification gives for each [sortBy] key: [a] may
    stand before [b].  Every key outside the seven of the table orders
    as ['stars'] does. *)
Section SpecOrder.
Variable Date_value : string -> option Z.
Variable localeCompare_base : string -> string -> Z.

(** Descending by time value; both dates are valid. *)
Definition not_earlier (x y : string) : Prop :=
  match Date_value x, Date_value y with
  | Some tx, Some ty => ty <= tx
  | _, _ => False
  end.

Definition spec_order (sortBy : string) (a b : Repository) : Prop :=
  if String.eqb sortBy "recent-likes" then
    originalIndex a <= originalIndex b
  else if String.eqb sortBy "stars" then
    stargazers_count b <= stargazers_count a
  else if String.eqb sortBy "stars-asc" then
    stargazers_count a <= stargazers_count b
  else if String.eqb sortBy "name" then
    localeCompare_base (toLowerCase (name a)) (toLowerCase (name b)) <= 0
  else if String.eqb sortBy "name-desc" then
    localeCompare_base (toLowerCase (name b)) (toLowerCase (name a)) <= 0
  else if String.eqb sortBy "updated" then
    not_earlier (updated_at a) (updated_at b)
  else if String.eqb sortBy "created" then
    not_earlier (created_at a) (created_at b)
  else
    stargazers_count b <= stargazers_count a.

Global Instance spec_order_dec sortBy a b : Decision (spec_order sortBy a b).
Proof.
  unfold spec_order, not_earlier.
  repeat match goal with
         | |- Decision (if ?c then _ else _) => destruct c
         end;
    try apply _.
  - destruct (Date_value (updated_at a)), (Date_value (updated_at b)); apply _.
  - destruct (Date_value (created_at a)), (Date_value (created_at b)); apply _.
Defined.

(** The time value of a timestamp, 0 for an invalid one. *)
Definition time (s : string) : Z := default 0 (Date_value s).

(** The timestamp a key reads is a valid date. *)
Definition dated (sortBy : string) (a : Repository) : Prop :=
  (sortBy = "updated" -> is_Some (Date_value (updated_at a)))
  /\ (sortBy = "created" -> is_Some (Date_value (created_at a))).

End SpecOrder.

Definition sort_keys : list string :=
  [ "recent-likes"; "stars"; "stars-asc"; "name"; "name-desc"; "updated";
    "created" ].

(** [term] occurs in one of the five fields the scoring loop reads. *)
Definition in_scored_field (repo : Repository) (term : string) : bool :=
  includes (toLowerCase (name repo)) term
  || includes (toLowerCase (description repo)) term
  || existsb (fun topic => includes (toLowerCase topic) term) (topics repo)
  || includes (toLowerCase (language repo)) term
  || match owner repo ≫= login with
     | Some l => includes (toLowerCase l) term
     | None => false
     end.

(** [term] occurs in [full_name], which is part of [searchText] and is
    not read by the scoring loop. *)
Definition in_full_name (repo : Repository) (term : string) : bool :=
  match full_name repo with
  | Some fn => includes (toLowerCase fn) term
  | None => false
  end.

(** The decision of the search callback on a repository, when it does
    not throw. *)
Definition retained (terms : list string) (repo : Repository) : bool :=
  hasAllTerms (searchText repo) terms
  && match score_terms repo 0 terms with
     | Ok score => 0 <? score
     | Throw _ => false
     end.

(** ** Sample data *)

Module Sample.

(** A clock that always reads the same instant. *)
Definition now (_ : nat) : string := "2026-01-01T00:00:00.000Z".

Definition raw (i : Z) (n : string) (stars : Z) (lang : option string)
    (full : option string) (o : option Owner) : RawRepository :=
  {| raw_id := Some i; raw_name := Some n; raw_full_name := full;
     raw_description := None; raw_stargazers_count := Some stars;
     raw_language := lang; raw_topics := None; raw_created_at := None;
     raw_updated_at := None; raw_owner := o |}.

Definition octocat : option Owner := Some {| login := Some "octocat" |}.

(** The array [processRepositoryData] returns, empty if it throws. *)
Definition loaded (data : payload) : list Repository :=
  match processRepositoryData now now data with
  | Ok (rs, _) => rs
  | Throw _ => []
  end.

(** [[{id:1,name:"x",language:"Go",stargazers_count:5}, null,
      {id:2,name:"y",language:"Go",stargazers_count:50}]], each record
    owned by [octocat]. *)
Definition xy : payload :=
  PArr [ Some (raw 1 "x" 5 (Some "Go") None octocat); None;
         Some (raw 2 "y" 50 (Some "Go") None octocat) ].

Definition six : payload :=
  PArr [ Some (raw 1 "a" 1 (Some "Go") None octocat);
         Some (raw 2 "b" 2 (Some "TypeScript") None octocat);
         Some (raw 3 "c" 3 (Some "Rust") None octocat);
         Some (raw 4 "d" 4 (Some "TypeScript") None octocat);
         Some (raw 5 "e" 5 (Some "Go") None octocat);
         Some (raw 6 "f" 6 (Some "TypeScript") None octocat) ].

(** [{id:1, name:"hello", full_name:"octocat/hello", language:"Go",
     stargazers_count:3, owner:{login:"octocat"}}]. *)
Definition hello : RawRepository :=
  raw 1 "hello" 3 (Some "Go") (Some "octocat/hello") octocat.

(** [{id:1, name:"go-kit", language:"Go", stargazers_count:9}], without
    owner, and [{id:2, name:"go-rs", language:"Rust", stargazers_count:5,
    owner:{login:"octocat"}}]. *)
Definition kit_rs : payload :=
  PArr [ Some (raw 1 "go-kit" 9 (Some "Go") None None);
         Some (raw 2 "go-rs" 5 (Some "Rust") None octocat) ].

(** [{id:1, name:"foo", stargazers_count:2, ...}] and
    [{id:2, name:"bar", stargazers_count:1, ...}], owned by [octocat]. *)
Definition foo_bar : payload :=
  PArr [ Some (raw 1 "foo" 2 (Some "Go") None octocat);
         Some (raw 2 "bar" 1 (Some "Go") None octocat) ].

(** A state as [loadData] leaves it, with the given filters. *)
Definition state_of (objects : list Repository) (term lang sort_key : string)
  : State :=
  {| repositories := refs_of objects;
     filteredRepositories := refs_of objects;
     searchTerm := term;
     selectedLanguage := lang;
     sortBy := sort_key;
     languageCategory := "recently" |}.

(** A host whose dates are all invalid and whose collation ties all
    names: enough where neither is read. *)
Definition no_date (_ : string) : option Z := None.
Definition no_collation (_ _ : string) : Z := 0.

(** A collation for the samples: the byte order of the lower-cased
    strings. *)
Definition collation (a b : string) : Z :=
  if String.leb (toLowerCase a) (toLowerCase b)
  then (if String.leb (toLowerCase b) (toLowerCase a) then 0 else -1)
  else 1.

(** A host that knows two dates. *)
Definition date_value (s : string) : option Z :=
  if String.eqb s "2024-01-01T00:00:00Z" then Some 1704067200000
  else if String.eqb s "2025-01-01T00:00:00Z" then Some 1735689600000
  else if String.eqb s "2026-01-01T00:00:00.000Z" then Some 1767225600000
  else None.

(** Repositories named [banana], [Apple] and [cherry] with 10, 50 and 5
    stars. *)
Definition fruits : payload :=
  PArr [ Some (raw 1 "banana" 10 (Some "Go") None octocat);
         Some (raw 2 "Apple" 50 (Some "Go") None octocat);
         Some (raw 3 "cherry" 5 (Some "Go") None octocat) ].

(** Two repositories last updated, and created, in 2024 and in 2025. *)
Definition stamped (i : Z) (n stamp : string) : RawRepository :=
  {| raw_id := Some i; raw_name := Some n; raw_full_name := None;
     raw_description := None; raw_stargazers_count := None;
     raw_language := None; raw_topics := None; raw_created_at := Some stamp;
     raw_updated_at := Some stamp; raw_owner := octocat |}.

Definition old_new : payload :=
  PArr [ Some (stamped 1 "old" "2024-01-01T00:00:00Z");
         Some (stamped 2 "new" "2025-01-01T00:00:00Z") ].

(** Three repositories last updated, and created, in 2024, at a
    timestamp that is no date, and in 2026. *)
Definition garbage_date : payload :=
  PArr [ Some (stamped 1 "a" "2024-01-01T00:00:00Z");
         Some (stamped 2 "bad" "garbage");
         Some (stamped 3 "b" "2026-01-01T00:00:00.000Z") ].

(** The names of [state.filteredRepositories] after a call. *)
Definition filtered_names (σ : store) (r : store * result State) : list string :=
  match r.2 with
  | Ok st => (fun x => name (σ x)) <$> filteredRepositories st
  | Throw _ => []
  end.

(** The object stored in [this.languageOrder], empty if the call throws. *)
Definition language_order (data : payload) : gmap string Z :=
  match processRepositoryData now now data with
  | Ok (_, lo) => lo
  | Throw _ => ∅
  end.

(** An object with 1001 language keys, [L0] to [L999] and then [Late].
    The group [L5] holds a repository of language [L5] and one without
    language; the group [Late] holds a repository of language [Late];
    the other groups are empty. *)
Definition language_name (i : nat) : string := "L" +:+ pretty i.

Definition many_languages : payload :=
  PObj (((fun i =>
            (language_name i,
             Some (if decide (i = 5%nat)
                   then [ Some (raw 1 "five" 1 (Some "L5") None octocat);
                          Some (raw 3 "plain" 3 None None octocat) ]
                   else []))) <$> seq 0 1000)
        ++ [ ("Late", Some [ Some (raw 2 "late" 2 (Some "Late") None octocat) ]) ])%list.

(** Two repositories of language [Go] and one whose language is named
    ["1"]. *)
Definition go_and_one : payload :=
  PArr [ Some (raw 1 "a" 3 (Some "Go") None octocat);
         Some (raw 2 "b" 2 (Some "Go") None octocat);
         Some (raw 3 "c" 1 (Some "1") None octocat) ].

Definition group_names (r : result groups) : list string :=
  match r with
  | Ok g => g.*1
  | Throw _ => []
  end.

End Sample.

(** ** Languages: the filter options and the quick filters *)

(** The name under which [groupRepositoriesByLanguage] files a
    repository: [repo.language || 'Other']. *)
Definition group_language (σ : store) (repo : ref) : string :=
  if truthy_str (language (σ repo)) then language (σ repo) else "Other".

(** The name under which [calculateLanguageCounts] counts a repository:
    [repo.language || 'Unknown']. *)
Definition counted_language (σ : store) (repo : ref) : string :=
  if truthy_str (language (σ repo)) then language (σ repo) else "Unknown".

(** [Array.prototype.sort] without a comparator orders strings by their
    code units. *)
Definition default_compare (x y : string) : Z :=
  if String.ltb x y then -1 else if String.ltb y x then 1 else 0.

(** [set.add(x)] on a [Set], which keeps insertion order. *)
Definition set_add (x : string) (set : list string) : list string :=
  if decide (x ∈ set) then set else (set ++ [x])%list.

(** [extractLanguages(repositories)]. *)
Definition extractLanguages (σ : store) (repositories : list ref) : list string :=
  let languageSet :=
    foldl (fun set repo =>
             if truthy_str (language (σ repo))
                && negb (String.eqb (language (σ repo)) "Unknown")
             then set_add (language (σ repo)) set
             else set)
      [] repositories in
  JS.sort default_compare languageSet.

(** A property of the object [counts]: a number, or the string that
    [+ 1] makes of a member inherited from [Object.prototype]. *)
Inductive count_value : Type :=
| Count (n : Z)
| Text.

(** [counts[language] = (counts[language] || 0) + 1] on an own
    property; [None] when [counts] has no own property [language]. *)
Fixpoint count_own (counts : list (string * count_value)) (language : string)
  : option (list (string * count_value)) :=
  match counts with
  | [] => None
  | (k, v) :: rest =>
      if decide (k = language) then
        Some ((k, match v with
                  | Count n => Count ((if truthy_num n then n else 0) + 1)
                  | Text => Text
                  end) :: rest)
      else cons (k, v) <$> count_own rest language
  end.

(** One round of the [forEach] of [calculateLanguageCounts].  For a name
    inherited from [Object.prototype] the member read is truthy and
    [+ 1] gives a string; the assignment stores it, except under
    [__proto__], whose setter ignores a string. *)
Definition count_add (σ : store) (counts : list (string * count_value))
    (repo : ref) : list (string * count_value) :=
  let language := counted_language σ repo in
  match count_own counts language with
  | Some counts' => counts'
  | None =>
      if inherited language then
        if String.eqb language "__proto__" then counts
        else (counts ++ [(language, Text)])%list
      else (counts ++ [(language, Count 1)])%list
  end.

(** [calculateLanguageCounts()]: the own properties of [counts] in
    creation order. *)
Definition calculateLanguageCounts (σ : store) (repositories : list ref)
  : list (string * count_value) :=
  foldl (count_add σ) [] repositories.

(** [array.slice(0, end)]. *)
Definition slice_to {A} (last : Z) (array : list A) : list A :=
  let len := Z.of_nat (length array) in
  take (Z.to_nat (if last <? 0 then Z.max (len + last) 0 else Z.min last len))
    array.

(** [b - a] on two properties of [counts], and [+0] when it is [NaN]. *)
Definition count_difference (b a : count_value) : Z :=
  match b, a with
  | Count nb, Count na => nb - na
  | _, _ => 0
  end.

(** [getLanguagesForQuickFilters(limit)]. *)
Definition getLanguagesForQuickFilters
    (languageCategory : string) (languageOrder : gmap string Z)
    (σ : store) (repositories : list ref) (limit : Z) : list string :=
  let languageCounts := calculateLanguageCounts σ repositories in
  if String.eqb languageCategory "recently" then
    slice_to limit
      (JS.sort (fun langA langB => position_difference languageOrder langA langB)
         (own_property_order languageCounts).*1)
  else
    (slice_to limit
       (JS.sort (fun a b => count_difference b.2 a.2)
          (own_property_order languageCounts))).*1.

(** The number of repositories counted under a language. *)
Definition language_count (σ : store) (repositories : list ref)
    (language : string) : Z :=
  Z.of_nat (length (filter (fun repo => counted_language σ repo = language)
                      repositories)).

(** [grouped] files the repositories [processed]: its names are
    distinct, each holds, in order, the repositories filed under it, at
    least one, and every repository is filed. *)
Definition files (σ : store) (processed : list ref) (grouped : groups) : Prop :=
  NoDup grouped.*1
  /\ (forall k rs, (k, rs) ∈ grouped ->
        rs <> [] /\ rs = filter (fun r => group_language σ r = k) processed)
  /\ (forall r, r ∈ processed -> group_language σ r ∈ grouped.*1).


(** [(counts[language] || 0) + 1] on the value of an own property. *)
Definition count_next (v : count_value) : count_value :=
  match v with
  | Count n => Count ((if truthy_num n then n else 0) + 1)
  | Text => Text
  end.

(** [counts] counts the repositories [processed]: its names are
    distinct and are those of the languages counted, [__proto__] apart;
    a name inherited from [Object.prototype] holds a string and any
    other name the number of repositories of that language. *)
Definition counts_of (σ : store) (processed : list ref)
    (counts : list (string * count_value)) : Prop :=
  NoDup counts.*1
  /\ (forall k, k ∈ counts.*1 <->
        k <> "__proto__"
        /\ exists repo, repo ∈ processed /\ counted_language σ repo = k)
  /\ (forall k v, (k, v) ∈ counts ->
        v = if inherited k then Text
            else Count (language_count σ processed k)).

(** ** The handlers of the filters

    Each handler passes an object to [setState] and then asks for a
    rendering; the state is what the handlers below compute. *)

(** [{ searchTerm }]. *)
Definition update_searchTerm (searchTerm : string) : StateUpdate :=
  {| new_repositories := None; new_filteredRepositories := None;
     new_searchTerm := Some searchTerm; new_selectedLanguage := None;
     new_sortBy := None; new_languageCategory := None |}.

(** [{ selectedLanguage: language }]. *)
Definition update_selectedLanguage (language : string) : StateUpdate :=
  {| new_repositories := None; new_filteredRepositories := None;
     new_searchTerm := None; new_selectedLanguage := Some language;
     new_sortBy := None; new_languageCategory := None |}.

(** [{ sortBy }]. *)
Definition update_sortBy (sortBy : string) : StateUpdate :=
  {| new_repositories := None; new_filteredRepositories := None;
     new_searchTerm := None; new_selectedLanguage := None;
     new_sortBy := Some sortBy; new_languageCategory := None |}.

(** [{ languageCategory: category }]. *)
Definition update_languageCategory (category : string) : StateUpdate :=
  {| new_repositories := None; new_filteredRepositories := None;
     new_searchTerm := None; new_selectedLanguage := None;
     new_sortBy := None; new_languageCategory := Some category |}.

(** The object [resetFilters] passes to [setState]. *)
Definition update_reset : StateUpdate :=
  {| new_repositories := None; new_filteredRepositories := None;
     new_searchTerm := Some ""; new_selectedLanguage := Some "";
     new_sortBy := Some "recent-likes";
     new_languageCategory := Some "recently" |}.

(** [s.trim()], on ASCII: the white space removed is that of [\s]. *)
Fixpoint trimStart (s : string) : string :=
  match s with
  | EmptyString => EmptyString
  | String c s' => if is_ws c then trimStart s' else s
  end.

Fixpoint trimEnd (s : string) : string :=
  match s with
  | EmptyString => EmptyString
  | String c s' =>
      match trimEnd s' with
      | EmptyString => if is_ws c then EmptyString else String c EmptyString
      | t => String c t
      end
  end.

Definition trim (s : string) : string := trimEnd (trimStart s).

(** The application as the handlers see it: [this.state], and the
    search term captured by the callback of the pending
    [this.debounceTimer], if one is pending. *)
Record App : Type := {
  state : State;
  debounceTimer : option string
}.

(** What the user and the timer do. *)
Inductive event : Type :=
| Input (searchTerm : string)
| TimerFires
| ClearSearch
| LanguageFilter (language : string)
| Sort (sort_key : string)
| Categorize (category : string)
| ResetFilters.

Section Handlers.
Variable Date_value : string -> option Z.
Variable localeCompare_base : string -> string -> Z.

(** [this.state] after [setState(newState)], whether it returns or
    throws: the merged state is assigned first, and
    [updateFilteredRepositories] assigns [filteredRepositories] only
    once the search has returned. *)
Definition written (st : State) (newState : StateUpdate) (σ : store)
  : store * State :=
  match setState Date_value localeCompare_base st newState σ with
  | (σ', Ok st') => (σ', st')
  | (σ', Throw _) => (σ', merge_state st newState)
  end.

(** [handleLanguageFilter(language)] and [resetFilters()], as far as
    the state goes. *)
Definition handleLanguageFilter (st : State) (language : string) : M State :=
  setState Date_value localeCompare_base st (update_selectedLanguage language).

Definition resetFilters (st : State) : M State :=
  setState Date_value localeCompare_base st update_reset.

(** One event handled: [handleSearch(searchTerm)] on [Input], the
    callback of the debounce timer on [TimerFires], and [clearSearch],
    [handleLanguageFilter], [handleSort], [handleCategorization] and
    [resetFilters] on the other events; these five call [setState] and
    leave the timer alone.  An exception thrown by a handler ends the
    handler, and the application goes on from the state written. *)
Definition handle (app : App) (e : event) (σ : store) : store * App :=
  match e with
  | Input searchTerm =>
      if String.eqb (trim searchTerm) "" then
        let '(σ', st) := written (state app) (update_searchTerm "") σ in
        (σ', {| state := st; debounceTimer := None |})
      else (σ, {| state := state app; debounceTimer := Some searchTerm |})
  | TimerFires =>
      match debounceTimer app with
      | Some searchTerm =>
          let '(σ', st) :=
            written (state app) (update_searchTerm (trim searchTerm)) σ in
          (σ', {| state := st; debounceTimer := None |})
      | None => (σ, app)
      end
  | ClearSearch =>
      let '(σ', st) := written (state app) (update_searchTerm "") σ in
      (σ', {| state := st; debounceTimer := debounceTimer app |})
  | LanguageFilter language =>
      let '(σ', st) := written (state app) (update_selectedLanguage language) σ in
      (σ', {| state := st; debounceTimer := debounceTimer app |})
  | Sort sort_key =>
      let '(σ', st) := written (state app) (update_sortBy sort_key) σ in
      (σ', {| state := st; debounceTimer := debounceTimer app |})
  | Categorize category =>
      let '(σ', st) := written (state app) (update_languageCategory category) σ in
      (σ', {| state := st; debounceTimer := debounceTimer app |})
  | ResetFilters =>
      let '(σ', st) := written (state app) update_reset σ in
      (σ', {| state := st; debounceTimer := debounceTimer app |})
  end.

(** A sequence of events, handled one after the other. *)
Fixpoint run (events : list event) (app : App) (σ : store) : store * App :=
  match events with
  | [] => (σ, app)
  | e :: rest => let '(σ', app') := handle app e σ in run rest app' σ'
  end.

End Handlers.

(** An event of the search box or of its timer. *)
Definition search_event (e : event) : bool :=
  match e with
  | Input _ | TimerFires => true
  | _ => false
  end.

(** ** Rendering helpers *)

(** [getRelativeTime(dateString)].  [now] is the time value of
    [new Date()] and [date] that of [new Date(dateString)], [None] for
    an invalid date, whose differences are [NaN] and never [>= 1]. *)
Definition intervals : list (string * Z) :=
  [ ("year", 31536000); ("month", 2592000); ("day", 86400);
    ("hour", 3600); ("minute", 60) ].

Fixpoint relative_from (intervals : list (string * Z)) (diffInSeconds : Z)
  : string :=
  match intervals with
  | [] => "Just now"
  | (label, seconds) :: rest =>
      let count := diffInSeconds / seconds in
      if 1 <=? count then
        pretty count +:+ " " +:+ label +:+ (if 1 <? count then "s" else "")
        +:+ " ago"
      else relative_from rest diffInSeconds
  end.

Definition getRelativeTime (now : Z) (date : option Z) : string :=
  match date with
  | Some date => relative_from intervals ((now - date) / 1000)
  | None => "Just now"
  end.

(** [escapeHtml(text)]: the text serialized as the content of an
    element, which on ASCII escapes [&], [<] and [>]; a missing or
    empty text gives the empty string. *)
Definition escape_char (c : ascii) : string :=
  if Ascii.eqb c "&" then "&amp;"
  else if Ascii.eqb c "<" then "&lt;"
  else if Ascii.eqb c ">" then "&gt;"
  else String c EmptyString.

Fixpoint innerHTML (textContent : string) : string :=
  match textContent with
  | EmptyString => EmptyString
  | String c s => escape_char c +:+ innerHTML s
  end.

Definition escapeHtml (text : option string) : string :=
  match text with
  | Some text => if truthy_str text then innerHTML text else ""
  | None => ""
  end.

(** [getGridColumns()], from [window.innerWidth]. *)
Definition getGridColumns (width : Z) : Z :=
  if width <=? 768 then 1 else if width <=? 1024 then 2 else 3.

(** [handleArrowNavigation(e)]: the index of the card that receives
    the focus, [None] when the focus stays where it is.  [cards] is
    the number of cards and [currentIndex] the result of [indexOf]. *)
Definition handleArrowNavigation (width : Z) (cards : Z) (currentIndex : Z)
    (key : string) : option Z :=
  if currentIndex =? -1 then None
  else
    let columns := getGridColumns width in
    let nextIndex :=
      if String.eqb key "ArrowUp" then Some (Z.max 0 (currentIndex - columns))
      else if String.eqb key "ArrowDown"
           then Some (Z.min (cards - 1) (currentIndex + columns))
      else if String.eqb key "ArrowLeft" then Some (Z.max 0 (currentIndex - 1))
      else if String.eqb key "ArrowRight"
           then Some (Z.min (cards - 1) (currentIndex + 1))
      else None in
    match nextIndex with
    | Some i => if (0 <=? i) && (i <? cards) then Some i else None
    | None => None
    end.

(** [updateUI()]: which regions are displayed when it returns.  While
    loading, [renderSkeletonCards] displays the grid again. *)
Record Display : Type := {
  loadingState : bool;
  errorState : bool;
  emptyState : bool;
  repositoryGrid : bool;
  statsBar : bool
}.

Definition updateUI (isLoading error : bool) (filteredRepositories : list ref)
  : Display :=
  let len := Z.of_nat (length filteredRepositories) in
  {| loadingState := isLoading;
     errorState := error;
     emptyState := negb isLoading && negb error && (len =? 0);
     repositoryGrid :=
       if isLoading then true
       else negb isLoading && negb error && (0 <? len);
     statsBar := negb isLoading && negb error |}.

(** A repository passes the filters of a state: the search, when there
    is a search term, and the language filter, when a language is
    selected. *)
Definition passes_search (st : State) (σ : store) (repo : ref) : bool :=
  negb (truthy_str (searchTerm st))
  || retained (search_terms (searchTerm st)) (σ repo).

Definition passes_language (st : State) (σ : store) (repo : ref) : bool :=
  negb (truthy_str (selectedLanguage st))
  || bool_decide (language (σ repo) = selectedLanguage st).

Definition selected (st : State) (σ : store) (repo : ref) : bool :=
  passes_search st σ repo && passes_language st σ repo.

(** A string that does not start with white space. *)
Definition starts_without_ws (s : string) : Prop :=
  match s with
  | EmptyString => True
  | String c _ => is_ws c = false
  end.

(** The character [c] occurs in [s]. *)
Fixpoint occurs (c : ascii) (s : string) : bool :=
  match s with
  | EmptyString => false
  | String x s' => Ascii.eqb x c || occurs c s'
  end.

(** The double quote, which delimits the attributes of the cards. *)
Definition double_quote : ascii := ascii_of_nat 34.

(** A character that [innerHTML] writes as it is. *)
Definition plain_char (c : ascii) : bool :=
  negb (Ascii.eqb c "&") && negb (Ascii.eqb c "<") && negb (Ascii.eqb c ">").

(** The keys [handleArrowNavigation] answers to. *)
Definition arrow_keys : list string :=
  [ "ArrowUp"; "ArrowDown"; "ArrowLeft"; "ArrowRight" ].

(** ** The quick filter buttons *)

(** The own property [language] of [counts], if there is one. *)
Fixpoint own_count (counts : list (string * count_value)) (language : string)
  : option count_value :=
  match counts with
  | [] => None
  | (k, v) :: rest => if decide (k = language) then Some v
                      else own_count rest language
  end.

(** [counts[language] || 0]: a number, or [Text] for a value that is
    not a number, as the member inherited from [Object.prototype]. *)
Definition count_or_0 (counts : list (string * count_value)) (language : string)
  : count_value :=
  match own_count counts language with
  | Some (Count n) => Count (if truthy_num n then n else 0)
  | Some Text => Text
  | None => if inherited language then Text else Count 0
  end.

Section QuickFilter.
Variable Date_value : string -> option Z.
Variable localeCompare_base : string -> string -> Z.

(** [handleQuickFilter(language)]: the state it writes and the count
    its toast shows. *)
Definition handleQuickFilter (st : State) (language : string)
  : M (State * count_value) :=
  let* st' := handleLanguageFilter Date_value localeCompare_base st language in
  read (fun σ =>
          (st', count_or_0 (calculateLanguageCounts σ (repositories st'))
                  language)).

End QuickFilter.

(** ** The search cache

    [optimizeSearch], which [init] calls before the data are loaded,
    replaces [performAdvancedSearch] by a wrapper that keeps in a [Map]
    the arrays it has returned.  [updateFilteredRepositories] stores
    the array it gets in the state, and [sortRepositories] sorts that
    array in place: an array held by the cache is sorted with it.
    Arrays are therefore objects here, references into the list of the
    arrays allocated so far. *)
Module Cached.

Definition array : Type := nat.

(** The objects, the arrays and [this.searchCache], a [Map] listed in
    insertion order. *)
Record Memory : Type := {
  objects : store;
  arrays : list (list ref);
  searchCache : list (string * array)
}.

(** The fields of [this.state] that the filtering reads and writes.
    The array [repositories] is only ever copied, and is kept by value;
    [filteredRepositories] is a reference. *)
Record State : Type := {
  repositories : list ref;
  filteredRepositories : array;
  searchTerm : string;
  selectedLanguage : string;
  sortBy : string
}.

Definition with_filteredRepositories (st : State) (filtered : array) : State :=
  {| repositories := repositories st;
     filteredRepositories := filtered;
     searchTerm := searchTerm st;
     selectedLanguage := selectedLanguage st;
     sortBy := sortBy st |}.

(** The elements of an array. *)
Definition content (m : Memory) (a : array) : list ref :=
  default [] (arrays m !! a).

(** A new array. *)
Definition alloc (elements : list ref) (m : Memory) : Memory * array :=
  ({| objects := objects m;
      arrays := (arrays m ++ [elements])%list;
      searchCache := searchCache m |},
   length (arrays m)).

Definition with_objects (m : Memory) (σ : store) : Memory :=
  {| objects := σ; arrays := arrays m; searchCache := searchCache m |}.

Definition with_searchCache (m : Memory) (cache : list (string * array))
  : Memory :=
  {| objects := objects m; arrays := arrays m; searchCache := cache |}.

(** [`${searchTerm}-${repositories.length}`]. *)
Definition cacheKey (searchTerm : string) (length : nat) : string :=
  searchTerm +:+ "-" +:+ pretty length.

(** [searchCache.get(key)], [None] when [searchCache.has(key)] is false. *)
Fixpoint cache_get (cache : list (string * array)) (key : string)
  : option array :=
  match cache with
  | [] => None
  | (k, a) :: rest => if decide (k = key) then Some a else cache_get rest key
  end.

(** The wrapper that [optimizeSearch] installs.  The method it wraps
    returns the array it was given when the term is empty, and a new
    array, filtered and then sorted, otherwise. *)
Definition performAdvancedSearch (repositories : array) (searchTerm : string)
    (m : Memory) : Memory * result array :=
  let key := cacheKey searchTerm (length (content m repositories)) in
  match cache_get (searchCache m) key with
  | Some result => (m, Ok result)
  | None =>
      match performAdvancedSearch (content m repositories) searchTerm
              (objects m) with
      | (σ, Throw e) => (with_objects m σ, Throw e)
      | (σ, Ok found) =>
          let '(m, result) :=
            if truthy_str searchTerm then alloc found (with_objects m σ)
            else (with_objects m σ, repositories) in
          let cache :=
            if (50 <? length (searchCache m))%nat then tail (searchCache m)
            else searchCache m in
          (with_searchCache m (cache ++ [(key, result)])%list, Ok result)
      end
  end.

Section Pipeline.
Variable Date_value : string -> option Z.
Variable localeCompare_base : string -> string -> Z.

(** [sortRepositories()]: the array [state.filteredRepositories] is
    sorted in place. *)
Definition sortRepositories (st : State) (m : Memory) : Memory :=
  let a := filteredRepositories st in
  {| objects := objects m;
     arrays :=
       <[a := JS.sort (fun x y => comparison Date_value localeCompare_base
                                    (sortBy st) (objects m x) (objects m y))
                (content m a)]> (arrays m);
     searchCache := searchCache m |}.

(** [updateFilteredRepositories()] with the wrapper installed. *)
Definition updateFilteredRepositories (st : State) (m : Memory)
  : Memory * result State :=
  let '(m, filtered) := alloc (repositories st) m in
  match (if truthy_str (searchTerm st)
         then performAdvancedSearch filtered (searchTerm st) m
         else (m, Ok filtered)) with
  | (m, Throw e) => (m, Throw e)
  | (m, Ok filtered) =>
      let '(m, filtered) :=
        if truthy_str (selectedLanguage st) then
          alloc (filter (fun repo => language (objects m repo)
                                     = selectedLanguage st)
                   (content m filtered)) m
        else (m, filtered) in
      let st := with_filteredRepositories st filtered in
      (sortRepositories st m, Ok st)
  end.

End Pipeline.

End Cached.

(** The state without the cache that has the filters of [st]. *)
Definition uncached (st : Cached.State) : State :=
  {| repositories := Cached.repositories st;
     filteredRepositories := [];
     searchTerm := Cached.searchTerm st;
     selectedLanguage := Cached.selectedLanguage st;
     sortBy := Cached.sortBy st;
     languageCategory := "recently" |}.

(** The cache is sound for the repositories [repos]: under the key of
    a term and of their number it holds an array of the repositories
    that the search for the term retains, and that search returns. *)
Definition cache_sound (repos : list ref) (m : Cached.Memory) : Prop :=
  forall key a term,
    (key, a) ∈ Cached.searchCache m ->
    key = Cached.cacheKey term (length repos) ->
    term <> "" ->
    exists elements,
      Cached.arrays m !! a = Some elements
      /\ elements
         ≡ₚ filter (fun r => retained (search_terms term)
                               (Cached.objects m r) = true) repos
      /\ forall r, r ∈ repos ->
           hasAllTerms (searchText (Cached.objects m r)) (search_terms term)
           = true ->
           exists score,
             score_terms (Cached.objects m r) 0 (search_terms term) = Ok score.

Module CacheSample.

(** [zgo], written in Rust, and [a], written in Go, with five stars
    each: the search for [go] scores the first 10 and the second 6. *)
Definition two : payload :=
  PArr [ Some (Sample.raw 1 "zgo" 5 (Some "Rust") None Sample.octocat);
         Some (Sample.raw 2 "a" 5 (Some "Go") None Sample.octocat) ].

(** The memory when the data have been loaded: no array, an empty cache. *)
Definition loaded : Cached.Memory :=
  {| Cached.objects := store_of (Sample.loaded two);
     Cached.arrays := [];
     Cached.searchCache := [] |}.

(** The state that searches for [go] under a sort key. *)
Definition searching (sort_key : string) : Cached.State :=
  {| Cached.repositories := refs_of (Sample.loaded two);
     Cached.filteredRepositories := 0%nat;
     Cached.searchTerm := "go";
     Cached.selectedLanguage := "";
     Cached.sortBy := sort_key |}.

(** The names in the array of the state after a call. *)
Definition shown (r : Cached.Memory * result Cached.State) : list string :=
  match r.2 with
  | Ok st =>
      (fun x => name (Cached.objects r.1 x))
      <$> Cached.content r.1 (Cached.filteredRepositories st)
  | Throw _ => []
  end.

End CacheSample.
(** * Properties *)

(** ** Evaluation on sample inputs *)

Example toLowerCase_ex : toLowerCase "Hello World-42" = "hello world-42".
Proof. reflexivity. Qed.

Example includes_ex :
  includes "octocat/hello" "cat/h" = true
  /\ includes "octocat" "" = true
  /\ includes "octocat" "dog" = false.
Proof. repeat split. Qed.

Example split_ws_ex :
  split_ws false " a  b " = [""; "a"; "b"; ""]
  /\ split_ws false "" = [""]
  /\ split_ws false "foo bar" = ["foo"; "bar"].
Proof. repeat split. Qed.

Example sort_ex :
  JS.sort (fun a b => b - a) [10; 50; 5] = [50; 10; 5].
Proof. reflexivity. Qed.

Example own_property_order_ex :
  own_property_order [("Go", 1); ("10", 2); ("2", 3); ("01", 4)]
  = [("2", 3); ("10", 2); ("Go", 1); ("01", 4)].
Proof. vm_compute. reflexivity. Qed.

Example process_xy :
  (fun r => (name r, originalIndex r, searchText r)) <$> Sample.loaded Sample.xy
  = [("y", 1, "y go octocat"); ("x", 0, "x go octocat")].
Proof. vm_compute. reflexivity. Qed.

Example search_xy :
  (performAdvancedSearch (refs_of (Sample.loaded Sample.xy)) "GO  octo"
     (store_of (Sample.loaded Sample.xy))).2
  = Ok [0; 1]%nat.
Proof. vm_compute. reflexivity. Qed.

(** Counts [{Go: 2, Rust: 1, TypeScript: 3}] in popular mode. *)
Example group_popular :
  Sample.group_names
    (groupRepositoriesByLanguage "popular" ∅
       (store_of (Sample.loaded Sample.six)) [0; 1; 2; 3; 4; 5]%nat)
  = ["TypeScript"; "Go"; "Rust"].
Proof. vm_compute. reflexivity. Qed.

(** ** Facts about [Array.prototype.sort] *)

Section SortFacts.
Context {A : Type} (cmp : A -> A -> Z).

Lemma sort_insert_perm x l : JS.sort_insert cmp x l ≡ₚ x :: l.
Proof.
  induction l as [|y l IH]; simpl; [done|].
  destruct (cmp x y <=? 0); [done|].
  rewrite IH. apply Permutation_swap.
Qed.

Lemma sort_perm l : JS.sort cmp l ≡ₚ l.
Proof.
  induction l as [|x l IH]; simpl; [done|].
  by rewrite sort_insert_perm, IH.
Qed.

Lemma sort_elem_of x l : x ∈ JS.sort cmp l <-> x ∈ l.
Proof. by rewrite sort_perm. Qed.

Lemma sort_length l : length (JS.sort cmp l) = length l.
Proof. by rewrite sort_perm. Qed.

(** An element that may stand before the head of a list is inserted
    in front of it. *)
Lemma sort_insert_head x l :
  (forall y, head l = Some y -> before cmp x y) ->
  JS.sort_insert cmp x l = x :: l.
Proof.
  destruct l as [|y l]; simpl; [done|]. intros H.
  specialize (H y eq_refl). unfold before in H.
  by destruct (Z.leb_spec (cmp x y) 0); [|lia].
Qed.

(** Elements that are pairwise tied, or already in order, stay where
    they are. *)
Lemma sort_sorted_id l : StronglySorted (before cmp) l -> JS.sort cmp l = l.
Proof.
  induction 1 as [|x l Hl IH Hx]; simpl; [done|].
  rewrite IH. apply sort_insert_head.
  intros y Hy. destruct l; simplify_eq/=. by inv Hx.
Qed.

Section Consistent.
(** A consistent comparator: any two elements are ordered one way
    or the other, and the order is transitive. *)
Hypothesis before_total : forall a b, before cmp a b \/ before cmp b a.
Hypothesis before_trans : forall a b c, before cmp a b -> before cmp b c -> before cmp a c.

Lemma sort_insert_sorted x l :
  StronglySorted (before cmp) l -> StronglySorted (before cmp) (JS.sort_insert cmp x l).
Proof.
  induction 1 as [|y l Hl IH Hy]; simpl.
  - repeat constructor.
  - destruct (Z.leb_spec (cmp x y) 0) as [Hxy|Hxy].
    + constructor; [by constructor|].
      constructor; [done|].
      eapply Forall_impl; [exact Hy|]. intros z Hz. by eapply before_trans.
    + constructor; [done|].
      rewrite sort_insert_perm. constructor; [|done].
      destruct (before_total x y) as [H|H]; [unfold before in H; lia|done].
Qed.

Lemma sort_sorted l : StronglySorted (before cmp) (JS.sort cmp l).
Proof.
  induction l as [|x l IH]; simpl; [constructor|].
  by apply sort_insert_sorted.
Qed.

(** Sorting and filtering commute: the sort is stable. *)
Lemma filter_sort_insert (P : A -> Prop) `{!forall x, Decision (P x)} x l :
  StronglySorted (before cmp) l ->
  filter P (JS.sort_insert cmp x l)
  = if decide (P x) then JS.sort_insert cmp x (filter P l) else filter P l.
Proof.
  induction 1 as [|y l Hl IH Hy]; simpl.
  - rewrite filter_cons, filter_nil. by destruct (decide (P x)).
  - destruct (Z.leb_spec (cmp x y) 0) as [Hxy|Hxy].
    + rewrite filter_cons. destruct (decide (P x)) as [Px|Px]; [|done].
      symmetry. apply sort_insert_head. intros z Hz.
      assert (z ∈ filter P (y :: l)) as Hin.
      { destruct (filter P (y :: l)); simplify_eq/=. by left. }
      apply list_elem_of_filter in Hin as [_ Hin].
      apply elem_of_cons in Hin as [->|Hin]; [done|].
      eapply before_trans; [exact Hxy|].
      by eapply Forall_forall in Hy.
    + rewrite !(filter_cons _ y), IH.
      destruct (decide (P x)), (decide (P y)); simpl; try done.
      by destruct (Z.leb_spec (cmp x y) 0); [lia|].
Qed.

Lemma filter_sort (P : A -> Prop) `{!forall x, Decision (P x)} l :
  filter P (JS.sort cmp l) = JS.sort cmp (filter P l).
Proof.
  induction l as [|x l IH]; simpl; [done|].
  rewrite filter_sort_insert by apply sort_sorted.
  rewrite filter_cons, IH. by destruct (decide (P x)).
Qed.

(** Stability: the elements of a class of pairwise tied elements
    keep their relative order. *)
Lemma sort_stable (P : A -> Prop) `{!forall x, Decision (P x)} l :
  (forall a b, P a -> P b -> before cmp a b) ->
  filter P (JS.sort cmp l) = filter P l.
Proof.
  intros Htie. rewrite filter_sort. apply sort_sorted_id.
  assert (Forall P (filter P l)) as HP.
  { apply Forall_forall. intros a Ha.
    by apply list_elem_of_filter in Ha as [? _]. }
  induction HP as [|a l' Ha Hl' IH]; constructor; [done|].
  eapply Forall_impl; [exact Hl'|]. intros b Hb. by apply Htie.
Qed.
End Consistent.

End SortFacts.

Lemma StronglySorted_impl {A} (R R' : A -> A -> Prop) l :
  (forall a b, R a b -> R' a b) -> StronglySorted R l -> StronglySorted R' l.
Proof.
  intros HR. induction 1 as [|x l Hl IH Hx]; constructor; [done|].
  eapply Forall_impl; [exact Hx|]. intros y. apply HR.
Qed.

(** The sort depends on the comparator only through its values on the
    elements of the array. *)
Lemma sort_ext_in {A} (cmp cmp' : A -> A -> Z) l :
  (forall a b, a ∈ l -> b ∈ l -> cmp a b = cmp' a b) ->
  JS.sort cmp l = JS.sort cmp' l.
Proof.
  induction l as [|x l IH]; simpl; intros H; [done|].
  rewrite <- IH by (intros; apply H; by right).
  assert (forall s, s ⊆ l -> JS.sort_insert cmp x s = JS.sort_insert cmp' x s) as Hins.
  { induction s as [|y s IHs]; simpl; intros Hs; [done|].
    rewrite H; [|by left|right; apply Hs; by left].
    rewrite IHs; [done|]. intros z Hz. apply Hs. by right. }
  apply Hins. intros z Hz. by apply sort_elem_of in Hz.
Qed.

(** A comparator that subtracts keys is consistent. *)
Section KeySort.
Context {A : Type} (key : A -> Z).

Lemma key_ascending_total a b :
  before (fun a b => key a - key b) a b \/ before (fun a b => key a - key b) b a.
Proof. unfold before. lia. Qed.

Lemma key_ascending_trans a b c :
  before (fun a b => key a - key b) a b ->
  before (fun a b => key a - key b) b c ->
  before (fun a b => key a - key b) a c.
Proof. unfold before. lia. Qed.

Lemma key_descending_total a b :
  before (fun a b => key b - key a) a b \/ before (fun a b => key b - key a) b a.
Proof. unfold before. lia. Qed.

Lemma key_descending_trans a b c :
  before (fun a b => key b - key a) a b ->
  before (fun a b => key b - key a) b c ->
  before (fun a b => key b - key a) a c.
Proof. unfold before. lia. Qed.
End KeySort.

(** ** Facts about the normalizer *)

Section NormalizerFacts.
Variable now_created now_updated : nat -> string.

Local Abbreviation norm := (normalize now_created now_updated).
Local Abbreviation norm_from := (normalize_from now_created now_updated).
Local Abbreviation process := (processRepositoryData now_created now_updated).

Lemma normalize_from_lookup repos i k :
  norm_from i repos !! k = norm (i + k) <$> repos !! k.
Proof.
  revert i k. induction repos as [|repo rest IH]; intros i k; [done|].
  destruct k as [|k]; simpl.
  - by rewrite Nat.add_0_r.
  - rewrite IH. by replace (S i + k)%nat with (i + S k)%nat by lia.
Qed.


Lemma elem_of_normalize_from r repos i :
  r ∈ norm_from i repos <->
  exists k repo, repos !! k = Some repo /\ r = norm (i + k) repo.
Proof.
  rewrite list_elem_of_lookup. split.
  - intros [k Hk]. rewrite normalize_from_lookup in Hk.
    destruct (repos !! k) as [repo|] eqn:E; simplify_eq/=. eauto.
  - intros (k & repo & Hk & ->). exists k.
    by rewrite normalize_from_lookup, Hk.
Qed.




(** The array before the final sort is in ascending order of
    [originalIndex], without repetition. *)
Lemma normalize_from_ascending repos i :
  StronglySorted (fun a b => originalIndex a < originalIndex b)
    (norm_from i repos).
Proof.
  revert i. induction repos as [|repo rest IH]; intros i; simpl;
    constructor; [done|].
  apply Forall_forall. intros r (k & repo' & _ & ->)%elem_of_normalize_from.
  simpl. lia.
Qed.



End NormalizerFacts.

(** ** Normalization: which records are kept, and in which order *)

Lemma num_or_0_id x : num_or_0 x = x.
Proof. unfold num_or_0, truthy_num. destruct (Z.eqb_spec x 0); simpl; lia. Qed.



(** C5, evaluated.  The payload [null] makes [processRepositoryData]
    throw: [typeof null] is ['object'], the second branch is taken and
    [Object.keys(null)] raises a [TypeError].  A boolean, a number and a
    string take neither branch and give the empty array. *)
Theorem processRepositoryData_primitive_payload
    (now_created now_updated : nat -> string) :
  processRepositoryData now_created now_updated PNull = Throw TypeError
  /\ (forall b, processRepositoryData now_created now_updated (PBool b) = Ok ([], ∅))
  /\ (forall n, processRepositoryData now_created now_updated (PNum n) = Ok ([], ∅))
  /\ (forall s, processRepositoryData now_created now_updated (PStr s) = Ok ([], ∅)).
Proof. repeat split. Qed.

(** C2, refuted as stated.  On [[x (5 stars), null, y (50 stars)]] the
    loaded array is [[y, x]] with [originalIndex] 1 and 0: sorting it by
    ['recent-likes'] gives [[x, y]], sorting it by ['stars'] gives
    [[y, x]]. *)
Lemma load_order_counterexample :
  let out := Sample.loaded Sample.xy in
  let recent := JS.sort (comparison Sample.no_date Sample.no_collation "recent-likes") out in
  let starred := JS.sort (comparison Sample.no_date Sample.no_collation "stars") out in
  processRepositoryData Sample.now Sample.now Sample.xy = Ok (out, ∅)
  /\ (fun r => (name r, originalIndex r)) <$> out = [("y", 1); ("x", 0)]
  /\ name <$> recent = ["x"; "y"]
  /\ name <$> starred = ["y"; "x"]
  /\ recent <> starred.
Proof. vm_compute. repeat split. discriminate. Qed.

(** C2, amended.  [originalIndex] is assigned by the [map], in the order
    of the valid records of the flattened payload, and the single sort,
    descending by [stargazers_count], runs after it.  So the returned
    array is in descending star order, and sorting it by
    ['recent-likes'] restores the order of the valid records in the
    payload, whatever their stars. *)
Theorem processRepositoryData_load_order
    (now_created now_updated : nat -> string)
    (Date_value : string -> option Z) (localeCompare_base : string -> string -> Z)
    (data : payload) (out : list Repository) (languageOrder : gmap string Z) :
  processRepositoryData now_created now_updated data = Ok (out, languageOrder) ->
  StronglySorted (fun a b => stargazers_count a >= stargazers_count b) out
  /\ exists flat,
       flatten data = Ok (flat, languageOrder)
       /\ JS.sort (comparison Date_value localeCompare_base "recent-likes") out
          = normalize_from now_created now_updated 0 (validated flat)
       /\ originalIndex <$> normalize_from now_created now_updated 0 (validated flat)
          = Z.of_nat <$> seq 0 (length (validated flat)).
Proof.
  unfold processRepositoryData. intros Hp.
  destruct (flatten data) as [[flat lo]|] eqn:Hflat; simplify_eq.
  set (N := normalize_from now_created now_updated 0 (validated flat)).
  split.
  { eapply StronglySorted_impl;
      [|apply (sort_sorted (fun a b => stargazers_count b - stargazers_count a));
        [apply key_descending_total | apply key_descending_trans]].
    unfold before. intros; lia. }
  exists flat. split; [done|].
  change (comparison Date_value localeCompare_base "recent-likes")
    with (fun a b => num_or_0 (originalIndex a) - num_or_0 (originalIndex b)).
  set (cmp := fun a b => num_or_0 (originalIndex a) - num_or_0 (originalIndex b)).
  split.
  - apply (StronglySorted_unique_strong (before cmp)).
    + intros x1 x2 H1 H2 H12 H21.
      rewrite !sort_elem_of in H1.
      apply elem_of_normalize_from in H1 as (k1 & r1 & Hk1 & ->).
      apply elem_of_normalize_from in H2 as (k2 & r2 & Hk2 & ->).
      unfold before, cmp in H12, H21. rewrite !num_or_0_id in H12, H21.
      simpl in H12, H21. assert (k1 = k2) as -> by lia. by simplify_eq.
    + apply sort_sorted;
        [apply (key_ascending_total (fun a => num_or_0 (originalIndex a)))
        |apply (key_ascending_trans (fun a => num_or_0 (originalIndex a)))].
    + eapply StronglySorted_impl; [|apply normalize_from_ascending].
      unfold before, cmp. intros a b Hab. rewrite !num_or_0_id. lia.
    + by rewrite !sort_perm.
  - apply list_eq. intros k. rewrite !list_lookup_fmap.
    unfold N. rewrite normalize_from_lookup.
    destruct (validated flat !! k) as [repo|] eqn:Hk; simpl.
    + rewrite lookup_seq_lt by (by eapply lookup_lt_Some). done.
    + rewrite lookup_seq_ge by (by apply lookup_ge_None). done.
Qed.

Lemma processRepositoryData_load_order_witness :
  StronglySorted (fun a b => stargazers_count a >= stargazers_count b)
    (Sample.loaded Sample.xy)
  /\ exists flat,
       flatten Sample.xy = Ok (flat, ∅)
       /\ JS.sort (comparison Sample.no_date Sample.no_collation "recent-likes")
            (Sample.loaded Sample.xy)
          = normalize_from Sample.now Sample.now 0 (validated flat)
       /\ originalIndex <$> normalize_from Sample.now Sample.now 0 (validated flat)
          = Z.of_nat <$> seq 0 (length (validated flat)).
Proof.
  apply (processRepositoryData_load_order Sample.now Sample.now
           Sample.no_date Sample.no_collation Sample.xy).
  vm_compute. reflexivity.
Defined.

(** ** Facts about strings *)

Section StringFacts.

Lemma prefix_nil_l s : String.prefix "" s = true.
Proof. by destruct s. Qed.

Lemma prefix_cons c t d s :
  String.prefix (String c t) (String d s) = true <-> c = d /\ String.prefix t s = true.
Proof.
  simpl. destruct (ascii_dec c d) as [->|Hne].
  - split; [by intros ?|by intros [_ ?]].
  - split; [done|]. by intros [? _].
Qed.

Lemma prefix_nil_r t : String.prefix t "" = true -> t = "".
Proof. by destruct t. Qed.

Lemma includes_nil_r s : includes s "" = true.
Proof. destruct s; simpl; by rewrite ?prefix_nil_l. Qed.

Lemma includes_nil_l t : includes "" t = true -> t = "".
Proof. simpl. rewrite orb_false_r. apply prefix_nil_r. Qed.

Lemma includes_cons c s t :
  includes (String c s) t = String.prefix t (String c s) || includes s t.
Proof. done. Qed.

(** A prefix that does not contain the separator ends before it. *)
Lemma prefix_before_separator sep t a b :
  all_chars (fun x => negb (Ascii.eqb x sep)) t = true ->
  String.prefix t (a ++ String sep b) = true ->
  String.prefix t a = true.
Proof.
  revert t. induction a as [|x a IH]; intros [|c t] Hfree Hpre;
    try apply prefix_nil_l.
  - simpl in Hfree. apply andb_true_iff in Hfree as [Hc _].
    change ("" ++ String sep b)%string with (String sep b) in Hpre.
    apply prefix_cons in Hpre as [-> _].
    by rewrite Ascii.eqb_refl in Hc.
  - change (String x a ++ String sep b)%string
      with (String x (a ++ String sep b)) in Hpre.
    apply prefix_cons in Hpre as [-> Hpre]. apply prefix_cons. split; [done|].
    simpl in Hfree. apply andb_true_iff in Hfree as [_ Hfree]. by apply IH.
Qed.

(** An occurrence that does not contain the separator lies on one side
    of it. *)
Lemma includes_beside_separator sep t a b :
  all_chars (fun x => negb (Ascii.eqb x sep)) t = true ->
  includes (a ++ String sep b) t = true ->
  includes a t = true \/ includes b t = true.
Proof.
  intros Hfree. induction a as [|x a IH].
  - change ("" ++ String sep b)%string with (String sep b).
    rewrite includes_cons. intros [Hpre|Hin]%orb_true_iff; [|by right].
    left. destruct t as [|c t]; [apply includes_nil_r|].
    apply prefix_cons in Hpre as [-> _]. simpl in Hfree.
    by rewrite Ascii.eqb_refl in Hfree.
  - change (String x a ++ String sep b)%string
      with (String x (a ++ String sep b)).
    rewrite !includes_cons. intros [Hpre|Hin]%orb_true_iff.
    + left. apply orb_true_iff. left.
      by apply (prefix_before_separator sep t (String x a) b).
    + destruct (IH Hin) as [H|H]; [left|by right].
      apply orb_true_iff. by right.
Qed.

(** A term without a space that occurs in [parts.join(' ')] occurs in
    one of the parts. *)
Lemma includes_join_space parts t :
  t <> "" ->
  all_chars (fun x => negb (Ascii.eqb x " ")) t = true ->
  includes (join_space parts) t = true ->
  exists p, p ∈ parts /\ includes p t = true.
Proof.
  intros Hne Hfree. unfold join_space.
  induction parts as [|p parts IH]; simpl.
  - rewrite orb_false_r. by intros ?%prefix_nil_r.
  - destruct parts as [|q parts].
    + intros H. exists p. split; [by left|done].
    + intros H.
      apply (includes_beside_separator " " t) in H as [H|H]; [| |done].
      * exists p. split; [by left|done].
      * destruct (IH H) as (p' & Hin & Hp'). exists p'. split; [by right|done].
Qed.

Lemma toLowerCase_app a b :
  toLowerCase (a ++ b) = (toLowerCase a ++ toLowerCase b)%string.
Proof. induction a as [|c a IH]; simpl; [done|]. by rewrite IH. Qed.

Lemma toLowerCase_join_space parts :
  toLowerCase (join_space parts) = join_space (toLowerCase <$> parts).
Proof.
  unfold join_space. induction parts as [|p parts IH]; simpl; [done|].
  destruct parts as [|q parts]; [done|].
  rewrite toLowerCase_app. simpl toLowerCase. f_equal. f_equal.
  exact IH.
Qed.

Lemma all_chars_impl (P Q : ascii -> bool) s :
  (forall c, P c = true -> Q c = true) ->
  all_chars P s = true -> all_chars Q s = true.
Proof.
  intros HPQ. induction s as [|c s IH]; simpl; [done|].
  intros [? ?]%andb_true_iff. apply andb_true_iff. eauto.
Qed.

(** The pieces of [split(/\s+/)] contain no white space. *)
Lemma split_ws_pieces prev s p :
  p ∈ split_ws prev s -> all_chars (fun c => negb (is_ws c)) p = true.
Proof.
  revert prev p. induction s as [|c s IH]; intros prev p; simpl.
  - by intros ->%list_elem_of_singleton.
  - destruct (is_ws c) eqn:Hc.
    + destruct prev; [apply IH|].
      intros [->|Hp]%elem_of_cons; [done|]. by eapply IH.
    + destruct (split_ws false s) as [|q qs] eqn:E.
      * intros ->%list_elem_of_singleton. simpl. by rewrite Hc.
      * intros [->|Hp]%elem_of_cons.
        -- simpl. rewrite Hc. simpl. apply (IH false). rewrite E. by left.
        -- apply (IH false). rewrite E. by right.
Qed.

(** The search terms are non-empty and contain no white space, in
    particular no space. *)
Lemma search_terms_spec searchTerm term :
  term ∈ search_terms searchTerm ->
  term <> "" /\ all_chars (fun c => negb (is_ws c)) term = true
  /\ all_chars (fun x => negb (Ascii.eqb x " ")) term = true.
Proof.
  unfold search_terms. intros [Hne Hin]%list_elem_of_filter.
  split; [done|]. apply split_ws_pieces in Hin. split; [done|].
  eapply all_chars_impl; [|exact Hin]. intros c Hc.
  destruct (Ascii.eqb_spec c " ") as [->|]; done.
Qed.

End StringFacts.

(** ** Facts about the relevance score *)

Section ScoreFacts.

Lemma truthy_str_spec s : truthy_str s = true <-> s <> "".
Proof.
  unfold truthy_str. destruct (String.eqb_spec s ""); simpl; naive_solver.
Qed.

Lemma owner_login_lower_spec repo :
  owner_login_lower repo
  = match owner repo ≫= login with
    | Some l => Ok (toLowerCase l)
    | None => Throw TypeError
    end.
Proof. unfold owner_login_lower. by destruct (owner repo) as [[[l|]]|]. Qed.

(** One round of the scoring loop adds a positive amount when the term
    occurs in a scored field and nothing otherwise. *)
Lemma score_term_spec repo score term score' :
  score_term repo score term = Ok score' ->
  score <= score'
  /\ (in_scored_field repo term = true -> score < score')
  /\ (in_scored_field repo term = false -> score' = score).
Proof.
  unfold score_term, in_scored_field. rewrite owner_login_lower_spec.
  destruct (owner repo ≫= login) as [l|]; [|done].
  destruct (includes (toLowerCase (name repo)) term),
    (includes (toLowerCase (description repo)) term),
    (existsb _ (topics repo)),
    (includes (toLowerCase (language repo)) term),
    (includes (toLowerCase l) term);
    intros [= <-]; simpl; repeat split; intros; try done; lia.
Qed.

Lemma score_terms_spec repo terms score score' :
  score_terms repo score terms = Ok score' ->
  score <= score'
  /\ (score < score' <-> exists term, term ∈ terms /\ in_scored_field repo term = true).
Proof.
  revert score. induction terms as [|term terms IH]; simpl; intros score.
  - intros [= <-]. split; [lia|]. split; [lia|]. by intros (? & ?%elem_of_nil & _).
  - destruct (score_term repo score term) as [s1|] eqn:E1; [|done].
    intros Hrest. apply score_term_spec in E1 as (Hle & Hpos & Hzero).
    apply IH in Hrest as (Hle' & Hiff). split; [lia|]. split.
    + intros Hlt. destruct (in_scored_field repo term) eqn:Hin.
      * exists term. split; [by left|done].
      * rewrite Hzero in Hiff by done.
        destruct (proj1 Hiff Hlt) as (t & Ht & Hs). exists t. split; [by right|done].
    + intros (t & [->|Ht]%elem_of_cons & Hs).
      * specialize (Hpos Hs). lia.
      * assert (s1 < score') by (apply Hiff; eauto). lia.
Qed.

(** The score is computed when the owner has a login, or when there is
    no term; otherwise the loop throws. *)
Lemma score_terms_ok repo terms score l :
  owner repo ≫= login = Some l ->
  exists score', score_terms repo score terms = Ok score'.
Proof.
  intros Hl. revert score. induction terms as [|term terms IH]; simpl; intros score.
  - eauto.
  - unfold score_term. rewrite owner_login_lower_spec, Hl. apply IH.
Qed.

Lemma score_terms_throw repo terms score :
  owner repo ≫= login = None -> terms <> [] ->
  score_terms repo score terms = Throw TypeError.
Proof.
  intros Hl. destruct terms as [|term terms]; [done|]. intros _. simpl.
  unfold score_term. by rewrite owner_login_lower_spec, Hl.
Qed.

(** The score and the decision of the callback do not read
    [searchScore]. *)
Lemma score_terms_same_fields a b terms score :
  same_fields a b -> score_terms a score terms = score_terms b score terms.
Proof.
  intros (_ & Hn & _ & Hd & _ & Hl & Ht & _ & _ & Ho & _ & _).
  revert score. induction terms as [|term terms IH]; simpl; intros score; [done|].
  unfold score_term, owner_login_lower. rewrite Hn, Hd, Hl, Ht, Ho.
  destruct (owner b) as [[[l|]]|]; [apply IH|done..].
Qed.

Lemma retained_same_fields a b terms :
  same_fields a b -> retained terms a = retained terms b.
Proof.
  intros H. unfold retained. rewrite (score_terms_same_fields a b) by done.
  destruct H as (_ & _ & _ & _ & _ & _ & _ & _ & _ & _ & _ & ->). done.
Qed.

Global Instance same_fields_refl : Reflexive same_fields.
Proof. intros a. by repeat split. Qed.

Global Instance same_fields_trans : Transitive same_fields.
Proof.
  intros a b c Hab Hbc. unfold same_fields in *.
  destruct_and!. repeat split; congruence.
Qed.

Global Instance same_fields_sym : Symmetric same_fields.
Proof.
  intros a b Hab. unfold same_fields in *. destruct_and!. by repeat split.
Qed.

Lemma with_searchScore_same_fields repo score :
  same_fields repo (with_searchScore repo score).
Proof. by repeat split. Qed.

Lemma set_searchScore_same_fields σ repo score r :
  same_fields (σ r) (set_searchScore σ repo score r).
Proof.
  unfold set_searchScore. destruct (decide (r = repo)); [|done].
  apply with_searchScore_same_fields.
Qed.

End ScoreFacts.

(** ** Facts about the search pass *)

Section SearchFacts.
Variable terms : list string.

Lemma search_callback_spec repo σ :
  search_callback terms repo σ
  = if hasAllTerms (searchText (σ repo)) terms then
      match score_terms (σ repo) 0 terms with
      | Ok score => (set_searchScore σ repo score, Ok (0 <? score))
      | Throw e => (σ, Throw e)
      end
    else (σ, Ok false).
Proof.
  unfold search_callback.
  destruct (hasAllTerms (searchText (σ repo)) terms); simpl; [|done].
  by destruct (score_terms (σ repo) 0 terms).
Qed.

Lemma filterM_cons callback repo rest σ :
  filterM callback (repo :: rest) σ
  = match callback repo σ with
    | (σ1, Ok keep) =>
        match filterM callback rest σ1 with
        | (σ2, Ok kept) => (σ2, Ok (if keep : bool then repo :: kept else kept))
        | (σ2, Throw e) => (σ2, Throw e)
        end
    | (σ1, Throw e) => (σ1, Throw e)
    end.
Proof.
  simpl. unfold bindM. destruct (callback repo σ) as [σ1 [keep|e]]; [|done].
  by destruct (filterM callback rest σ1) as [σ2 [kept|e]].
Qed.

(** The callback leaves every field other than [searchScore] as it is,
    whether it returns or throws. *)
Lemma search_callback_frame repo σ r :
  same_fields (σ r) ((search_callback terms repo σ).1 r).
Proof.
  rewrite search_callback_spec.
  destruct (hasAllTerms (searchText (σ repo)) terms); [|done].
  destruct (score_terms (σ repo) 0 terms); [|done].
  apply set_searchScore_same_fields.
Qed.

Lemma search_pass_frame l σ r :
  same_fields (σ r) ((filterM (search_callback terms) l σ).1 r).
Proof.
  revert σ. induction l as [|repo rest IH]; intros σ; [done|].
  rewrite filterM_cons.
  pose proof (search_callback_frame repo σ r) as H1.
  destruct (search_callback terms repo σ) as [σ1 [keep|e]]; [|done].
  pose proof (IH σ1) as H2.
  destruct (filterM (search_callback terms) rest σ1) as [σ2 [kept|e]];
    simpl in *; by etrans.
Qed.

Lemma hasAllTerms_same_fields a b :
  same_fields a b ->
  hasAllTerms (searchText a) terms = hasAllTerms (searchText b) terms.
Proof. intros (_ & _ & _ & _ & _ & _ & _ & _ & _ & _ & _ & ->). done. Qed.

(** What a search pass that returns has done: it kept the repositories
    the callback retains, in order; it wrote the score of every
    repository of the array whose [searchText] contains all terms; it
    left every other object as it was. *)
Lemma search_pass_ok l σ σ' kept :
  filterM (search_callback terms) l σ = (σ', Ok kept) ->
  kept = filter (fun r => retained terms (σ r) = true) l
  /\ (forall r, r ∈ l -> hasAllTerms (searchText (σ r)) terms = true ->
        exists score, score_terms (σ r) 0 terms = Ok score
                      /\ searchScore (σ' r) = Some score)
  /\ (forall r, ~ (r ∈ l /\ hasAllTerms (searchText (σ r)) terms = true) ->
        σ' r = σ r).
Proof.
  revert σ σ' kept. induction l as [|repo rest IH]; intros σ σ' kept.
  { intros [= <- <-]. split; [done|]. split; [by intros ? ?%elem_of_nil|done]. }
  rewrite filterM_cons.
  pose proof (fun r => search_callback_frame repo σ r) as Hframe.
  rewrite search_callback_spec in Hframe |- *.
  destruct (hasAllTerms (searchText (σ repo)) terms) eqn:Hall.
  - destruct (score_terms (σ repo) 0 terms) as [score|e] eqn:Hscore; [|done].
    simpl in Hframe.
    destruct (filterM (search_callback terms) rest (set_searchScore σ repo score))
      as [σ2 [kept'|e]] eqn:Hrest; [|done].
    intros [= <- <-]. apply IH in Hrest as (Hkept & Hwritten & Hother).
    split; [|split].
    + assert (retained terms (σ repo) = (0 <? score)) as Hret.
      { unfold retained. by rewrite Hall, Hscore. }
      rewrite filter_cons, Hkept.
      rewrite (list_filter_iff _ (fun r => retained terms (σ r) = true))
        by (intros r; by rewrite <- (retained_same_fields _ _ _ (Hframe r))).
      destruct (decide (retained terms (σ repo) = true)) as [Hd|Hd];
        rewrite Hret in Hd; by destruct (0 <? score).
    + intros r Hr Hr_all. destruct (decide (r ∈ rest)) as [Hin|Hnin].
      * destruct (Hwritten r Hin) as (s & Hs & Hs').
        { by rewrite <- (hasAllTerms_same_fields _ _ (Hframe r)). }
        exists s. by rewrite (score_terms_same_fields _ _ _ _ (Hframe r)).
      * apply elem_of_cons in Hr as [->|Hr]; [|done].
        exists score. split; [done|]. rewrite Hother by (by intros [? _]).
        unfold set_searchScore. by rewrite decide_True.
    + intros r Hr. rewrite Hother.
      * unfold set_searchScore. rewrite decide_False; [done|].
        intros ->. apply Hr. split; [by left|done].
      * intros [Hin Hr_all]. apply Hr. split; [by right|].
        by rewrite (hasAllTerms_same_fields _ _ (Hframe r)).
  - destruct (filterM (search_callback terms) rest σ) as [σ2 [kept'|e]] eqn:Hrest;
      [|done].
    intros [= <- <-]. apply IH in Hrest as (Hkept & Hwritten & Hother).
    split; [|split].
    + assert (retained terms (σ repo) = false) as Hret.
      { unfold retained. by rewrite Hall. }
      rewrite filter_cons, Hkept. rewrite decide_False; [done|by rewrite Hret].
    + intros r [->|Hr]%elem_of_cons Hr_all; [congruence|]. by apply Hwritten.
    + intros r Hr. apply Hother. intros [Hin Hr_all]. apply Hr.
      split; [by right|done].
Qed.

(** The pass returns when the scoring loop does on every repository it
    reaches. *)
Lemma search_pass_total l σ :
  (forall r, r ∈ l -> hasAllTerms (searchText (σ r)) terms = true ->
     exists score, score_terms (σ r) 0 terms = Ok score) ->
  exists σ' kept, filterM (search_callback terms) l σ = (σ', Ok kept).
Proof.
  revert σ. induction l as [|repo rest IH]; intros σ Hok; [by eexists _, _|].
  rewrite filterM_cons.
  pose proof (fun r => search_callback_frame repo σ r) as Hframe.
  rewrite search_callback_spec in Hframe |- *.
  assert (forall σ1, (forall r, same_fields (σ r) (σ1 r)) ->
            exists σ' kept, filterM (search_callback terms) rest σ1 = (σ', Ok kept))
    as Hrest.
  { intros σ1 H1. apply IH. intros r Hr Hall.
    rewrite <- (hasAllTerms_same_fields _ _ (H1 r)) in Hall.
    destruct (Hok r) as (s & Hs); [by right|done|].
    exists s. by rewrite <- (score_terms_same_fields _ _ _ _ (H1 r)). }
  destruct (hasAllTerms (searchText (σ repo)) terms) eqn:Hall.
  - destruct (Hok repo) as (s & Hs); [by left|done|].
    rewrite Hs in Hframe |- *. simpl in Hframe.
    destruct (Hrest _ Hframe) as (σ' & kept & ->). by eexists _, _.
  - destruct (Hrest σ) as (σ' & kept & ->); [done|]. by eexists _, _.
Qed.

End SearchFacts.

Lemma performAdvancedSearch_unfold repositories searchTerm σ :
  searchTerm <> "" ->
  performAdvancedSearch repositories searchTerm σ
  = match filterM (search_callback (search_terms searchTerm)) repositories σ with
    | (σ', Ok kept) =>
        (σ', Ok (JS.sort (fun a b => searchScore_or_0 (σ' b) - searchScore_or_0 (σ' a))
                   kept))
    | (σ', Throw e) => (σ', Throw e)
    end.
Proof.
  intros Hne%truthy_str_spec. unfold performAdvancedSearch. rewrite Hne. simpl.
  unfold bindM, read.
  by destruct (filterM _ repositories σ) as [σ' [kept|e]].
Qed.

(** ** Search: AND semantics, result order, and the missing owner *)

Lemma filter_ext_in {A} (P Q : A -> Prop)
    `{!forall x, Decision (P x)} `{!forall x, Decision (Q x)} (l : list A) :
  (forall x, x ∈ l -> P x <-> Q x) -> filter P l = filter Q l.
Proof.
  induction l as [|x l IH]; intros Hext; [done|].
  rewrite !filter_cons, IH by (intros; apply Hext; by right).
  assert (P x <-> Q x) as Hx by (apply Hext; by left).
  destruct (decide (P x)) as [HP|HP], (decide (Q x)) as [HQ|HQ];
    try done; exfalso; tauto.
Qed.

Lemma lower_ascii_idempotent c : lower_ascii (lower_ascii c) = lower_ascii c.
Proof. by destruct c as [[] [] [] [] [] [] [] []]. Qed.

Lemma toLowerCase_all_chars s :
  all_chars (fun c => Ascii.eqb (lower_ascii c) c) (toLowerCase s) = true.
Proof.
  induction s as [|c s IH]; simpl; [done|].
  by rewrite lower_ascii_idempotent, Ascii.eqb_refl.
Qed.

Lemma all_chars_lower_fixed s :
  all_chars (fun c => Ascii.eqb (lower_ascii c) c) s = true -> toLowerCase s = s.
Proof.
  induction s as [|c s IH]; simpl; [done|].
  intros [Hc%Ascii.eqb_eq Hs]%andb_true_iff. by rewrite Hc, IH.
Qed.

(** The pieces of a split inherit what holds of every character. *)
Lemma split_ws_pieces_all P prev s p :
  all_chars P s = true -> p ∈ split_ws prev s -> all_chars P p = true.
Proof.
  revert prev p. induction s as [|c s IH]; intros prev p; simpl.
  - by intros _ ->%list_elem_of_singleton.
  - intros [Hc Hs]%andb_true_iff. destruct (is_ws c).
    + destruct prev; [by apply IH|].
      intros [->|Hp]%elem_of_cons; [done|]. by eapply IH.
    + destruct (split_ws false s) as [|q qs] eqn:E.
      * intros ->%list_elem_of_singleton. simpl. by rewrite Hc.
      * intros [->|Hp]%elem_of_cons.
        -- simpl. rewrite Hc. simpl. apply (IH false); [done|]. rewrite E. by left.
        -- apply (IH false); [done|]. rewrite E. by right.
Qed.

Lemma search_terms_lowercase searchTerm term :
  term ∈ search_terms searchTerm -> toLowerCase term = term.
Proof.
  unfold search_terms. intros [_ Hin]%list_elem_of_filter.
  apply all_chars_lower_fixed.
  eapply split_ws_pieces_all; [apply toLowerCase_all_chars|exact Hin].
Qed.

Lemma hasAllTerms_spec text terms :
  hasAllTerms text terms = true <->
  forall term, term ∈ terms -> includes text term = true.
Proof.
  unfold hasAllTerms. rewrite forallb_forall.
  split; intros H term Hin; apply H; by apply list_elem_of_In.
Qed.

Lemma retained_spec terms repo :
  retained terms repo = true <->
  hasAllTerms (searchText repo) terms = true
  /\ exists score, score_terms repo 0 terms = Ok score /\ 0 < score.
Proof.
  unfold retained. rewrite andb_true_iff.
  destruct (score_terms repo 0 terms) as [score|e].
  - rewrite Z.ltb_lt. split.
    + intros [? ?]. eauto.
    + intros [? (s & [= <-] & ?)]. done.
  - split; [by intros [_ ?]|by intros [_ (s & ? & _)]].
Qed.

(** C3.  For a non-empty search term, when [performAdvancedSearch]
    returns: a repository is in the result only if it is in the input
    and every term (the lower-cased, non-empty, white-space-free pieces
    of the search term) is a substring of its [searchText]; the result
    is in descending order of the relevance score, which is the
    [searchScore] the pass stored; and the repositories with one and the
    same score stand in the order they had among the retained entries of
    the input. *)
Theorem performAdvancedSearch_and_semantics_and_order
    (repositories : list ref) (searchTerm : string) (σ σ' : store)
    (out : list ref) :
  searchTerm <> "" ->
  performAdvancedSearch repositories searchTerm σ = (σ', Ok out) ->
  (forall term, term ∈ search_terms searchTerm ->
     term <> "" /\ toLowerCase term = term
     /\ all_chars (fun c => negb (is_ws c)) term = true)
  /\ (forall repo, repo ∈ out ->
        repo ∈ repositories
        /\ forall term, term ∈ search_terms searchTerm ->
             includes (searchText (σ repo)) term = true)
  /\ (forall repo, repo ∈ out ->
        exists score, score_terms (σ repo) 0 (search_terms searchTerm) = Ok score
                      /\ searchScore (σ' repo) = Some score
                      /\ searchScore_or_0 (σ' repo) = score)
  /\ StronglySorted
       (fun a b => searchScore_or_0 (σ' a) >= searchScore_or_0 (σ' b)) out
  /\ (forall score,
        filter (fun r => searchScore_or_0 (σ' r) = score) out
        = filter (fun r => searchScore_or_0 (σ' r) = score)
            (filter (fun r => r ∈ out) repositories)).
Proof.
  intros Hne Hsearch. rewrite performAdvancedSearch_unfold in Hsearch by done.
  set (terms := search_terms searchTerm) in *.
  destruct (filterM (search_callback terms) repositories σ)
    as [σ1 [kept|e]] eqn:Hpass; [|done].
  injection Hsearch as <- <-.
  apply search_pass_ok in Hpass as (Hkept & Hwritten & _).
  set (cmp := fun a b : ref => searchScore_or_0 (σ1 b) - searchScore_or_0 (σ1 a)).
  assert (forall repo, repo ∈ JS.sort cmp kept <->
            repo ∈ repositories /\ retained terms (σ repo) = true) as Hmem.
  { intros repo. by rewrite sort_elem_of, Hkept, list_elem_of_filter, (comm and). }
  split; [|split; [|split; [|split]]].
  - intros term Hterm. split; [by apply search_terms_spec in Hterm as (? & _)|].
    split; [by eapply search_terms_lowercase|].
    by apply search_terms_spec in Hterm as (_ & ? & _).
  - intros repo (Hin & (Hall & _)%retained_spec)%Hmem. split; [done|].
    by apply hasAllTerms_spec.
  - intros repo (Hin & (Hall & score & Hscore & Hpos)%retained_spec)%Hmem.
    destruct (Hwritten repo Hin Hall) as (s & Hs & Hs'). simplify_eq.
    exists s. split; [done|]. split; [done|].
    unfold searchScore_or_0. rewrite Hs'. simpl. unfold truthy_num.
    destruct (Z.eqb_spec s 0); simpl; lia.
  - eapply StronglySorted_impl;
      [|apply (sort_sorted cmp);
        [apply (key_descending_total (fun r => searchScore_or_0 (σ1 r)))
        |apply (key_descending_trans (fun r => searchScore_or_0 (σ1 r)))]].
    unfold before, cmp. intros; lia.
  - intros score.
    etrans.
    { apply (sort_stable cmp). all: unfold before, cmp; intros; lia. }
    f_equal. etrans; [exact Hkept|]. apply filter_ext_in. intros r Hr.
    rewrite Hmem. tauto.
Qed.

Lemma performAdvancedSearch_and_semantics_and_order_witness :
  let σ := store_of (Sample.loaded Sample.xy) in
  let σ' := (performAdvancedSearch [0; 1]%nat "GO  octo" σ).1 in
  let out := [0; 1]%nat in
  (forall term, term ∈ search_terms "GO  octo" ->
     term <> "" /\ toLowerCase term = term
     /\ all_chars (fun c => negb (is_ws c)) term = true)
  /\ (forall repo, repo ∈ out ->
        repo ∈ [0; 1]%nat
        /\ forall term, term ∈ search_terms "GO  octo" ->
             includes (searchText (σ repo)) term = true)
  /\ (forall repo, repo ∈ out ->
        exists score, score_terms (σ repo) 0 (search_terms "GO  octo") = Ok score
                      /\ searchScore (σ' repo) = Some score
                      /\ searchScore_or_0 (σ' repo) = score)
  /\ StronglySorted
       (fun a b => searchScore_or_0 (σ' a) >= searchScore_or_0 (σ' b)) out
  /\ (forall score,
        filter (fun r => searchScore_or_0 (σ' r) = score) out
        = filter (fun r => searchScore_or_0 (σ' r) = score)
            (filter (fun r => r ∈ out) [0; 1]%nat)).
Proof.
  apply (performAdvancedSearch_and_semantics_and_order [0; 1]%nat "GO  octo"
           (store_of (Sample.loaded Sample.xy))).
  - discriminate.
  - reflexivity.
Defined.

(** The search returns on repositories whose owner has a login. *)
Lemma performAdvancedSearch_returns repositories searchTerm σ :
  (forall repo, repo ∈ repositories -> is_Some (owner (σ repo) ≫= login)) ->
  exists σ' out, performAdvancedSearch repositories searchTerm σ = (σ', Ok out).
Proof.
  intros Hown. destruct (decide (searchTerm = "")) as [->|Hne].
  { by eexists _, _. }
  rewrite performAdvancedSearch_unfold by done.
  destruct (search_pass_total (search_terms searchTerm) repositories σ)
    as (σ' & kept & ->); [|by eexists _, _].
  intros r Hr _. destruct (Hown r Hr) as [l Hl]. by eapply score_terms_ok.
Qed.

(** A repository without an owner login whose [searchText] contains
    every term of a search with at least one term makes the search
    throw as soon as the filter reaches it. *)
Lemma performAdvancedSearch_throws repo rest searchTerm σ :
  searchTerm <> "" ->
  search_terms searchTerm <> [] ->
  owner (σ repo) ≫= login = None ->
  hasAllTerms (searchText (σ repo)) (search_terms searchTerm) = true ->
  performAdvancedSearch (repo :: rest) searchTerm σ = (σ, Throw TypeError).
Proof.
  intros Hne Hterms Hown Hall.
  rewrite performAdvancedSearch_unfold, filterM_cons, search_callback_spec by done.
  by rewrite Hall, score_terms_throw.
Qed.

(** C10.  There is a normalized repository without an [owner] (the
    record [{id: 1, name: "x", language: "Go", stargazers_count: 5}],
    which [processRepositoryData] accepts) and a non-empty search term
    ("x") whose every term occurs in its [searchText], on which
    [performAdvancedSearch] throws a [TypeError] instead of returning. *)
Theorem performAdvancedSearch_missing_owner_throws :
  exists (record : RawRepository) (repo : Repository) (searchTerm : string),
    raw_owner record = None
    /\ processRepositoryData Sample.now Sample.now (PArr [Some record])
       = Ok ([repo], ∅)
    /\ owner repo = None
    /\ searchTerm <> ""
    /\ search_terms searchTerm <> []
    /\ hasAllTerms (searchText repo) (search_terms searchTerm) = true
    /\ performAdvancedSearch [0%nat] searchTerm (store_of [repo])
       = (store_of [repo], Throw TypeError).
Proof.
  exists (Sample.raw 1 "x" 5 (Some "Go") None None).
  eexists. exists "x".
  split; [done|]. split; [vm_compute; reflexivity|].
  split; [done|]. split; [done|]. split; [done|]. split; [done|].
  by apply performAdvancedSearch_throws.
Qed.

(** ** The relevance score of a repository that passes the AND filter *)

Lemma elem_of_filter_Boolean q xs :
  q ∈ filter_Boolean xs <-> Some q ∈ xs /\ q <> "".
Proof.
  unfold filter_Boolean. rewrite list_elem_of_omap. split.
  - intros ([s|] & Hin & Hq); [|done].
    destruct (truthy_str s) eqn:Hs; simplify_eq.
    by apply truthy_str_spec in Hs.
  - intros [Hin Hq%truthy_str_spec]. exists (Some q). by rewrite Hq.
Qed.

(** A term without white space that occurs in the [searchText] of a
    normalized repository occurs in its [full_name] or in one of the
    five scored fields. *)
Lemma searchText_term_field now_created now_updated i record term :
  term <> "" ->
  all_chars (fun x => negb (Ascii.eqb x " ")) term = true ->
  includes (searchText (normalize now_created now_updated i record)) term = true ->
  in_full_name (normalize now_created now_updated i record) term = true
  \/ in_scored_field (normalize now_created now_updated i record) term = true.
Proof.
  intros Hne Hfree. simpl. unfold createSearchText.
  rewrite toLowerCase_join_space. intros Hin.
  apply includes_join_space in Hin as (p & Hp & Hin); [|done..].
  apply list_elem_of_fmap in Hp as (q & -> & Hq).
  apply elem_of_filter_Boolean in Hq as [Hq Hq_ne].
  unfold in_full_name, in_scored_field. simpl.
  rewrite !elem_of_app, !elem_of_cons, elem_of_nil in Hq.
  destruct Hq as [[Hq|[Hq|[Hq|[Hq|[]]]]]|[Hq|[Hq|[]]]].
  - right. rewrite <- Hq. simpl. by rewrite Hin.
  - left. by rewrite <- Hq.
  - right. rewrite <- Hq. simpl.
    rewrite (proj2 (truthy_str_spec q)) by done. rewrite Hin.
    by rewrite orb_true_r.
  - right. rewrite <- Hq. simpl.
    rewrite (proj2 (truthy_str_spec q)) by done. rewrite Hin.
    by rewrite !orb_true_r.
  - right. apply list_elem_of_fmap in Hq as (t & [= <-] & Ht).
    destruct (raw_topics record) as [ts|]; simpl in Ht; [|by apply elem_of_nil in Ht].
    assert (existsb (fun topic => includes (toLowerCase topic) term) ts = true)
      as ->.
    { apply existsb_exists. exists q. split; [by apply list_elem_of_In|done]. }
    by rewrite !orb_true_r.
  - right. rewrite <- Hq, Hin. by rewrite !orb_true_r.
Qed.

(** C6, refuted as stated.  The record [hello] is normalized to a
    repository whose [searchText] is ["hello octocat/hello go octocat"];
    the single term of the search ["octocat/hello"] occurs in it, through
    [full_name] only; no scored field contains the term, the score is 0
    and the search drops the repository. *)
Lemma score_zero_counterexample :
  let repo := normalize Sample.now Sample.now 0 Sample.hello in
  let terms := search_terms "octocat/hello" in
  processRepositoryData Sample.now Sample.now (PArr [Some Sample.hello])
  = Ok ([repo], ∅)
  /\ searchText repo = "hello octocat/hello go octocat"
  /\ terms = ["octocat/hello"]
  /\ hasAllTerms (searchText repo) terms = true
  /\ score_terms repo 0 terms = Ok 0
  /\ (performAdvancedSearch [0%nat] "octocat/hello" (store_of [repo])).2 = Ok [].
Proof. vm_compute. repeat split. Qed.

(** C6, amended.  For a normalized repository whose [searchText]
    contains every search term, the accumulated score is strictly
    positive as soon as one term does not occur in [full_name], the one
    part of [searchText] the scoring loop leaves out; in general the
    score is positive exactly when some term occurs in one of the five
    scored fields. *)
Theorem score_positive_unless_full_name_only
    (now_created now_updated : nat -> string) (i : nat)
    (record : RawRepository) (searchTerm : string) (score : Z) :
  let repo := normalize now_created now_updated i record in
  let terms := search_terms searchTerm in
  hasAllTerms (searchText repo) terms = true ->
  score_terms repo 0 terms = Ok score ->
  ((exists term, term ∈ terms /\ in_full_name repo term = false) -> 0 < score)
  /\ (0 < score <-> exists term, term ∈ terms /\ in_scored_field repo term = true).
Proof.
  intros repo terms Hall Hscore.
  apply score_terms_spec in Hscore as [_ Hiff]. split; [|done].
  intros (term & Hterm & Hfull). apply Hiff. exists term. split; [done|].
  pose proof (search_terms_spec _ _ Hterm) as (Hne & _ & Hfree).
  destruct (searchText_term_field now_created now_updated i record term)
    as [H|H]; try done.
  - by eapply hasAllTerms_spec in Hall.
  - fold repo in H. congruence.
Qed.

Lemma score_positive_unless_full_name_only_witness :
  let repo := normalize Sample.now Sample.now 0 Sample.hello in
  let terms := search_terms "GO hello" in
  ((exists term, term ∈ terms /\ in_full_name repo term = false) -> 0 < 16)
  /\ (0 < 16 <-> exists term, term ∈ terms /\ in_scored_field repo term = true).
Proof.
  apply (score_positive_unless_full_name_only Sample.now Sample.now 0
           Sample.hello "GO hello" 16); reflexivity.
Defined.

(** ** Search and language filter, in either order *)

(** When the search of the whole array returns, the search of the
    language-filtered array returns too, and gives what the language
    filter keeps of the first result. *)
Lemma search_language_filter_commute
    (repositories : list ref) (searchTerm lang : string) (σ σ1 : store)
    (out1 : list ref) :
  searchTerm <> "" ->
  performAdvancedSearch repositories searchTerm σ = (σ1, Ok out1) ->
  exists σ2 out2,
    performAdvancedSearch
      (filter (fun r => language (σ r) = lang) repositories) searchTerm σ
    = (σ2, Ok out2)
    /\ out2 = filter (fun r => language (σ1 r) = lang) out1.
Proof.
  intros Hne H1. rewrite performAdvancedSearch_unfold in H1 |- * by done.
  set (terms := search_terms searchTerm) in *.
  destruct (filterM (search_callback terms) repositories σ)
    as [σ1' [kept1|e]] eqn:Hpass1; [|done].
  injection H1 as <- <-.
  pose proof (search_pass_frame terms repositories σ) as Hframe1.
  rewrite Hpass1 in Hframe1. simpl in Hframe1.
  apply search_pass_ok in Hpass1 as (Hkept1 & Hwritten1 & _).
  set (l' := filter (fun r => language (σ r) = lang) repositories).
  destruct (search_pass_total terms l' σ) as (σ2 & kept2 & Hpass2).
  { intros r [_ Hr]%list_elem_of_filter Hall.
    destruct (Hwritten1 r Hr Hall) as (s & Hs & _). eauto. }
  rewrite Hpass2. exists σ2. eexists. split; [done|].
  apply search_pass_ok in Hpass2 as (Hkept2 & Hwritten2 & _).
  set (cmp1 := fun a b : ref => searchScore_or_0 (σ1' b) - searchScore_or_0 (σ1' a)).
  transitivity (JS.sort cmp1 kept2).
  { apply sort_ext_in. intros a b Ha Hb.
    assert (forall r, r ∈ kept2 -> searchScore (σ2 r) = searchScore (σ1' r)) as Hsame.
    { intros r. rewrite Hkept2.
      intros [(Hall & _)%retained_spec Hr']%list_elem_of_filter.
      pose proof Hr' as [_ Hr]%list_elem_of_filter.
      destruct (Hwritten1 r Hr Hall) as (s1 & Hs1 & ->).
      destruct (Hwritten2 r Hr' Hall) as (s2 & Hs2 & ->).
      congruence. }
    unfold cmp1, searchScore_or_0. by rewrite !Hsame. }
  rewrite (filter_ext_in (fun r => language (σ1' r) = lang)
             (fun r => language (σ r) = lang))
    by (intros r _; destruct (Hframe1 r) as (_ & _ & _ & _ & _ & <- & _); done).
  rewrite (filter_sort cmp1)
    by (unfold before, cmp1; intros; lia).
  f_equal. rewrite Hkept2, Hkept1. unfold l'. rewrite !list_filter_filter.
  apply list_filter_iff. intros r. tauto.
Qed.

(** C8, evaluated at the failing input.  The loaded array is
    [[go-kit (Go, no owner), go-rs (Rust, owner octocat)]], the search
    term ["go"] and the selected language ["Rust"].  Searching first, as
    [updateFilteredRepositories] does, throws on [go-kit]; filtering by
    language first never shows [go-kit] to the search, which returns
    [[go-rs]]. *)
Theorem search_then_language_filter_throws_on_missing_owner :
  let objects := Sample.loaded Sample.kit_rs in
  let σ := store_of objects in
  name <$> objects = ["go-kit"; "go-rs"]
  /\ (bindM (performAdvancedSearch (refs_of objects) "go")
        (language_filter "Rust") σ).2 = Throw TypeError
  /\ (bindM (language_filter "Rust" (refs_of objects))
        (fun filtered => performAdvancedSearch filtered "go") σ).2 = Ok [1%nat]
  /\ (updateFilteredRepositories Sample.no_date Sample.no_collation
        (Sample.state_of objects "go" "Rust" "recent-likes") σ).2
     = Throw TypeError.
Proof. vm_compute. repeat split. Qed.

(** ** What the passes write *)

Section FrameFacts.
Variable Date_value : string -> option Z.
Variable localeCompare_base : string -> string -> Z.

Lemma frames_ret {A} (a : A) : frames (ret a).
Proof. by intros σ r. Qed.

Lemma frames_read {A} (f : store -> A) : frames (read f).
Proof. by intros σ r. Qed.

Lemma frames_bindM {A B} (m : M A) (k : A -> M B) :
  frames m -> (forall a, frames (k a)) -> frames (bindM m k).
Proof.
  intros Hm Hk σ r. unfold bindM. specialize (Hm σ r).
  destruct (m σ) as [σ1 [a|e]]; simpl in *; [|done].
  etrans; [exact Hm|]. apply Hk.
Qed.

Lemma frames_performAdvancedSearch repositories searchTerm :
  frames (performAdvancedSearch repositories searchTerm).
Proof.
  unfold performAdvancedSearch.
  destruct (truthy_str searchTerm); simpl; [|apply frames_ret].
  apply frames_bindM; [|intros; apply frames_read].
  intros σ r. apply search_pass_frame.
Qed.

Lemma frames_sortRepositories st :
  frames (sortRepositories Date_value localeCompare_base st).
Proof. apply frames_read. Qed.

Lemma frames_updateFilteredRepositories st :
  frames (updateFilteredRepositories Date_value localeCompare_base st).
Proof.
  unfold updateFilteredRepositories.
  apply frames_bindM;
    [destruct (truthy_str (searchTerm st));
       [apply frames_performAdvancedSearch|apply frames_ret]|].
  intros filtered. apply frames_bindM;
    [destruct (truthy_str (selectedLanguage st));
       [apply frames_read|apply frames_ret]|].
  intros filtered'. apply frames_sortRepositories.
Qed.

Lemma frames_setState st newState :
  frames (setState Date_value localeCompare_base st newState).
Proof.
  unfold setState. apply frames_bindM.
  - destruct (_ || _ || _);
      [apply frames_updateFilteredRepositories|apply frames_ret].
  - intros st'. destruct (is_Some_bool (new_sortBy newState));
      [apply frames_sortRepositories|apply frames_ret].
Qed.

End FrameFacts.

(** C9, refuted as stated.  The working set is [[foo, bar]].  A search
    for ["foo"] stores the score 10 in [foo] and nothing in [bar]; the
    next search, for ["bar"], stores 10 in [bar] and does not touch
    [foo], whose [searchText] does not contain ["bar"]: [foo] keeps the
    score of the earlier search, although its score for ["bar"] is 0. *)
Lemma stale_searchScore_counterexample :
  let objects := Sample.loaded Sample.foo_bar in
  let σ := store_of objects in
  let σ1 := (performAdvancedSearch (refs_of objects) "foo" σ).1 in
  let σ2 := (performAdvancedSearch (refs_of objects) "bar" σ1).1 in
  name <$> objects = ["foo"; "bar"]
  /\ (performAdvancedSearch (refs_of objects) "foo" σ).2 = Ok [0%nat]
  /\ searchScore (σ1 0%nat) = Some 10
  /\ searchScore (σ1 1%nat) = None
  /\ (performAdvancedSearch (refs_of objects) "bar" σ1).2 = Ok [1%nat]
  /\ searchScore (σ2 0%nat) = Some 10
  /\ hasAllTerms (searchText (σ1 0%nat)) (search_terms "bar") = false
  /\ score_terms (σ1 0%nat) 0 (search_terms "bar") = Ok 0.
Proof. vm_compute. repeat split. Qed.

(** C9, amended.  A search pass, returning or throwing, leaves every
    field other than [searchScore] of every repository unchanged, and so
    does any [setState], which runs the search, the language filter and
    the sort; the language filter and the sort write nothing at all.  A
    search pass that returns has overwritten [searchScore], with the
    score for the current search term, in exactly the repositories of
    the searched array whose [searchText] contains every term; every
    other repository is left as it was, with the [searchScore] of an
    earlier search if it had one. *)
Theorem search_filter_sort_frame
    (Date_value : string -> option Z) (localeCompare_base : string -> string -> Z)
    (repositories : list ref) (searchTerm : string) (σ σ' : store)
    (res : result (list ref)) :
  performAdvancedSearch repositories searchTerm σ = (σ', res) ->
  (forall r, same_fields (σ r) (σ' r))
  /\ (forall lang filtered, (language_filter lang filtered σ').1 = σ')
  /\ (forall st, (sortRepositories Date_value localeCompare_base st σ').1 = σ')
  /\ (forall st newState r,
        same_fields (σ r)
          ((setState Date_value localeCompare_base st newState σ).1 r))
  /\ (forall out, res = Ok out -> searchTerm <> "" ->
        forall r,
          (r ∈ repositories
           /\ hasAllTerms (searchText (σ r)) (search_terms searchTerm) = true ->
           exists score,
             score_terms (σ r) 0 (search_terms searchTerm) = Ok score
             /\ searchScore (σ' r) = Some score)
          /\ (~ (r ∈ repositories
                 /\ hasAllTerms (searchText (σ r)) (search_terms searchTerm) = true) ->
              σ' r = σ r)).
Proof.
  intros Hsearch. split; [|split; [done|split; [done|split]]].
  - intros r. pose proof (frames_performAdvancedSearch repositories searchTerm σ r) as H.
    by rewrite Hsearch in H.
  - intros st newState r. apply frames_setState.
  - intros out -> Hne r.
    rewrite performAdvancedSearch_unfold in Hsearch by done.
    destruct (filterM _ repositories σ) as [σ1 [kept|e]] eqn:Hpass; [|done].
    injection Hsearch as <- _.
    apply search_pass_ok in Hpass as (_ & Hwritten & Hother).
    split; [intros [? ?]; by apply Hwritten|apply Hother].
Qed.

Lemma search_filter_sort_frame_witness :
  let objects := Sample.loaded Sample.foo_bar in
  let repositories := refs_of objects in
  let σ := store_of objects in
  let σ' := (performAdvancedSearch repositories "foo" σ).1 in
  (forall r, same_fields (σ r) (σ' r))
  /\ (forall lang filtered, (language_filter lang filtered σ').1 = σ')
  /\ (forall st, (sortRepositories Sample.no_date Sample.no_collation st σ').1 = σ')
  /\ (forall st newState r,
        same_fields (σ r)
          ((setState Sample.no_date Sample.no_collation st newState σ).1 r))
  /\ (forall out, Ok [0%nat] = Ok out -> "foo" <> "" ->
        forall r,
          (r ∈ repositories
           /\ hasAllTerms (searchText (σ r)) (search_terms "foo") = true ->
           exists score,
             score_terms (σ r) 0 (search_terms "foo") = Ok score
             /\ searchScore (σ' r) = Some score)
          /\ (~ (r ∈ repositories
                 /\ hasAllTerms (searchText (σ r)) (search_terms "foo") = true) ->
              σ' r = σ r)).
Proof.
  apply (search_filter_sort_frame Sample.no_date Sample.no_collation
           (refs_of (Sample.loaded Sample.foo_bar)) "foo"
           (store_of (Sample.loaded Sample.foo_bar))).
  reflexivity.
Defined.

(** ** Sorting by the selected key *)

Lemma StronglySorted_impl_in {A} (R R' : A -> A -> Prop) l :
  (forall a b, a ∈ l -> b ∈ l -> R a b -> R' a b) ->
  StronglySorted R l -> StronglySorted R' l.
Proof.
  intros HR Hl. induction Hl as [|x l Hl IH Hx]; constructor.
  - apply IH. intros a b Ha Hb. apply HR; by right.
  - apply Forall_forall. intros y Hy. apply HR; [by left|by right|].
    by eapply Forall_forall in Hx.
Qed.

(** Sorting with a comparator that agrees, on the array, with a
    consistent comparator whose order is [R]: the result is a
    rearrangement of the array, in the order [R], and the elements tied
    with a given one keep their relative order. *)
Lemma sort_by_spec {A} (cmp cmp' : A -> A -> Z) (R : A -> A -> Prop)
    `{!forall a b, Decision (R a b)} (l : list A) :
  (forall a b, a ∈ l -> b ∈ l -> cmp a b = cmp' a b) ->
  (forall a b, before cmp' a b \/ before cmp' b a) ->
  (forall a b c, before cmp' a b -> before cmp' b c -> before cmp' a c) ->
  (forall a b, a ∈ l -> b ∈ l -> (before cmp' a b <-> R a b)) ->
  JS.sort cmp l ≡ₚ l
  /\ StronglySorted R (JS.sort cmp l)
  /\ (forall x, x ∈ l ->
        filter (fun y => R x y /\ R y x) (JS.sort cmp l)
        = filter (fun y => R x y /\ R y x) l).
Proof.
  intros Hagree Htotal Htrans HR. rewrite (sort_ext_in cmp cmp') by done.
  split; [apply sort_perm|]. split.
  - eapply StronglySorted_impl_in; [|by apply sort_sorted].
    intros a b Ha%sort_elem_of Hb%sort_elem_of. by apply HR.
  - intros x Hx.
    rewrite (filter_ext_in _ (fun y => before cmp' x y /\ before cmp' y x)
               (JS.sort cmp' l))
      by (intros y Hy%sort_elem_of; by rewrite !HR).
    rewrite (filter_ext_in (fun y => R x y /\ R y x)
               (fun y => before cmp' x y /\ before cmp' y x) l)
      by (intros y Hy; by rewrite !HR).
    apply sort_stable; [done..|].
    intros a b [_ Ha] [Hb _]. by eapply Htrans.
Qed.

Section SortKeyFacts.
Variable Date_value : string -> option Z.
Variable localeCompare_base : string -> string -> Z.

Hypothesis collation_total :
  forall a b, localeCompare_base a b <= 0 \/ localeCompare_base b a <= 0.
Hypothesis collation_trans :
  forall a b c, localeCompare_base a b <= 0 -> localeCompare_base b c <= 0 ->
                localeCompare_base a c <= 0.
Hypothesis collation_base :
  forall a b, localeCompare_base (toLowerCase a) (toLowerCase b)
              = localeCompare_base a b.

Local Abbreviation cmp_of := (comparison Date_value localeCompare_base).
Local Abbreviation order_of := (spec_order Date_value localeCompare_base).
Local Abbreviation dated_for := (dated Date_value).

Lemma date_difference_valid x y :
  is_Some (Date_value x) -> is_Some (Date_value y) ->
  date_difference Date_value y x = time Date_value y - time Date_value x
  /\ (time Date_value y - time Date_value x <= 0 <-> not_earlier Date_value x y).
Proof.
  unfold date_difference, not_earlier, time.
  intros [tx ->] [ty ->]. simpl. split; [done|lia].
Qed.

(** On repositories whose timestamps are valid, the comparator of the
    code agrees with a consistent comparator whose order is the one of
    the specification. *)
Lemma comparison_consistent sortBy :
  exists cmp' : Repository -> Repository -> Z,
    (forall a b, dated_for sortBy a -> dated_for sortBy b ->
       cmp_of sortBy a b = cmp' a b)
    /\ (forall a b, before cmp' a b \/ before cmp' b a)
    /\ (forall a b c, before cmp' a b -> before cmp' b c -> before cmp' a c)
    /\ (forall a b, dated_for sortBy a -> dated_for sortBy b ->
          (before cmp' a b <-> order_of sortBy a b)).
Proof.
  unfold comparison, spec_order, dated.
  destruct (String.eqb_spec sortBy "stars") as [->|?].
  { exists (fun a b => stargazers_count b - stargazers_count a).
    unfold before. simpl. repeat split; intros; lia. }
  destruct (String.eqb_spec sortBy "recent-likes") as [->|?].
  { exists (fun a b => originalIndex a - originalIndex b).
    unfold before. simpl. setoid_rewrite num_or_0_id.
    repeat split; intros; lia. }
  destruct (String.eqb_spec sortBy "stars-asc") as [->|?].
  { exists (fun a b => stargazers_count a - stargazers_count b).
    unfold before. simpl. repeat split; intros; lia. }
  destruct (String.eqb_spec sortBy "name") as [->|?].
  { exists (fun a b => localeCompare_base (name a) (name b)).
    unfold before. simpl. setoid_rewrite collation_base.
    repeat split; intros; eauto. }
  destruct (String.eqb_spec sortBy "name-desc") as [->|?].
  { exists (fun a b => localeCompare_base (name b) (name a)).
    unfold before. simpl. setoid_rewrite collation_base.
    repeat split; intros; eauto. }
  destruct (String.eqb_spec sortBy "updated") as [->|?].
  { exists (fun a b => time Date_value (updated_at b) - time Date_value (updated_at a)).
    unfold before. simpl. split; [|split; [|split]]; try (intros; lia).
    - intros a b [Ha _] [Hb _].
      by apply date_difference_valid; [apply Ha|apply Hb].
    - intros a b [Ha _] [Hb _].
      by apply date_difference_valid; [apply Ha|apply Hb]. }
  destruct (String.eqb_spec sortBy "created") as [->|?].
  { exists (fun a b => time Date_value (created_at b) - time Date_value (created_at a)).
    unfold before. simpl. split; [|split; [|split]]; try (intros; lia).
    - intros a b [_ Ha] [_ Hb].
      by apply date_difference_valid; [apply Ha|apply Hb].
    - intros a b [_ Ha] [_ Hb].
      by apply date_difference_valid; [apply Ha|apply Hb]. }
  exists (fun a b => stargazers_count b - stargazers_count a).
  unfold before. repeat split; intros; lia.
Qed.

(** Every key outside the seven of the table selects the comparator of
    ['stars']. *)
Lemma comparison_fallback sortBy a b :
  sortBy ∉ sort_keys -> cmp_of sortBy a b = cmp_of "stars" a b.
Proof.
  intros Hkey. unfold comparison.
  repeat match goal with
         | |- context [String.eqb sortBy ?k] =>
             destruct (String.eqb_spec sortBy k) as [->|?];
             [exfalso; apply Hkey; unfold sort_keys;
              repeat (apply elem_of_cons; (by left) || right)|]
         end.
  done.
Qed.

End SortKeyFacts.

(** C4, refuted as stated.  A timestamp that is no date is kept by
    [processRepositoryData], which only replaces a falsy one.  With the
    repositories [a], [bad] and [b], updated in 2024, at ["garbage"] and
    in 2026, every comparison with [bad] is [NaN], which the sort reads
    as [+0]: sorted by ['updated'], and by ['created'], the list stays
    as it is, [a] before [b], and is not in descending order of the
    timestamps. *)
Lemma invalid_date_counterexample :
  let objects := Sample.loaded Sample.garbage_date in
  let σ := store_of objects in
  let sorted key :=
    Sample.filtered_names σ
      (sortRepositories Sample.date_value Sample.collation
         (Sample.state_of objects "" "" key) σ) in
  processRepositoryData Sample.now Sample.now Sample.garbage_date
  = Ok (objects, ∅)
  /\ (fun r => (name r, updated_at r, created_at r)) <$> objects
     = [ ("a", "2024-01-01T00:00:00Z", "2024-01-01T00:00:00Z");
         ("bad", "garbage", "garbage");
         ("b", "2026-01-01T00:00:00.000Z", "2026-01-01T00:00:00.000Z") ]
  /\ Sample.date_value <$> (updated_at <$> objects)
     = [Some 1704067200000; None; Some 1767225600000]
  /\ sorted "updated" = ["a"; "bad"; "b"]
  /\ sorted "created" = ["a"; "bad"; "b"]
  /\ ~ spec_order Sample.date_value Sample.collation "updated"
        (σ 0%nat) (σ 2%nat)
  /\ ~ spec_order Sample.date_value Sample.collation "created"
        (σ 0%nat) (σ 2%nat).
Proof.
  vm_compute. repeat split; try done; intros H; by apply H.
Qed.

(** C4, amended.  With a collation that is a consistent comparison and
    ignores case, and valid dates in the timestamps a date key reads,
    [sortRepositories] returns, writes no object and replaces
    [state.filteredRepositories] by a rearrangement of it that is in the
    order the specification gives for the key: ['recent-likes']
    ascending by [originalIndex], ['stars'] descending and ['stars-asc']
    ascending by [stargazers_count], ['name'] ascending and
    ['name-desc'] descending by the case-folded [name], ['updated'] and
    ['created'] descending by the time value of the timestamp; the
    repositories tied with a given one keep their relative order; and a
    key outside the seven sorts exactly as ['stars'] does. *)
Theorem sortRepositories_ordering
    (Date_value : string -> option Z) (localeCompare_base : string -> string -> Z)
    (st : State) (σ : store) :
  (forall a b, localeCompare_base a b <= 0 \/ localeCompare_base b a <= 0) ->
  (forall a b c, localeCompare_base a b <= 0 -> localeCompare_base b c <= 0 ->
                 localeCompare_base a c <= 0) ->
  (forall a b, localeCompare_base (toLowerCase a) (toLowerCase b)
               = localeCompare_base a b) ->
  (forall r, r ∈ filteredRepositories st -> dated Date_value (sortBy st) (σ r)) ->
  exists sorted,
    sortRepositories Date_value localeCompare_base st σ
    = (σ, Ok (with_filteredRepositories st sorted))
    /\ sorted ≡ₚ filteredRepositories st
    /\ StronglySorted
         (fun a b => spec_order Date_value localeCompare_base (sortBy st) (σ a) (σ b))
         sorted
    /\ (forall x, x ∈ filteredRepositories st ->
          filter (fun y =>
                    spec_order Date_value localeCompare_base (sortBy st) (σ x) (σ y)
                    /\ spec_order Date_value localeCompare_base (sortBy st) (σ y) (σ x))
            sorted
          = filter (fun y =>
                      spec_order Date_value localeCompare_base (sortBy st) (σ x) (σ y)
                      /\ spec_order Date_value localeCompare_base (sortBy st) (σ y) (σ x))
              (filteredRepositories st))
    /\ (sortBy st ∉ sort_keys ->
          sorted
          = JS.sort (fun a b => comparison Date_value localeCompare_base "stars"
                                  (σ a) (σ b))
              (filteredRepositories st)).
Proof.
  intros Htotal Htrans Hbase Hdated.
  eexists. split; [reflexivity|].
  destruct (comparison_consistent Date_value localeCompare_base
              Htotal Htrans Hbase (sortBy st))
    as (cmp' & Hagree & Hcmp_total & Hcmp_trans & Horder).
  destruct (sort_by_spec
              (fun a b => comparison Date_value localeCompare_base (sortBy st)
                            (σ a) (σ b))
              (fun a b => cmp' (σ a) (σ b))
              (fun a b => spec_order Date_value localeCompare_base (sortBy st)
                            (σ a) (σ b))
              (filteredRepositories st))
    as (Hperm & Hsorted & Hstable).
  - intros a b Ha Hb. apply Hagree; by apply Hdated.
  - intros a b. apply Hcmp_total.
  - intros a b c. apply Hcmp_trans.
  - intros a b Ha Hb. apply Horder; by apply Hdated.
  - repeat split; try done.
    intros Hkey. apply sort_ext_in. intros a b _ _.
    by apply comparison_fallback.
Qed.

(** The sample collation is a consistent comparison that ignores case. *)
Lemma collation_before a b :
  Sample.collation a b <= 0 <-> String.le (toLowerCase a) (toLowerCase b).
Proof.
  unfold Sample.collation, String.le.
  destruct (String.leb (toLowerCase a) (toLowerCase b)),
    (String.leb (toLowerCase b) (toLowerCase a)); simpl; split; done || lia.
Qed.

Lemma collation_total a b :
  Sample.collation a b <= 0 \/ Sample.collation b a <= 0.
Proof. rewrite !collation_before. apply (total String.le). Qed.

Lemma collation_trans a b c :
  Sample.collation a b <= 0 -> Sample.collation b c <= 0 ->
  Sample.collation a c <= 0.
Proof. rewrite !collation_before. apply (transitivity (R := String.le)). Qed.

Lemma toLowerCase_idempotent s : toLowerCase (toLowerCase s) = toLowerCase s.
Proof. apply all_chars_lower_fixed, toLowerCase_all_chars. Qed.

Lemma collation_base a b :
  Sample.collation (toLowerCase a) (toLowerCase b) = Sample.collation a b.
Proof. unfold Sample.collation. by rewrite !toLowerCase_idempotent. Qed.

Lemma sortRepositories_ordering_witness :
  let objects := Sample.loaded Sample.fruits in
  let σ := store_of objects in
  let st := Sample.state_of objects "" "" "name" in
  exists sorted,
    sortRepositories Sample.date_value Sample.collation st σ
    = (σ, Ok (with_filteredRepositories st sorted))
    /\ sorted ≡ₚ filteredRepositories st
    /\ StronglySorted
         (fun a b => spec_order Sample.date_value Sample.collation (sortBy st) (σ a) (σ b))
         sorted
    /\ (forall x, x ∈ filteredRepositories st ->
          filter (fun y =>
                    spec_order Sample.date_value Sample.collation (sortBy st) (σ x) (σ y)
                    /\ spec_order Sample.date_value Sample.collation (sortBy st) (σ y) (σ x))
            sorted
          = filter (fun y =>
                      spec_order Sample.date_value Sample.collation (sortBy st) (σ x) (σ y)
                      /\ spec_order Sample.date_value Sample.collation (sortBy st) (σ y) (σ x))
              (filteredRepositories st))
    /\ (sortBy st ∉ sort_keys ->
          sorted
          = JS.sort (fun a b => comparison Sample.date_value Sample.collation "stars"
                                  (σ a) (σ b))
              (filteredRepositories st)).
Proof.
  apply (sortRepositories_ordering Sample.date_value Sample.collation
           (Sample.state_of (Sample.loaded Sample.fruits) "" "" "name")
           (store_of (Sample.loaded Sample.fruits))).
  - apply collation_total.
  - apply collation_trans.
  - apply collation_base.
  - intros r _. split; discriminate.
Defined.

(** The two sorts of the specification's examples, and the others. *)
Example sort_fruits :
  let objects := Sample.loaded Sample.fruits in
  let σ := store_of objects in
  let sorted key :=
    Sample.filtered_names σ
      (sortRepositories Sample.date_value Sample.collation
         (Sample.state_of objects "" "" key) σ) in
  (fun r => (name r, stargazers_count r, originalIndex r)) <$> objects
  = [("Apple", 50, 1); ("banana", 10, 0); ("cherry", 5, 2)]
  /\ sorted "stars" = ["Apple"; "banana"; "cherry"]
  /\ sorted "stars-asc" = ["cherry"; "banana"; "Apple"]
  /\ sorted "recent-likes" = ["banana"; "Apple"; "cherry"]
  /\ sorted "name" = ["Apple"; "banana"; "cherry"]
  /\ sorted "name-desc" = ["cherry"; "banana"; "Apple"]
  /\ sorted "forks" = sorted "stars".
Proof. vm_compute. repeat split. Qed.

Example sort_old_new :
  let objects := Sample.loaded Sample.old_new in
  let σ := store_of objects in
  let sorted key :=
    Sample.filtered_names σ
      (sortRepositories Sample.date_value Sample.collation
         (Sample.state_of objects "" "" key) σ) in
  name <$> objects = ["old"; "new"]
  /\ sorted "updated" = ["new"; "old"]
  /\ sorted "created" = ["new"; "old"].
Proof. vm_compute. repeat split. Qed.

(** ** Grouping by language *)

Section GroupFacts.

Lemma StronglySorted_filter {A} (R : A -> A -> Prop) (P : A -> Prop)
    `{!forall x, Decision (P x)} l :
  StronglySorted R l -> StronglySorted R (filter P l).
Proof.
  induction 1 as [|x l Hl IH Hx]; [constructor|].
  rewrite filter_cons. destruct (decide (P x)); [|done].
  constructor; [done|]. apply Forall_forall.
  intros y [_ Hy]%list_elem_of_filter. by eapply Forall_forall in Hx.
Qed.

Lemma StronglySorted_lookup {A} (R : A -> A -> Prop) l i j a b :
  StronglySorted R l -> (i < j)%nat ->
  l !! i = Some a -> l !! j = Some b -> R a b.
Proof.
  intros Hl. revert i j. induction Hl as [|x l Hl IH Hx]; intros i j Hij Hi Hj.
  { by rewrite lookup_nil in Hi. }
  destruct j as [|j]; [lia|]. destruct i as [|i]; simplify_eq/=.
  - eapply Forall_forall in Hx; [exact Hx|]. by eapply list_elem_of_lookup_2.
  - eapply (IH i j); [lia|done..].
Qed.


Lemma filter_all {A} (P : A -> Prop) `{!forall x, Decision (P x)} (l : list A) :
  (forall x, x ∈ l -> P x) -> filter P l = l.
Proof.
  induction l as [|x l IH]; intros Hl; [done|].
  rewrite filter_cons, decide_True by (apply Hl; by left).
  f_equal. apply IH. intros y Hy. apply Hl. by right.
Qed.

Lemma filter_none {A} (P : A -> Prop) `{!forall x, Decision (P x)} (l : list A) :
  (forall x, x ∈ l -> ~ P x) -> filter P l = [].
Proof.
  induction l as [|x l IH]; intros Hl; [done|].
  rewrite filter_cons, decide_False by (apply Hl; by left).
  apply IH. intros y Hy. apply Hl. by right.
Qed.

(** The enumeration order lists the array indices first, in ascending
    order, and then the other names in creation order. *)
Lemma own_property_order_split {V} (created : list (string * V)) :
  let indexed := filter (fun kv => is_Some (array_index kv.1))
                   (own_property_order created) in
  let named := filter (fun kv => array_index kv.1 = None)
                 (own_property_order created) in
  own_property_order created = (indexed ++ named)%list
  /\ indexed = JS.sort (fun a b => index_key a - index_key b)
                 (filter (fun kv => is_Some (array_index kv.1)) created)
  /\ named = filter (fun kv => array_index kv.1 = None) created.
Proof.
  unfold own_property_order. rewrite !filter_app.
  set (cmp := fun a b : string * V => index_key a - index_key b).
  set (I := filter (fun kv => is_Some (array_index kv.1)) created).
  set (N := filter (fun kv => array_index kv.1 = None) created).
  assert (filter (fun kv => is_Some (array_index kv.1)) (JS.sort cmp I)
          = JS.sort cmp I) as ->.
  { apply filter_all. intros kv Hkv%sort_elem_of.
    by apply list_elem_of_filter in Hkv as [? _]. }
  assert (filter (fun kv => is_Some (array_index kv.1)) N = []) as ->.
  { apply filter_none. intros kv [Hkv _]%list_elem_of_filter [n Hn]. congruence. }
  assert (filter (fun kv => array_index kv.1 = None) (JS.sort cmp I) = []) as ->.
  { apply filter_none. intros kv Hkv%sort_elem_of.
    apply list_elem_of_filter in Hkv as [[n Hn] _]. congruence. }
  assert (filter (fun kv => array_index kv.1 = None) N = N) as ->.
  { apply filter_all. intros kv Hkv. by apply list_elem_of_filter in Hkv as [? _]. }
  by rewrite app_nil_r.
Qed.

Lemma own_property_order_elem_of {V} (created : list (string * V)) kv :
  kv ∈ own_property_order created <-> kv ∈ created.
Proof.
  unfold own_property_order.
  rewrite elem_of_app, sort_elem_of, !list_elem_of_filter.
  destruct (array_index kv.1) eqn:E; split.
  - intros [[_ ?]|[? _]]; done.
  - intros ?. left. split; [by eexists|done].
  - intros [[[? ?] _]|[_ ?]]; done.
  - intros ?. by right.
Qed.

(** No group is created under a name inherited from
    [Object.prototype]. *)
Lemma push_own_keys grouped language repo grouped' :
  push_own grouped language repo = Some grouped' -> grouped'.*1 = grouped.*1.
Proof.
  revert grouped'. induction grouped as [|[k repos] rest IH]; intros grouped';
    simpl; [done|].
  destruct (decide (k = language)); [by intros [= <-]|].
  destruct (push_own rest language repo) as [rest'|]; [|done].
  intros [= <-]. simpl. f_equal. by apply IH.
Qed.

Lemma group_add_keys σ grouped repo grouped' :
  group_add σ grouped repo = Ok grouped' ->
  Forall (fun k => inherited k = false) grouped.*1 ->
  Forall (fun k => inherited k = false) grouped'.*1.
Proof.
  unfold group_add.
  set (lang := if truthy_str (language (σ repo)) then _ else _).
  destruct (push_own grouped lang repo) as [g|] eqn:E.
  - intros [= <-]. by rewrite (push_own_keys _ _ _ _ E).
  - destruct (inherited lang) eqn:Hl; [done|]. intros [= <-] Hg.
    rewrite fmap_app. apply Forall_app. split; [done|]. by repeat constructor.
Qed.

Lemma group_all_keys σ repositories grouped grouped' :
  group_all σ grouped repositories = Ok grouped' ->
  Forall (fun k => inherited k = false) grouped.*1 ->
  Forall (fun k => inherited k = false) grouped'.*1.
Proof.
  revert grouped. induction repositories as [|repo rest IH]; intros grouped; simpl.
  - by intros [= <-].
  - destruct (group_add σ grouped repo) as [g|] eqn:E; [|done].
    intros Hrest Hg. eapply IH; [done|]. by eapply group_add_keys.
Qed.

(** On names that are not inherited, the comparator of the ['recently']
    mode subtracts positions. *)
Lemma position_difference_own languageOrder langA langB :
  inherited langA = false -> inherited langB = false ->
  position_difference languageOrder langA langB
  = position languageOrder langA - position languageOrder langB.
Proof.
  unfold position_difference, language_position, position. intros -> ->.
  by destruct (languageOrder !! langA), (languageOrder !! langB).
Qed.

End GroupFacts.

(** ** What the groups hold *)

Lemma own_property_order_perm {V} (created : list (string * V)) :
  own_property_order created ≡ₚ created.
Proof.
  unfold own_property_order. rewrite sort_perm.
  induction created as [|kv l IH]; [done|].
  rewrite !filter_cons.
  destruct (decide (is_Some (array_index kv.1))) as [Hi|Hi],
    (decide (array_index kv.1 = None)) as [Hn|Hn]; simpl.
  - destruct Hi as [n Hi]. congruence.
  - by rewrite IH.
  - rewrite <- Permutation_middle. by rewrite IH.
  - destruct (array_index kv.1); [exfalso; apply Hi; by eexists|done].
Qed.

Section GroupContents.
Variable σ : store.

Lemma push_own_None grouped lang repo :
  push_own grouped lang repo = None <-> lang ∉ grouped.*1.
Proof.
  induction grouped as [|[k rs] rest IH]; simpl.
  - split; [intros _ []%elem_of_nil|done].
  - destruct (decide (k = lang)) as [->|Hne].
    + split; [done|]. intros []. by left.
    + rewrite not_elem_of_cons, <- IH.
      destruct (push_own rest lang repo); simpl; split; try done.
      by intros [_ ?].
Qed.

Lemma push_own_Some grouped lang repo grouped' :
  push_own grouped lang repo = Some grouped' ->
  NoDup grouped.*1 ->
  forall k rs,
    (k, rs) ∈ grouped' <->
    (k <> lang /\ (k, rs) ∈ grouped)
    \/ (k = lang /\ exists rs0, (lang, rs0) ∈ grouped /\ rs = (rs0 ++ [repo])%list).
Proof.
  revert grouped'. induction grouped as [|[k0 rs0] rest IH]; intros grouped';
    simpl; [done|].
  intros Hpush [Hk0 Hrest]%NoDup_cons k rs.
  assert (forall rs', (lang, rs') ∈ rest -> lang ∈ rest.*1) as Hkey.
  { intros rs' Hin. apply list_elem_of_fmap. by exists (lang, rs'). }
  destruct (decide (k0 = lang)) as [->|Hne].
  - injection Hpush as <-. rewrite !elem_of_cons. split.
    + intros [Heq|Hin].
      * simplify_eq. right. split; [done|]. exists rs0. split; [by left|done].
      * left. split; [|by right]. intros ->. eauto.
    + intros [[Hk [Heq|Hin]]|[-> (rs1 & Hin & ->)]].
      * simplify_eq.
      * by right.
      * apply elem_of_cons in Hin as [Heq|Hin]; [simplify_eq; by left|].
        exfalso. eauto.
  - destruct (push_own rest lang repo) as [rest'|] eqn:E; [|done].
    injection Hpush as <-. rewrite !elem_of_cons, (IH _ eq_refl Hrest).
    split.
    + intros [Heq|[[? ?]|[-> (rs1 & ? & ->)]]].
      * simplify_eq. left. split; [done|by left].
      * left. split; [done|by right].
      * right. split; [done|]. exists rs1. split; [by right|done].
    + intros [[Hk [Heq|Hin]]|[-> (rs1 & Hin & ->)]].
      * by left.
      * right. left. by split.
      * apply elem_of_cons in Hin as [Heq|Hin]; [simplify_eq|].
        right. right. split; [done|]. by exists rs1.
Qed.

Lemma filter_snoc {A} (P : A -> Prop) `{!forall x, Decision (P x)} l x :
  filter P (l ++ [x])%list = (filter P l ++ if decide (P x) then [x] else [])%list.
Proof.
  rewrite filter_app, filter_cons, filter_nil. by destruct (decide (P x)).
Qed.

(** One more repository, and the groups still file what was processed. *)
Lemma group_add_files processed grouped repo grouped' :
  group_add σ grouped repo = Ok grouped' ->
  files σ processed grouped ->
  files σ (processed ++ [repo])%list grouped'.
Proof.
  unfold group_add. fold (group_language σ repo).
  set (lang := group_language σ repo).
  intros Hadd (Hnodup & Hfiled & Hcover).
  destruct (push_own grouped lang repo) as [g|] eqn:Hpush.
  - injection Hadd as <-.
    pose proof (push_own_keys _ _ _ _ Hpush) as Hkeys.
    pose proof (push_own_Some _ _ _ _ Hpush Hnodup) as Hmem.
    assert (lang ∈ grouped.*1) as Hlang.
    { destruct (decide (lang ∈ grouped.*1)) as [|Hn]; [done|].
      apply (proj2 (push_own_None grouped lang repo)) in Hn. congruence. }
    split; [by rewrite Hkeys|]. split.
    + intros k rs [[Hk Hin]|[-> (rs0 & Hin & ->)]]%Hmem.
      * destruct (Hfiled k rs Hin) as [Hne ->]. split; [done|].
        rewrite filter_snoc, decide_False by (by intros ?).
        by rewrite app_nil_r.
      * destruct (Hfiled lang rs0 Hin) as [Hne ->]. split.
        { intros [? _]%app_eq_nil. done. }
        by rewrite filter_snoc, decide_True.
    + intros r [Hr| ->%list_elem_of_singleton]%elem_of_app; rewrite Hkeys; eauto.
  - apply (proj1 (push_own_None grouped lang repo)) in Hpush.
    destruct (inherited lang); [done|]. injection Hadd as <-.
    split; [|split].
    + rewrite fmap_app. simpl. apply NoDup_app. split; [done|].
      split; [|apply NoDup_singleton].
      intros k Hk ->%list_elem_of_singleton. done.
    + intros k rs [Hin|[= -> ->]%list_elem_of_singleton]%elem_of_app.
      * destruct (Hfiled k rs Hin) as [Hne ->]. split; [done|].
        rewrite filter_snoc, decide_False; [by rewrite app_nil_r|].
        intros Heq. apply Hpush. fold lang in Heq. rewrite Heq.
        apply list_elem_of_fmap. by eexists (k, _).
      * split; [done|]. rewrite filter_snoc, decide_True by done.
        rewrite filter_none; [done|]. intros r Hr Heq.
        apply Hpush. rewrite <- Heq. by apply Hcover.
    + intros r [Hr| ->%list_elem_of_singleton]%elem_of_app;
        rewrite fmap_app, elem_of_app; [left; eauto|right; by left].
Qed.

Lemma group_all_files rest processed grouped grouped' :
  group_all σ grouped rest = Ok grouped' ->
  files σ processed grouped ->
  files σ (processed ++ rest)%list grouped'.
Proof.
  revert processed grouped. induction rest as [|repo rest IH];
    intros processed grouped; simpl.
  - intros [= <-]. by rewrite app_nil_r.
  - destruct (group_add σ grouped repo) as [g|] eqn:Hadd; [|done].
    intros Hrest Hfiles.
    replace (processed ++ repo :: rest)%list
      with ((processed ++ [repo]) ++ rest)%list by (by rewrite <- app_assoc).
    eapply IH; [done|]. by eapply group_add_files.
Qed.

Lemma push_own_concat grouped lang repo grouped' :
  push_own grouped lang repo = Some grouped' ->
  concat grouped'.*2 ≡ₚ (concat grouped.*2 ++ [repo])%list.
Proof.
  revert grouped'. induction grouped as [|[k rs] rest IH]; intros grouped';
    simpl; [done|].
  destruct (decide (k = lang)) as [->|Hne].
  - intros [= <-]. simpl. rewrite <- !app_assoc.
    apply Permutation_app_head, Permutation_app_comm.
  - destruct (push_own rest lang repo) as [rest'|]; [|done].
    intros [= <-]. simpl. rewrite (IH _ eq_refl). by rewrite app_assoc.
Qed.

Lemma group_all_concat rest grouped grouped' :
  group_all σ grouped rest = Ok grouped' ->
  concat grouped'.*2 ≡ₚ (concat grouped.*2 ++ rest)%list.
Proof.
  revert grouped. induction rest as [|repo rest IH]; intros grouped; simpl.
  - intros [= <-]. by rewrite app_nil_r.
  - unfold group_add.
    destruct (push_own grouped (if truthy_str (language (σ repo)) then _ else _)
                repo) as [g|] eqn:Hpush.
    + intros ->%IH. rewrite (push_own_concat _ _ _ _ Hpush).
      by rewrite <- app_assoc.
    + destruct (inherited _); [done|]. intros ->%IH.
      rewrite fmap_app, concat_app. simpl. by rewrite <- app_assoc.
Qed.

(** The grouping throws exactly when it meets a repository filed under
    a name inherited from [Object.prototype]. *)
Lemma group_all_throws rest grouped :
  Forall (fun k => inherited k = false) grouped.*1 ->
  group_all σ grouped rest = Throw TypeError
  <-> exists r, r ∈ rest /\ inherited (group_language σ r) = true.
Proof.
  revert grouped. induction rest as [|repo rest IH]; intros grouped Hkeys; simpl.
  - split; [done|]. by intros (r & ?%elem_of_nil & _).
  - destruct (group_add σ grouped repo) as [g|[]] eqn:Hadd.
    + rewrite IH by (by eapply group_add_keys).
      assert (inherited (group_language σ repo) = false) as Hrepo.
      { revert Hadd. unfold group_add. fold (group_language σ repo).
        destruct (push_own grouped (group_language σ repo) repo) eqn:Hpush.
        - intros _.
          destruct (decide (group_language σ repo ∈ grouped.*1)) as [Hin|Hn].
          + by eapply Forall_forall in Hkeys.
          + apply (proj2 (push_own_None grouped _ repo)) in Hn. congruence.
        - by destruct (inherited (group_language σ repo)). }
      split.
      * intros (r & Hr & Hi). exists r. split; [by right|done].
      * intros (r & [->|Hr]%elem_of_cons & Hi); [congruence|eauto].
    + split; [|done]. intros _. exists repo. split; [by left|].
      revert Hadd. unfold group_add. fold (group_language σ repo).
      destruct (push_own grouped (group_language σ repo) repo); [done|].
      by destruct (inherited (group_language σ repo)).
Qed.

End GroupContents.

(** C7, refuted as stated.  The payload has the language keys [L0] to
    [L999] and then [Late], so [Late] is present in [languageOrder], at
    position 1000, and [Unknown], the language given to the repository
    without one, is absent from it.  In the ['recently'] mode the group
    [Unknown], at the sentinel position 999, is placed before the group
    [Late]. *)
Lemma recently_sentinel_counterexample :
  let objects := Sample.loaded Sample.many_languages in
  let languageOrder := Sample.language_order Sample.many_languages in
  language <$> objects = ["Unknown"; "Late"; "L5"]
  /\ languageOrder !! "L5" = Some 5
  /\ languageOrder !! "Late" = Some 1000
  /\ languageOrder !! "Unknown" = None
  /\ Sample.group_names
       (groupRepositoriesByLanguage "recently" languageOrder
          (store_of objects) (refs_of objects))
     = ["L5"; "Unknown"; "Late"].
Proof. vm_compute. repeat split. Qed.

(** A language whose name is an array index, here ["1"], is
    enumerated first by the object that is returned, whatever the size
    of its group: the sort by size that precedes is lost on it.  The
    order stated below is that of the other names. *)
Lemma index_name_counterexample :
  let objects := Sample.loaded Sample.go_and_one in
  language <$> objects = ["Go"; "Go"; "1"]
  /\ Sample.group_names
       (groupRepositoriesByLanguage "popular" ∅ (store_of objects)
          (refs_of objects))
     = ["1"; "Go"].
Proof. vm_compute. repeat split. Qed.

(** The groups whose name is not an array index are in the order of
    the sort. *)
Lemma named_groups_order
    (languageCategory : string) (languageOrder : gmap string Z)
    (σ : store) (repositories : list ref) (gs : groups) :
  groupRepositoriesByLanguage languageCategory languageOrder σ repositories
  = Ok gs ->
  let named := filter (fun g => array_index g.1 = None) gs in
  (languageCategory <> "recently" ->
     StronglySorted (fun a b => (length b.2 <= length a.2)%nat) named)
  /\ (languageCategory = "recently" ->
        StronglySorted
          (fun a b => position languageOrder a.1 <= position languageOrder b.1)
          named
        /\ forall i j a b,
             named !! i = Some a -> named !! j = Some b ->
             position languageOrder a.1 < 999 ->
             languageOrder !! b.1 = None ->
             (i < j)%nat).
Proof.
  unfold groupRepositoriesByLanguage.
  destruct (group_all σ [] repositories) as [grouped|] eqn:Hgrouped; [|done].
  intros [= <-].
  set (sortedEntries := if String.eqb languageCategory "recently" then _ else _).
  destruct (own_property_order_split sortedEntries) as (Hsplit & Hindexed & Hnamed).
  cbv zeta in Hsplit, Hindexed, Hnamed. unfold groups in *.
  assert (Forall (fun k => inherited k = false) grouped.*1) as Hkeys.
  { eapply group_all_keys; [exact Hgrouped|constructor]. }
  split.
  - intros Hmode%String.eqb_neq. subst sortedEntries.
    rewrite Hmode in *. rewrite Hnamed.
    apply StronglySorted_filter.
    eapply StronglySorted_impl;
      [|apply (sort_sorted
                 (fun a b : string * list ref =>
                    Z.of_nat (length b.2) - Z.of_nat (length a.2)));
        unfold before; intros; lia].
    unfold before. intros; lia.
  - intros ->. simpl in sortedEntries.
    set (named := filter (fun g => array_index g.1 = None)
                    (own_property_order sortedEntries)) in *.
    assert (StronglySorted
              (fun a b => position languageOrder a.1 <= position languageOrder b.1)
              named) as Hsorted.
    { rewrite Hnamed. apply StronglySorted_filter. unfold sortedEntries.
      rewrite (sort_ext_in _
                 (fun a b : string * list ref =>
                    position languageOrder a.1 - position languageOrder b.1)).
      - eapply StronglySorted_impl;
          [|apply (sort_sorted
                     (fun a b : string * list ref =>
                        position languageOrder a.1 - position languageOrder b.1));
            unfold before; intros; lia].
        unfold before. intros; lia.
      - intros a b Ha Hb. rewrite own_property_order_elem_of in Ha, Hb.
        apply position_difference_own.
        + eapply Forall_forall in Hkeys; [exact Hkeys|].
          apply list_elem_of_fmap. by exists a.
        + eapply Forall_forall in Hkeys; [exact Hkeys|].
          apply list_elem_of_fmap. by exists b. }
    split; [done|].
    intros i j a b Hi Hj Hpos Habsent.
    destruct (decide (i < j)%nat) as [|Hge]; [done|]. exfalso.
    assert (position languageOrder b.1 = 999) as Hb.
    { unfold position. by rewrite Habsent. }
    destruct (decide (i = j)) as [->|Hne].
    + simplify_eq. lia.
    + pose proof (StronglySorted_lookup _ named j i b a Hsorted) as Hba.
      simpl in Hba. specialize (Hba ltac:(lia) Hj Hi). lia.
Qed.

(** Every group bears the name under which some repository is filed. *)
Lemma group_names_filed
    (languageCategory : string) (languageOrder : gmap string Z)
    (σ : store) (repositories : list ref) (gs : groups) g :
  groupRepositoriesByLanguage languageCategory languageOrder σ repositories
  = Ok gs ->
  g ∈ gs ->
  exists r, r ∈ repositories /\ group_language σ r = g.1.
Proof.
  unfold groupRepositoriesByLanguage.
  destruct (group_all σ [] repositories) as [grouped|] eqn:Hgrouped; [|done].
  intros [= <-] Hin.
  set (sortedEntries := if String.eqb languageCategory "recently" then _ else _)
    in Hin.
  assert (own_property_order sortedEntries ≡ₚ grouped) as Hperm.
  { rewrite own_property_order_perm. unfold sortedEntries.
    destruct (String.eqb languageCategory "recently");
      by rewrite sort_perm, own_property_order_perm. }
  destruct (group_all_files σ repositories [] [] grouped Hgrouped)
    as (_ & Hfiled & _).
  { split; [constructor|]. split; [by intros ? ? ?%elem_of_nil|
                                   by intros ? ?%elem_of_nil]. }
  simpl in Hfiled. rewrite Hperm in Hin. destruct g as [k rs].
  destruct (Hfiled k rs Hin) as [Hne Hrs].
  destruct rs as [|r rest]; [done|].
  assert (r ∈ filter (fun r => group_language σ r = k) repositories)
    as [? ?]%list_elem_of_filter by (rewrite <- Hrs; by left).
  by exists r.
Qed.

(** C7, amended.  On a list in which no repository is filed under a
    name that is an array index, when [groupRepositoriesByLanguage]
    returns: in the ['recently'] mode the groups are in ascending order
    of their position, which is the position in [languageOrder] and the
    sentinel 999 for a language absent from it, so that an absent
    language is placed after every present language whose position is
    below 999; in the other mode, ['popular'], they are in descending
    order of group size. *)
Theorem groupRepositoriesByLanguage_order
    (languageCategory : string) (languageOrder : gmap string Z)
    (σ : store) (repositories : list ref) (gs : groups) :
  groupRepositoriesByLanguage languageCategory languageOrder σ repositories
  = Ok gs ->
  Forall (fun r => array_index (group_language σ r) = None) repositories ->
  (languageCategory <> "recently" ->
     StronglySorted (fun a b => (length b.2 <= length a.2)%nat) gs)
  /\ (languageCategory = "recently" ->
        StronglySorted
          (fun a b => position languageOrder a.1 <= position languageOrder b.1)
          gs
        /\ forall i j a b,
             gs !! i = Some a -> gs !! j = Some b ->
             position languageOrder a.1 < 999 ->
             languageOrder !! b.1 = None ->
             (i < j)%nat).
Proof.
  intros Hcall Hnames.
  pose proof (named_groups_order _ _ _ _ _ Hcall) as Horder.
  cbv zeta in Horder. unfold groups in *.
  rewrite filter_all in Horder; [done|].
  intros g Hg.
  destruct (group_names_filed _ _ _ _ _ g Hcall Hg) as (r & Hr & <-).
  rewrite Forall_forall in Hnames. by apply Hnames.
Qed.

Lemma groupRepositoriesByLanguage_order_witness :
  let gs := [("TypeScript", [0; 2; 4]%nat); ("Go", [1; 5]%nat); ("Rust", [3%nat])] in
  ("popular" <> "recently" ->
     StronglySorted (fun a b => (length b.2 <= length a.2)%nat) gs)
  /\ ("popular" = "recently" ->
        StronglySorted
          (fun a b => position ∅ a.1 <= position ∅ b.1)
          gs
        /\ forall i j a b,
             gs !! i = Some a -> gs !! j = Some b ->
             position ∅ a.1 < 999 ->
             (∅ : gmap string Z) !! b.1 = None ->
             (i < j)%nat).
Proof.
  apply (groupRepositoriesByLanguage_order "popular" ∅
           (store_of (Sample.loaded Sample.six))
           (refs_of (Sample.loaded Sample.six))).
  - vm_compute. reflexivity.
  - change (refs_of (Sample.loaded Sample.six)) with [0; 1; 2; 3; 4; 5]%nat.
    repeat (apply List.Forall_cons; [by vm_compute|]). apply List.Forall_nil.
Defined.

(** [languageOrder = {Rust: 0, Go: 1}] and a third language [C] absent
    from it: the groups come in the order [Rust], [Go], [C]. *)
Example group_recently :
  let objects :=
    Sample.loaded
      (PArr [ Some (Sample.raw 1 "c" 3 (Some "C") None Sample.octocat);
              Some (Sample.raw 2 "g" 2 (Some "Go") None Sample.octocat);
              Some (Sample.raw 3 "r" 1 (Some "Rust") None Sample.octocat) ]) in
  Sample.group_names
    (groupRepositoriesByLanguage "recently" (<["Rust" := 0]> (<["Go" := 1]> ∅))
       (store_of objects) (refs_of objects))
  = ["Rust"; "Go"; "C"].
Proof. vm_compute. reflexivity. Qed.

(** * Further properties of the pipeline *)

(** ** The groups are a partition of the repositories *)

(** X1.  When [groupRepositoriesByLanguage] returns, the groups are a
    partition of the repositories: the group names are distinct, every
    group holds at least one repository and holds exactly the
    repositories filed under its name ([repo.language || 'Other']) in the
    order of the input, every repository is in the group of its name, and
    all the groups together hold each repository as often as the input
    does. *)
Theorem groupRepositoriesByLanguage_partition
    (languageCategory : string) (languageOrder : gmap string Z)
    (σ : store) (repositories : list ref) (gs : groups) :
  groupRepositoriesByLanguage languageCategory languageOrder σ repositories
  = Ok gs ->
  NoDup gs.*1
  /\ (forall k rs, (k, rs) ∈ gs ->
        rs <> [] /\ rs = filter (fun r => group_language σ r = k) repositories)
  /\ (forall r, r ∈ repositories ->
        exists rs, (group_language σ r, rs) ∈ gs /\ r ∈ rs)
  /\ concat gs.*2 ≡ₚ repositories.
Proof.
  unfold groupRepositoriesByLanguage.
  destruct (group_all σ [] repositories) as [grouped|] eqn:Hgrouped; [|done].
  intros [= <-].
  set (sortedEntries := if String.eqb languageCategory "recently" then _ else _).
  assert (own_property_order sortedEntries ≡ₚ grouped) as Hperm.
  { rewrite own_property_order_perm. unfold sortedEntries.
    destruct (String.eqb languageCategory "recently");
      by rewrite sort_perm, own_property_order_perm. }
  destruct (group_all_files σ repositories [] [] grouped Hgrouped)
    as (Hnodup & Hfiled & Hcover).
  { split; [constructor|]. split; [by intros ? ? ?%elem_of_nil|
                                   by intros ? ?%elem_of_nil]. }
  simpl in Hfiled, Hcover.
  split; [by rewrite Hperm|]. split; [|split].
  - intros k rs Hin. rewrite Hperm in Hin. by apply Hfiled.
  - intros r Hr. specialize (Hcover r Hr).
    apply list_elem_of_fmap in Hcover as ([k rs] & Hk & Hin). simpl in Hk.
    exists rs. rewrite Hperm, Hk. split; [done|].
    destruct (Hfiled k rs Hin) as [_ ->]. apply list_elem_of_filter.
    by split.
  - rewrite Hperm. by rewrite (group_all_concat σ _ _ _ Hgrouped).
Qed.

Lemma groupRepositoriesByLanguage_partition_witness :
  let σ := store_of (Sample.loaded Sample.six) in
  let repositories := refs_of (Sample.loaded Sample.six) in
  let gs := [("TypeScript", [0; 2; 4]%nat); ("Go", [1; 5]%nat); ("Rust", [3%nat])] in
  NoDup gs.*1
  /\ (forall k rs, (k, rs) ∈ gs ->
        rs <> [] /\ rs = filter (fun r => group_language σ r = k) repositories)
  /\ (forall r, r ∈ repositories ->
        exists rs, (group_language σ r, rs) ∈ gs /\ r ∈ rs)
  /\ concat gs.*2 ≡ₚ repositories.
Proof.
  apply (groupRepositoriesByLanguage_partition "popular" ∅
           (store_of (Sample.loaded Sample.six))
           (refs_of (Sample.loaded Sample.six))).
  vm_compute. reflexivity.
Defined.

(** X2.  [groupRepositoriesByLanguage] throws a [TypeError] exactly when
    some repository is filed under a name inherited from
    [Object.prototype], such as [constructor] or [toString]: the member
    found under that name is truthy, no array is created, and the member
    has no [push].  In every other case it returns. *)
Theorem groupRepositoriesByLanguage_throws_iff
    (languageCategory : string) (languageOrder : gmap string Z)
    (σ : store) (repositories : list ref) :
  (groupRepositoriesByLanguage languageCategory languageOrder σ repositories
   = Throw TypeError
   <-> exists r, r ∈ repositories /\ inherited (group_language σ r) = true)
  /\ ((forall r, r ∈ repositories -> inherited (group_language σ r) = false) ->
      exists gs,
        groupRepositoriesByLanguage languageCategory languageOrder σ repositories
        = Ok gs).
Proof.
  pose proof (group_all_throws σ repositories [] ltac:(constructor)) as Hthrow.
  unfold groupRepositoriesByLanguage.
  destruct (group_all σ [] repositories) as [grouped|[]] eqn:Hgrouped.
  - split.
    + split; [done|]. intros H. by apply Hthrow in H.
    + intros _. by eexists.
  - split; [split; [intros _; by apply Hthrow|done]|].
    intros Hnone. destruct (proj1 Hthrow eq_refl) as (r & Hr & Hi).
    rewrite Hnone in Hi by done. done.
Qed.

(** ** The language order of a grouped payload *)

Example group_constructor_throws :
  let objects :=
    Sample.loaded
      (PArr [ Some (Sample.raw 1 "a" 1 (Some "constructor") None Sample.octocat) ]) in
  groupRepositoriesByLanguage "popular" ∅ (store_of objects) (refs_of objects)
  = Throw TypeError.
Proof. vm_compute. reflexivity. Qed.

(** The arrays of the groups, one after the other. *)
Lemma flatten_groups_spec groups repositories languageOrder index seen :
  (forall k i, languageOrder !! k = Some i <->
               exists j, seen !! j = Some k /\ i = Z.of_nat j) ->
  index = Z.of_nat (length seen) ->
  NoDup (seen ++ groups.*1)%list ->
  (flatten_groups groups repositories languageOrder index).1
  = (repositories ++ concat (omap snd groups))%list
  /\ forall k i,
       (flatten_groups groups repositories languageOrder index).2 !! k = Some i
       <-> exists j,
             (seen ++ filter (fun k => inherited k = false) groups.*1)%list !! j
             = Some k
             /\ i = Z.of_nat j.
Proof.
  revert repositories languageOrder index seen.
  induction groups as [|[language languageRepos] rest IH];
    intros repositories languageOrder index seen Hlo Hindex Hnodup.
  { simpl. rewrite !app_nil_r. by split. }
  assert (languageOrder !! language = None) as Hnew.
  { destruct (languageOrder !! language) as [i|] eqn:E; [|done].
    apply Hlo in E as (j & Hj & _). exfalso.
    apply NoDup_app in Hnodup as (_ & Hdisj & _).
    apply (Hdisj language); [by eapply list_elem_of_lookup_2|by left]. }
  cbn [flatten_groups]. unfold order_recorded. rewrite Hnew.
  rewrite fmap_cons, filter_cons. cbn [fst].
  destruct (inherited language) eqn:Hinh.
  - rewrite decide_False by done.
    destruct (IH (match languageRepos with
                  | Some rs => (repositories ++ rs)%list
                  | None => repositories
                  end) languageOrder index seen) as [Hflat Hlo'];
      [done|done| |].
    { rewrite fmap_cons in Hnodup. cbn [fst] in Hnodup.
      apply NoDup_app in Hnodup as (H1 & H2 & H3).
      apply NoDup_cons in H3 as [_ H3]. apply NoDup_app.
      split; [done|]. split; [|done]. intros k Hk Hk'. apply (H2 k Hk). by right. }
    split; [|done]. rewrite Hflat. simpl.
    destruct languageRepos; simpl; by rewrite <- ?app_assoc.
  - rewrite decide_True by done.
    destruct (IH (match languageRepos with
                  | Some rs => (repositories ++ rs)%list
                  | None => repositories
                  end) (<[language := index]> languageOrder) (index + 1)
                (seen ++ [language])%list) as [Hflat Hlo'].
    + intros k i. destruct (decide (k = language)) as [->|Hne].
      * rewrite lookup_insert_eq. split.
        -- intros [= <-]. exists (length seen).
           by rewrite lookup_app_r, Nat.sub_diag by lia.
        -- intros (j & Hj & ->). f_equal. rewrite Hindex. f_equal.
           destruct (decide (j < length seen)%nat).
           ++ rewrite lookup_app_l in Hj by done. exfalso.
              apply NoDup_app in Hnodup as (_ & Hdisj & _).
              apply (Hdisj language); [by eapply list_elem_of_lookup_2|by left].
           ++ rewrite lookup_app_r in Hj by lia.
              destruct (j - length seen)%nat eqn:E; [lia|done].
      * rewrite lookup_insert_ne by done. rewrite Hlo. split.
        -- intros (j & Hj & ->). exists j. split; [|done].
           by apply lookup_app_l_Some.
        -- intros (j & Hj & ->). exists j. split; [|done].
           apply lookup_app_Some in Hj as [Hj|[_ Hj]]; [done|].
           destruct (j - length seen)%nat; simplify_eq/=.
    + rewrite length_app. simpl. lia.
    + rewrite fmap_cons in Hnodup. cbn [fst] in Hnodup.
      rewrite <- app_assoc. done.
    + split.
      * rewrite Hflat. simpl.
        destruct languageRepos; simpl; by rewrite <- ?app_assoc.
      * intros k i. rewrite Hlo'. by rewrite <- app_assoc.
Qed.

(** X3.  For a payload that is an object, whose keys are distinct as
    the keys of an object are, [processRepositoryData] stores in
    [this.languageOrder] the first-seen position of each language key:
    the [i]-th key, not counting the names inherited from
    [Object.prototype], which are never recorded, is given the position
    [i], and no other name has a position.  The flat array is made of
    the groups that are arrays, in key order. *)
Theorem processRepositoryData_languageOrder
    (now_created now_updated : nat -> string)
    (groups : list (string * option (list entry))) :
  NoDup groups.*1 ->
  exists out languageOrder,
    processRepositoryData now_created now_updated (PObj groups)
    = Ok (out, languageOrder)
    /\ flatten (PObj groups) = Ok (concat (omap snd groups), languageOrder)
    /\ (forall k i,
          languageOrder !! k = Some i
          <-> exists j,
                filter (fun k => inherited k = false) groups.*1 !! j = Some k
                /\ i = Z.of_nat j)
    /\ (forall k, is_Some (languageOrder !! k)
                  <-> k ∈ groups.*1 /\ inherited k = false).
Proof.
  intros Hnodup.
  destruct (flatten_groups_spec groups [] ∅ 0 []) as [Hflat Hlo]; [| |done|].
  { intros k i. rewrite lookup_empty. split; [done|].
    by intros (j & ? & _). }
  { done. }
  simpl in Hflat, Hlo.
  unfold processRepositoryData. simpl.
  destruct (flatten_groups groups [] ∅ 0) as [flat lo] eqn:E.
  simpl in Hflat, Hlo. subst flat.
  eexists _, lo. split; [done|]. split; [done|]. split; [done|].
  intros k. split.
  - intros [i (j & Hj & _)%Hlo].
    by apply list_elem_of_lookup_2, list_elem_of_filter in Hj as [? ?].
  - intros [Hk Hi].
    assert (k ∈ filter (fun k => inherited k = false) groups.*1)
      as (j & Hj)%list_elem_of_lookup_1 by (by apply list_elem_of_filter).
    exists (Z.of_nat j). apply Hlo. eauto.
Qed.

Lemma processRepositoryData_languageOrder_witness :
  exists out languageOrder,
    processRepositoryData Sample.now Sample.now
      (PObj [("Rust", Some []); ("toString", Some []); ("Go", None)])
    = Ok (out, languageOrder)
    /\ flatten (PObj [("Rust", Some []); ("toString", Some []); ("Go", None)])
       = Ok (concat (omap snd [("Rust", Some []); ("toString", Some []); ("Go", None)]),
             languageOrder)
    /\ (forall k i,
          languageOrder !! k = Some i
          <-> exists j,
                filter (fun k => inherited k = false)
                  [("Rust", Some ([] : list entry)); ("toString", Some []);
                   ("Go", None)].*1 !! j = Some k
                /\ i = Z.of_nat j)
    /\ (forall k, is_Some (languageOrder !! k)
                  <-> k ∈ [("Rust", Some ([] : list entry)); ("toString", Some []);
                           ("Go", None)].*1
                      /\ inherited k = false).
Proof.
  apply (processRepositoryData_languageOrder Sample.now Sample.now
           [("Rust", Some []); ("toString", Some []); ("Go", None)]).
  apply (bool_decide_unpack _). vm_compute. reflexivity.
Defined.

(** ** The language filter: [extractLanguages] *)

Section DefaultOrder.

Lemma ascii_compare_lt_trans a b c :
  Ascii.compare a b = Lt -> Ascii.compare b c = Lt -> Ascii.compare a c = Lt.
Proof.
  unfold Ascii.compare. rewrite !N.compare_lt_iff. lia.
Qed.

Lemma ascii_compare_eq a b : Ascii.compare a b = Eq -> a = b.
Proof.
  unfold Ascii.compare. rewrite N.compare_eq_iff.
  intros H. rewrite <- (ascii_N_embedding a), <- (ascii_N_embedding b).
  by rewrite H.
Qed.

Lemma ascii_compare_refl a : Ascii.compare a a = Eq.
Proof. unfold Ascii.compare. apply N.compare_refl. Qed.

Lemma string_compare_lt_trans a b c :
  String.compare a b = Lt -> String.compare b c = Lt -> String.compare a c = Lt.
Proof.
  revert b c. induction a as [|x a IH]; intros [|y b] [|z c]; simpl; try done.
  destruct (Ascii.compare x y) eqn:Hxy; [|clear IH|done].
  - apply ascii_compare_eq in Hxy as ->.
    destruct (Ascii.compare y z) eqn:Hyz; [|done|done]. apply IH.
  - destruct (Ascii.compare y z) eqn:Hyz; [|
      by rewrite (ascii_compare_lt_trans x y z Hxy Hyz)|done].
    apply ascii_compare_eq in Hyz as <-. by rewrite Hxy.
Qed.

Lemma default_compare_before x y :
  before default_compare x y <-> String.compare x y <> Gt.
Proof.
  unfold before, default_compare, String.ltb.
  rewrite (String.compare_antisym y x).
  destruct (String.compare x y); simpl; split; (done || lia).
Qed.

Lemma default_compare_total x y :
  before default_compare x y \/ before default_compare y x.
Proof.
  rewrite !default_compare_before, (String.compare_antisym y x).
  destruct (String.compare x y); simpl; auto.
Qed.

Lemma default_compare_trans x y z :
  before default_compare x y -> before default_compare y z ->
  before default_compare x z.
Proof.
  rewrite !default_compare_before. intros Hxy Hyz.
  destruct (String.compare x y) eqn:E1; [|clear Hxy|done].
  { by apply String.compare_eq_iff in E1 as ->. }
  destruct (String.compare y z) eqn:E2; [|clear Hyz|done].
  { apply String.compare_eq_iff in E2 as <-. by rewrite E1. }
  by rewrite (string_compare_lt_trans x y z E1 E2).
Qed.

Lemma default_compare_strict x y :
  before default_compare x y -> x <> y -> String.ltb x y = true.
Proof.
  rewrite default_compare_before. unfold String.ltb.
  destruct (String.compare x y) eqn:E; [|done|done].
  by apply String.compare_eq_iff in E.
Qed.

End DefaultOrder.

Lemma StronglySorted_NoDup {A} (R : A -> A -> Prop) (l : list A) :
  StronglySorted R l -> NoDup l ->
  StronglySorted (fun a b => R a b /\ a <> b) l.
Proof.
  induction 1 as [|a l Hl IH Ha]; intros Hnd; [constructor|].
  apply NoDup_cons in Hnd as [Hnotin Hnd].
  constructor; [by apply IH|].
  rewrite Forall_forall in Ha |- *. intros b Hb. split; [by apply Ha|].
  by intros ->.
Qed.

Lemma set_add_NoDup x set : NoDup set -> NoDup (set_add x set).
Proof.
  intros Hnd. unfold set_add. destruct (decide (x ∈ set)); [done|].
  apply NoDup_app. split; [done|]. split; [|apply NoDup_singleton].
  intros y Hy ->%list_elem_of_singleton. done.
Qed.

Lemma elem_of_set_add y x set : y ∈ set_add x set <-> y = x \/ y ∈ set.
Proof.
  unfold set_add. destruct (decide (x ∈ set)).
  - split; [by right|]. by intros [->|?].
  - rewrite elem_of_app, list_elem_of_singleton. tauto.
Qed.

(** X4.  [extractLanguages] returns the languages of the repositories
    it is given, each once, in strictly ascending order of their code
    units; the empty language and ['Unknown'] are left out, and nothing
    else is. *)
Theorem extractLanguages_spec (σ : store) (repositories : list ref) :
  StronglySorted (fun a b => String.ltb a b = true)
    (extractLanguages σ repositories)
  /\ NoDup (extractLanguages σ repositories)
  /\ forall l,
       l ∈ extractLanguages σ repositories
       <-> l <> "" /\ l <> "Unknown"
           /\ exists repo, repo ∈ repositories /\ language (σ repo) = l.
Proof.
  unfold extractLanguages.
  set (step := fun (set : list string) (repo : ref) =>
                 if truthy_str (language (σ repo))
                    && negb (String.eqb (language (σ repo)) "Unknown")
                 then set_add (language (σ repo)) set else set).
  assert (forall repos set,
            NoDup set ->
            NoDup (foldl step set repos)
            /\ forall l, l ∈ foldl step set repos
                 <-> l ∈ set
                     \/ (l <> "" /\ l <> "Unknown"
                         /\ exists repo, repo ∈ repos /\ language (σ repo) = l))
    as Hfold.
  { induction repos as [|repo repos IH]; intros set Hnd; simpl.
    - split; [done|]. intros l. split; [by left|].
      intros [?|(_ & _ & repo & Hrepo & _)]; [done|]. by apply elem_of_nil in Hrepo.
    - destruct (IH (step set repo)) as [Hnd' Hin].
      { unfold step. destruct (_ && _); [by apply set_add_NoDup|done]. }
      split; [done|]. intros l. rewrite Hin. unfold step.
      destruct (truthy_str (language (σ repo))
                && negb (String.eqb (language (σ repo)) "Unknown")) eqn:E.
      + apply andb_true_iff in E as [E1 E2].
        apply truthy_str_spec in E1.
        apply negb_true_iff, String.eqb_neq in E2.
        rewrite elem_of_set_add. split.
        * intros [[->|?]|(? & ? & r & Hr & <-)].
          -- right. split; [done|]. split; [done|]. exists repo. split; [by left|done].
          -- by left.
          -- right. split; [done|]. split; [done|]. exists r. split; [by right|done].
        * intros [?|(? & ? & r & Hr & <-)]; [by left; right|].
          apply elem_of_cons in Hr as [->|Hr]; [by left; left|].
          right. split; [done|]. split; [done|]. by exists r.
      + split.
        * intros [?|(? & ? & r & Hr & <-)]; [by left|].
          right. split; [done|]. split; [done|]. exists r. split; [by right|done].
        * intros [?|(Hne & Hunk & r & Hr & <-)]; [by left|].
          apply elem_of_cons in Hr as [->|Hr].
          -- exfalso. apply andb_false_iff in E as [E|E].
             ++ apply Hne. destruct (truthy_str_spec (language (σ repo))) as [_ Ht].
                destruct (decide (language (σ repo) = "")); [done|].
                by rewrite Ht in E.
             ++ apply negb_false_iff, String.eqb_eq in E. done.
          -- right. split; [done|]. split; [done|]. by exists r. }
  destruct (Hfold repositories [] (NoDup_nil_2)) as [Hnd Hin].
  assert (NoDup (JS.sort default_compare (foldl step [] repositories))) as Hnd'.
  { by rewrite sort_perm. }
  split; [|split; [done|]].
  - eapply StronglySorted_impl;
      [|apply StronglySorted_NoDup;
         [apply (sort_sorted default_compare default_compare_total
                   default_compare_trans)|done]].
    intros a b [Hab Hne]. by apply default_compare_strict.
  - intros l. rewrite sort_elem_of, Hin. split.
    + intros [?%elem_of_nil|?]; done.
    + by right.
Qed.

Example extractLanguages_six :
  extractLanguages (store_of (Sample.loaded Sample.six))
    (refs_of (Sample.loaded Sample.six))
  = ["Go"; "Rust"; "TypeScript"].
Proof. vm_compute. reflexivity. Qed.

(** ** Counting languages: [calculateLanguageCounts] *)

Section CountFacts.
Variable σ : store.

Lemma count_own_spec counts language :
  count_own counts language
  = match counts with
    | [] => None
    | (k, v) :: rest =>
        if decide (k = language) then Some ((k, count_next v) :: rest)
        else cons (k, v) <$> count_own rest language
    end.
Proof. by destruct counts as [|[k []] rest]. Qed.

Lemma count_own_None counts language :
  count_own counts language = None <-> language ∉ counts.*1.
Proof.
  induction counts as [|[k v] rest IH]; rewrite count_own_spec.
  - split; [intros _; apply not_elem_of_nil|done].
  - rewrite fmap_cons, not_elem_of_cons. cbn [fst].
    destruct (decide (k = language)) as [->|Hne].
    + split; [done|]. by intros [? _].
    + rewrite fmap_None, IH. split; [by split|by intros [_ ?]].
Qed.

Lemma elem_of_fst {V} (k : string) (v : V) (l : list (string * V)) :
  (k, v) ∈ l -> k ∈ l.*1.
Proof. intros Hin. apply list_elem_of_fmap. by exists (k, v). Qed.

Lemma count_own_Some counts language counts' :
  NoDup counts.*1 ->
  count_own counts language = Some counts' ->
  counts'.*1 = counts.*1
  /\ forall k v',
       (k, v') ∈ counts' <->
       (k <> language /\ (k, v') ∈ counts)
       \/ (k = language /\ exists v, (k, v) ∈ counts /\ v' = count_next v).
Proof.
  revert counts'. induction counts as [|[k0 v0] rest IH]; intros counts' Hnd;
    rewrite count_own_spec; [done|].
  rewrite fmap_cons in Hnd. cbn [fst] in Hnd.
  apply NoDup_cons in Hnd as [Hk0 Hnd].
  destruct (decide (k0 = language)) as [->|Hne].
  - intros [= <-]. split; [done|]. intros k v'. rewrite elem_of_cons. split.
    + intros [[= -> ->]|Hin].
      * right. split; [done|]. exists v0. split; [by left|done].
      * left. split; [|by right]. intros ->. by apply Hk0, (elem_of_fst _ v').
    + intros [[Hk Hin]|(-> & v & Hin & ->)].
      * apply elem_of_cons in Hin as [[= -> ->]|Hin]; [done|by right].
      * apply elem_of_cons in Hin as [[= ->]|Hin]; [by left|].
        exfalso. by apply Hk0, (elem_of_fst _ v).
  - destruct (count_own rest language) as [rest'|] eqn:E; [|done].
    intros [= <-]. destruct (IH rest' Hnd eq_refl) as [Hkeys Hin].
    split; [by rewrite !fmap_cons, Hkeys|].
    intros k v'. rewrite elem_of_cons, Hin. split.
    + intros [[= -> ->]|[[Hk H]|(-> & v & H & ->)]].
      * left. split; [done|by left].
      * left. split; [done|by right].
      * right. split; [done|]. exists v. split; [by right|done].
    + intros [[Hk H]|(-> & v & H & ->)].
      * apply elem_of_cons in H as [[= -> ->]|H]; [by left|]. right. by left.
      * apply elem_of_cons in H as [[= ? ?]|H]; [done|].
        right. right. split; [done|]. by exists v.
Qed.

Lemma language_count_snoc processed repo k :
  language_count σ (processed ++ [repo]) k
  = language_count σ processed k
    + (if decide (counted_language σ repo = k) then 1 else 0).
Proof.
  unfold language_count. rewrite filter_snoc, length_app.
  destruct (decide (counted_language σ repo = k)); simpl; lia.
Qed.

Lemma language_count_pos processed k :
  0 < language_count σ processed k
  <-> exists repo, repo ∈ processed /\ counted_language σ repo = k.
Proof.
  unfold language_count. split.
  - intros Hpos.
    destruct (filter (fun repo => counted_language σ repo = k) processed)
      as [|repo rest] eqn:E; [simpl in Hpos; lia|].
    assert (repo ∈ filter (fun repo => counted_language σ repo = k) processed)
      as [? ?]%list_elem_of_filter by (rewrite E; by left).
    by exists repo.
  - intros (repo & Hin & Hk).
    assert (repo ∈ filter (fun repo => counted_language σ repo = k) processed)
      as Hf by (by apply list_elem_of_filter).
    destruct (filter (fun repo => counted_language σ repo = k) processed);
      [by apply elem_of_nil in Hf|simpl; lia].
Qed.

Lemma proto_inherited : inherited "__proto__" = true.
Proof. reflexivity. Qed.

(** One more repository, and [counts] still counts what was processed. *)
Lemma count_add_counts processed counts repo :
  counts_of σ processed counts ->
  counts_of σ (processed ++ [repo]) (count_add σ counts repo).
Proof.
  intros (Hnd & Hkeys & Hval). unfold count_add.
  set (lang := counted_language σ repo).
  assert (forall k, (exists r, r ∈ (processed ++ [repo])%list
                               /\ counted_language σ r = k)
                    <-> (exists r, r ∈ processed /\ counted_language σ r = k)
                        \/ k = lang) as Hsnoc.
  { intros k. split.
    - intros (r & [Hr| ->%list_elem_of_singleton]%elem_of_app & Hk);
        [left; by exists r|by right].
    - intros [(r & Hr & Hk)| ->].
      + exists r. split; [apply elem_of_app; by left|done].
      + exists repo. split; [apply elem_of_app; right; by left|done]. }
  destruct (count_own counts lang) as [counts'|] eqn:E.
  - destruct (count_own_Some _ _ _ Hnd E) as [Hk' Hin'].
    assert (lang ∈ counts.*1) as Hlang.
    { destruct (decide (lang ∈ counts.*1)) as [|Hn]; [done|].
      apply count_own_None in Hn. congruence. }
    split; [by rewrite Hk'|]. split.
    + intros k. rewrite Hk', Hkeys, Hsnoc. split; [intros [? ?]; by auto|].
      intros [Hne [?| ->]]; [done|]. by apply Hkeys.
    + intros k v' [[Hne Hin]|(-> & v & Hin & ->)]%Hin'.
      * rewrite (Hval k v' Hin), language_count_snoc.
        rewrite decide_False by done. by rewrite Z.add_0_r.
      * rewrite (Hval lang v Hin), language_count_snoc.
        rewrite decide_True by done.
        destruct (inherited lang); [done|]. simpl.
        assert (0 < language_count σ processed lang) as Hpos.
        { apply language_count_pos. by apply Hkeys. }
        unfold truthy_num.
        destruct (language_count σ processed lang =? 0) eqn:E0;
          [apply Z.eqb_eq in E0; lia|done].
  - apply count_own_None in E.
    assert (forall r, r ∈ processed -> counted_language σ r = lang ->
                      lang = "__proto__") as Hnew.
    { intros r Hr Hk. destruct (decide (lang = "__proto__")); [done|].
      exfalso. apply E, Hkeys. split; [done|]. by exists r. }
    destruct (inherited lang) eqn:Hinh.
    + destruct (String.eqb lang "__proto__") eqn:Hproto.
      * apply String.eqb_eq in Hproto.
        split; [done|]. split.
        -- intros k. rewrite Hkeys, Hsnoc. split; [intros [? ?]; by auto|].
           intros [Hne [?| ->]]; [done|]. by rewrite Hproto in Hne.
        -- intros k v Hin. rewrite (Hval k v Hin), language_count_snoc.
           rewrite decide_False; [by rewrite Z.add_0_r|].
           intros Hk. fold lang in Hk. subst k.
           apply elem_of_fst, Hkeys in Hin. by destruct Hin.
      * apply String.eqb_neq in Hproto. split; [|split].
        -- rewrite fmap_app. apply NoDup_app. split; [done|].
           split; [|apply NoDup_singleton].
           by intros k Hk ->%list_elem_of_singleton.
        -- intros k. rewrite fmap_app, elem_of_app, Hkeys, Hsnoc.
           simpl. rewrite list_elem_of_singleton. split.
           ++ intros [[? ?]| ->]; by auto.
           ++ intros [Hne [?| ->]]; by auto.
        -- intros k v [Hin|[= -> ->]%list_elem_of_singleton]%elem_of_app.
           ++ rewrite (Hval k v Hin), language_count_snoc.
              rewrite decide_False; [by rewrite Z.add_0_r|].
              intros Hk. fold lang in Hk. subst k.
              by apply elem_of_fst in Hin.
           ++ by rewrite Hinh.
    + assert (lang <> "__proto__") as Hproto.
      { intros Heq. by rewrite Heq, proto_inherited in Hinh. }
      split; [|split].
      * rewrite fmap_app. apply NoDup_app. split; [done|].
        split; [|apply NoDup_singleton].
        by intros k Hk ->%list_elem_of_singleton.
      * intros k. rewrite fmap_app, elem_of_app, Hkeys, Hsnoc.
        simpl. rewrite list_elem_of_singleton. split.
        -- intros [[? ?]| ->]; by auto.
        -- intros [Hne [?| ->]]; by auto.
      * intros k v [Hin|[= -> ->]%list_elem_of_singleton]%elem_of_app.
        -- rewrite (Hval k v Hin), language_count_snoc.
           rewrite decide_False; [by rewrite Z.add_0_r|].
           intros Hk. fold lang in Hk. subst k.
           by apply elem_of_fst in Hin.
        -- rewrite Hinh, language_count_snoc.
           rewrite decide_True by done. f_equal.
           assert (~ 0 < language_count σ processed lang) as Hzero.
           { rewrite language_count_pos. intros (r & Hr & Hk).
             by apply Hproto, (Hnew r). }
           assert (0 <= language_count σ processed lang)
             by (unfold language_count; lia).
           lia.
Qed.

Lemma count_all_counts repositories processed counts :
  counts_of σ processed counts ->
  counts_of σ (processed ++ repositories) (foldl (count_add σ) counts repositories).
Proof.
  revert processed counts.
  induction repositories as [|repo rest IH]; intros processed counts Hc; simpl.
  - by rewrite app_nil_r.
  - replace (processed ++ repo :: rest)%list
      with ((processed ++ [repo]) ++ rest)%list by (by rewrite <- app_assoc).
    by apply IH, count_add_counts.
Qed.

End CountFacts.

Lemma calculateLanguageCounts_keys (σ : store) (repositories : list ref) :
  counts_of σ repositories (calculateLanguageCounts σ repositories).
Proof.
  apply (count_all_counts σ repositories [] []).
  split; [constructor|]. split.
  - intros k. split; [by intros ?%elem_of_nil|].
    by intros (_ & r & ?%elem_of_nil & _).
  - by intros k v ?%elem_of_nil.
Qed.

(** X5.  [calculateLanguageCounts] builds an object with one property
    for each language that occurs among the repositories, ['Unknown']
    standing for a falsy language and [__proto__] never becoming a
    property; the property of a language holds the number of
    repositories of that language, except under a name inherited from
    [Object.prototype], where it holds a string. *)
Theorem calculateLanguageCounts_spec (σ : store) (repositories : list ref) :
  NoDup (calculateLanguageCounts σ repositories).*1
  /\ (forall k,
        k ∈ (calculateLanguageCounts σ repositories).*1
        <-> k <> "__proto__"
            /\ exists repo, repo ∈ repositories /\ counted_language σ repo = k)
  /\ (forall k v,
        (k, v) ∈ calculateLanguageCounts σ repositories ->
        v = if inherited k then Text
            else Count (Z.of_nat
                          (length (filter (fun repo => counted_language σ repo = k)
                                     repositories)))).
Proof. apply calculateLanguageCounts_keys. Qed.

Example calculateLanguageCounts_six :
  calculateLanguageCounts (store_of (Sample.loaded Sample.six))
    (refs_of (Sample.loaded Sample.six))
  = [("TypeScript", Count 3); ("Go", Count 2); ("Rust", Count 1)].
Proof. vm_compute. reflexivity. Qed.

(** ** The quick filters: [getLanguagesForQuickFilters] *)

Lemma slice_to_sorted {A} (cmp cmp' : A -> A -> Z) (l : list A) (limit : Z) :
  (forall a b, a ∈ l -> b ∈ l -> cmp a b = cmp' a b) ->
  (forall a b, before cmp' a b \/ before cmp' b a) ->
  (forall a b c, before cmp' a b -> before cmp' b c -> before cmp' a c) ->
  slice_to limit (JS.sort cmp l) `sublist_of` JS.sort cmp l
  /\ StronglySorted (before cmp') (slice_to limit (JS.sort cmp l))
  /\ (forall a b, a ∈ slice_to limit (JS.sort cmp l) -> b ∈ l ->
        b ∉ slice_to limit (JS.sort cmp l) -> before cmp' a b)
  /\ (0 <= limit ->
      length (slice_to limit (JS.sort cmp l))
      = Z.to_nat (Z.min limit (Z.of_nat (length l)))).
Proof.
  intros Hext Htotal Htrans. rewrite (sort_ext_in cmp cmp' l Hext).
  pose proof (sort_sorted cmp' Htotal Htrans l) as Hsorted.
  unfold slice_to. rewrite sort_length.
  set (n := Z.to_nat _).
  rewrite <- (take_drop n (JS.sort cmp' l)) in Hsorted.
  split; [apply sublist_take|]. split; [by eapply StronglySorted_app_1_l|].
  split.
  - intros a b Ha Hb Hnb.
    eapply StronglySorted_app_1_elem_of; [exact Hsorted|done|].
    apply (sort_elem_of cmp') in Hb.
    rewrite <- (take_drop n (JS.sort cmp' l)) in Hb.
    by apply elem_of_app in Hb as [?|?].
  - intros Hlimit. rewrite length_take, sort_length. subst n.
    destruct (limit <? 0) eqn:E; [apply Z.ltb_lt in E; lia|]. lia.
Qed.

(** X6.  In the ['popular'] mode, and in every mode other than
    ['recently'], [getLanguagesForQuickFilters(limit)] returns the most
    frequent languages: at most [limit] of them and as many as there
    are if fewer, each once, each the language of some repository, in
    descending order of their number of repositories, and no language
    left out has more repositories than one returned.  This holds when
    no language bears a name inherited from [Object.prototype]. *)
Theorem getLanguagesForQuickFilters_popular
    (languageCategory : string) (languageOrder : gmap string Z)
    (σ : store) (repositories : list ref) (limit : Z) :
  Forall (fun repo => inherited (counted_language σ repo) = false) repositories ->
  languageCategory <> "recently" ->
  0 <= limit ->
  let languages :=
    getLanguagesForQuickFilters languageCategory languageOrder σ repositories
      limit in
  NoDup languages
  /\ length languages
     = Z.to_nat (Z.min limit
                   (Z.of_nat (length (calculateLanguageCounts σ repositories))))
  /\ (forall l, l ∈ languages -> 0 < language_count σ repositories l)
  /\ StronglySorted
       (fun a b => language_count σ repositories b
                   <= language_count σ repositories a)
       languages
  /\ (forall a b, a ∈ languages -> b ∉ languages ->
        language_count σ repositories b <= language_count σ repositories a).
Proof.
  intros Hown Hmode Hlimit. cbv zeta. rewrite Forall_forall in Hown.
  unfold getLanguagesForQuickFilters.
  destruct (String.eqb languageCategory "recently") eqn:E;
    [by apply String.eqb_eq in E|clear E].
  destruct (calculateLanguageCounts_keys σ repositories)
    as (Hnd & Hkeys & Hval).
  set (counts := calculateLanguageCounts σ repositories) in *.
  set (cnt := language_count σ repositories).
  assert (forall k v, (k, v) ∈ own_property_order counts -> v = Count (cnt k))
    as Hcount.
  { intros k v Hin. rewrite own_property_order_elem_of in Hin.
    rewrite (Hval k v Hin).
    assert (k ∈ counts.*1) as (_ & repo & Hrepo & <-)%Hkeys
      by (by eapply elem_of_fst).
    by rewrite (Hown repo Hrepo). }
  destruct (slice_to_sorted
              (fun a b : string * count_value => count_difference b.2 a.2)
              (fun a b => cnt b.1 - cnt a.1)
              (own_property_order counts) limit)
    as (Hsub & Hsorted & Htop & Hlen).
  { intros [ka va] [kb vb] Ha Hb. simpl.
    by rewrite (Hcount ka va Ha), (Hcount kb vb Hb). }
  { apply (key_descending_total (fun a : string * count_value => cnt a.1)). }
  { apply (key_descending_trans (fun a : string * count_value => cnt a.1)). }
  set (top := slice_to limit _) in *.
  assert (NoDup top.*1) as Hndtop.
  { eapply sublist_NoDup; [|apply fmap_sublist, Hsub].
    by rewrite sort_perm, own_property_order_perm. }
  split; [done|]. split.
  { rewrite length_fmap, Hlen by done.
    by rewrite (Permutation_length (own_property_order_perm counts)). }
  split.
  { intros l ([k v] & -> & Hin)%list_elem_of_fmap. simpl.
    apply language_count_pos.
    assert ((k, v) ∈ counts) as Hc.
    { rewrite <- own_property_order_elem_of.
      eapply (proj1 (sort_elem_of _ _ _)), elem_of_sublist; [exact Hin|exact Hsub]. }
    apply elem_of_fst, Hkeys in Hc. by destruct Hc. }
  split.
  { eapply StronglySorted_fmap; [|exact Hsorted].
    intros x y Hxy. unfold before in Hxy. lia. }
  intros a b ([ka va] & -> & Ha)%list_elem_of_fmap Hb. simpl.
  destruct (decide (b ∈ counts.*1)) as [Hin|Hout].
  - apply list_elem_of_fmap in Hin as ([kb vb] & -> & Hin). simpl in *.
    assert (before (fun a b : string * count_value => cnt b.1 - cnt a.1)
              (ka, va) (kb, vb)) as Hbefore.
    { apply Htop; [done|by rewrite own_property_order_elem_of|].
      intros Hin'. apply Hb. apply list_elem_of_fmap. by exists (kb, vb). }
    unfold before in Hbefore. simpl in Hbefore. fold cnt. lia.
  - assert (~ 0 < cnt b) as Hzero.
    { unfold cnt. rewrite language_count_pos. intros (repo & Hrepo & Hk).
      apply Hout, Hkeys. split; [|by exists repo].
      intros ->. specialize (Hown repo Hrepo). by rewrite Hk in Hown. }
    assert (0 <= cnt ka) by (unfold cnt, language_count; lia).
    fold cnt. lia.
Qed.

Lemma getLanguagesForQuickFilters_popular_witness :
  let σ := store_of (Sample.loaded Sample.six) in
  let repositories := refs_of (Sample.loaded Sample.six) in
  let languages := ["TypeScript"; "Go"] in
  NoDup languages
  /\ length languages
     = Z.to_nat (Z.min 2 (Z.of_nat (length (calculateLanguageCounts σ repositories))))
  /\ (forall l, l ∈ languages -> 0 < language_count σ repositories l)
  /\ StronglySorted
       (fun a b => language_count σ repositories b
                   <= language_count σ repositories a)
       languages
  /\ (forall a b, a ∈ languages -> b ∉ languages ->
        language_count σ repositories b <= language_count σ repositories a).
Proof.
  apply (getLanguagesForQuickFilters_popular "popular" ∅
           (store_of (Sample.loaded Sample.six))
           (refs_of (Sample.loaded Sample.six)) 2).
  - vm_compute. repeat constructor.
  - discriminate.
  - lia.
Defined.

(** X7.  In the ['recently'] mode [getLanguagesForQuickFilters(limit)]
    returns the languages in the order of their positions in
    [this.languageOrder], a language without a position standing at
    999: at most [limit] of them and as many as there are if fewer,
    each once, each the language of some repository, and no language
    left out stands before one returned.  This holds when no language
    bears a name inherited from [Object.prototype]. *)
Theorem getLanguagesForQuickFilters_recently
    (languageOrder : gmap string Z)
    (σ : store) (repositories : list ref) (limit : Z) :
  Forall (fun repo => inherited (counted_language σ repo) = false) repositories ->
  0 <= limit ->
  let languages :=
    getLanguagesForQuickFilters "recently" languageOrder σ repositories limit in
  NoDup languages
  /\ length languages
     = Z.to_nat (Z.min limit
                   (Z.of_nat (length (calculateLanguageCounts σ repositories))))
  /\ (forall l, l ∈ languages -> 0 < language_count σ repositories l)
  /\ StronglySorted
       (fun a b => position languageOrder a <= position languageOrder b)
       languages
  /\ (forall a b, a ∈ languages -> b ∉ languages ->
        0 < language_count σ repositories b ->
        position languageOrder a <= position languageOrder b).
Proof.
  intros Hown Hlimit. cbv zeta. rewrite Forall_forall in Hown.
  unfold getLanguagesForQuickFilters.
  replace (String.eqb "recently" "recently") with true by reflexivity.
  destruct (calculateLanguageCounts_keys σ repositories)
    as (Hnd & Hkeys & Hval).
  set (counts := calculateLanguageCounts σ repositories) in *.
  assert (forall k, k ∈ (own_property_order counts).*1 <-> k ∈ counts.*1)
    as Hsame.
  { intros k. by rewrite own_property_order_perm. }
  assert (forall k, k ∈ (own_property_order counts).*1 -> inherited k = false)
    as Hnames.
  { intros k (_ & repo & Hrepo & <-)%Hsame%Hkeys. by apply Hown. }
  destruct (slice_to_sorted
              (fun langA langB => position_difference languageOrder langA langB)
              (fun a b => position languageOrder a - position languageOrder b)
              (own_property_order counts).*1 limit)
    as (Hsub & Hsorted & Htop & Hlen).
  { intros a b Ha Hb. apply position_difference_own; by apply Hnames. }
  { apply (key_ascending_total (position languageOrder)). }
  { apply (key_ascending_trans (position languageOrder)). }
  set (top := slice_to limit _) in *.
  split.
  { eapply sublist_NoDup; [|exact Hsub].
    by rewrite sort_perm, own_property_order_perm. }
  split.
  { rewrite Hlen by done. rewrite length_fmap.
    by rewrite (Permutation_length (own_property_order_perm counts)). }
  split.
  { intros l Hin. apply language_count_pos.
    assert (l ∈ counts.*1) as Hc.
    { apply Hsame. eapply (proj1 (sort_elem_of _ _ _)), elem_of_sublist;
        [exact Hin|exact Hsub]. }
    apply Hkeys in Hc. by destruct Hc. }
  split.
  { eapply StronglySorted_impl; [|exact Hsorted].
    intros x y Hxy. unfold before in Hxy. lia. }
  intros a b Ha Hb Hpos.
  assert (before (fun a b => position languageOrder a - position languageOrder b)
            a b) as Hbefore.
  { apply Htop; [done| |done]. apply Hsame, Hkeys.
    apply language_count_pos in Hpos as (repo & Hrepo & Hk).
    split; [|by exists repo].
    intros ->. specialize (Hown repo Hrepo). by rewrite Hk in Hown. }
  unfold before in Hbefore. lia.
Qed.

Lemma getLanguagesForQuickFilters_recently_witness :
  let σ := store_of (Sample.loaded Sample.six) in
  let repositories := refs_of (Sample.loaded Sample.six) in
  let languageOrder : gmap string Z := <["Rust" := 0]> (<["Go" := 1]> ∅) in
  let languages := ["Rust"; "Go"] in
  NoDup languages
  /\ length languages
     = Z.to_nat (Z.min 2 (Z.of_nat (length (calculateLanguageCounts σ repositories))))
  /\ (forall l, l ∈ languages -> 0 < language_count σ repositories l)
  /\ StronglySorted
       (fun a b => position languageOrder a <= position languageOrder b)
       languages
  /\ (forall a b, a ∈ languages -> b ∉ languages ->
        0 < language_count σ repositories b ->
        position languageOrder a <= position languageOrder b).
Proof.
  assert (getLanguagesForQuickFilters "recently" (<["Rust" := 0]> (<["Go" := 1]> ∅))
            (store_of (Sample.loaded Sample.six))
            (refs_of (Sample.loaded Sample.six)) 2
          = ["Rust"; "Go"]) as <- by (vm_compute; reflexivity).
  apply (getLanguagesForQuickFilters_recently (<["Rust" := 0]> (<["Go" := 1]> ∅))
           (store_of (Sample.loaded Sample.six))
           (refs_of (Sample.loaded Sample.six)) 2).
  - vm_compute. repeat constructor.
  - lia.
Defined.

(** ** The state written by the handlers *)

Section StateFacts.
Variable Date_value : string -> option Z.
Variable localeCompare_base : string -> string -> Z.

Lemma recent_likes_sort (σ : store) (l : list ref) :
  JS.sort (fun a b => comparison Date_value localeCompare_base "recent-likes"
                        (σ a) (σ b)) l
  = JS.sort (fun a b => originalIndex (σ a) - originalIndex (σ b)) l.
Proof.
  apply sort_ext_in. intros a b _ _. unfold comparison. simpl.
  by rewrite !num_or_0_id.
Qed.

Lemma recent_likes_sorted (σ : store) (l : list ref) :
  StronglySorted (before (fun a b => originalIndex (σ a) - originalIndex (σ b)))
    (JS.sort (fun a b => originalIndex (σ a) - originalIndex (σ b)) l).
Proof.
  apply sort_sorted.
  - apply (key_ascending_total (fun r => originalIndex (σ r))).
  - apply (key_ascending_trans (fun r => originalIndex (σ r))).
Qed.

(** Every field of the state that [setState] returns is that of the
    merged state, [filteredRepositories] apart. *)
Lemma sortRepositories_fields st σ :
  exists filtered,
    sortRepositories Date_value localeCompare_base st σ
    = (σ, Ok (with_filteredRepositories st filtered))
    /\ filtered ≡ₚ filteredRepositories st.
Proof.
  eexists. split; [reflexivity|]. apply sort_perm.
Qed.

Lemma bindM_Ok {A B} (m : M A) (k : A -> M B) σ σ' b :
  bindM m k σ = (σ', Ok b) ->
  exists σ1 a, m σ = (σ1, Ok a) /\ k a σ1 = (σ', Ok b).
Proof.
  unfold bindM. destruct (m σ) as [σ1 [a|e]]; [|done]. intros Hk. by exists σ1, a.
Qed.

Lemma updateFilteredRepositories_fields st σ σ' st' :
  updateFilteredRepositories Date_value localeCompare_base st σ = (σ', Ok st') ->
  st' = with_filteredRepositories st (filteredRepositories st').
Proof.
  unfold updateFilteredRepositories.
  intros (σ1 & l1 & _ & (σ2 & l2 & _ & Hsort)%bindM_Ok)%bindM_Ok.
  by injection Hsort as <- <-.
Qed.

Lemma setState_fields st newState σ σ' st' :
  setState Date_value localeCompare_base st newState σ = (σ', Ok st') ->
  st' = with_filteredRepositories (merge_state st newState)
          (filteredRepositories st').
Proof.
  unfold setState. intros (σ1 & st1 & Hupdate & Hsort)%bindM_Ok.
  assert (st1 = with_filteredRepositories (merge_state st newState)
                  (filteredRepositories st1)) as Hst1.
  { destruct (_ || _ || _).
    - by eapply updateFilteredRepositories_fields.
    - injection Hupdate as <- <-. by destruct st, newState. }
  destruct (is_Some_bool (new_sortBy newState)).
  - injection Hsort as <- <-. rewrite Hst1 at 1. done.
  - by injection Hsort as <- <-.
Qed.

Lemma written_fields st newState σ :
  (written Date_value localeCompare_base st newState σ).2
  = with_filteredRepositories (merge_state st newState)
      (filteredRepositories
         (written Date_value localeCompare_base st newState σ).2).
Proof.
  unfold written.
  destruct (setState Date_value localeCompare_base st newState σ)
    as [σ' [st'|e]] eqn:E; simpl.
  - by eapply setState_fields.
  - by destruct st, newState.
Qed.

End StateFacts.

(** X8.  [resetFilters] never throws and leaves the objects as they
    are; the state it writes has an empty search term, no selected
    language, the sort key ['recent-likes'] and the category
    ['recently'], and its [filteredRepositories] are all the
    repositories, in ascending order of [originalIndex], those of equal
    index in the order of [state.repositories]. *)
Theorem resetFilters_all_by_originalIndex
    (Date_value : string -> option Z) (localeCompare_base : string -> string -> Z)
    (st : State) (σ : store) :
  exists filtered,
    resetFilters Date_value localeCompare_base st σ
    = (σ, Ok {| repositories := repositories st;
                filteredRepositories := filtered;
                searchTerm := "";
                selectedLanguage := "";
                sortBy := "recent-likes";
                languageCategory := "recently" |})
    /\ filtered ≡ₚ repositories st
    /\ StronglySorted
         (fun a b => originalIndex (σ a) <= originalIndex (σ b)) filtered
    /\ forall i,
         filter (fun r => originalIndex (σ r) = i) filtered
         = filter (fun r => originalIndex (σ r) = i) (repositories st).
Proof.
  exists (JS.sort (fun a b => originalIndex (σ a) - originalIndex (σ b))
            (repositories st)).
  split; [|split; [apply sort_perm|split]].
  - unfold resetFilters, setState, updateFilteredRepositories, sortRepositories,
      bindM, ret, read. simpl.
    rewrite !recent_likes_sort.
    rewrite (sort_sorted_id _ (JS.sort _ _)) by apply recent_likes_sorted.
    reflexivity.
  - eapply StronglySorted_impl; [|apply recent_likes_sorted].
    intros a b Hab. unfold before in Hab. lia.
  - intros i. apply sort_stable.
    + apply (key_ascending_total (fun r => originalIndex (σ r))).
    + apply (key_ascending_trans (fun r => originalIndex (σ r))).
    + intros a b Ha Hb. unfold before. lia.
Qed.

(** What [updateFilteredRepositories] keeps. *)
Lemma updateFilteredRepositories_passes
    (Date_value : string -> option Z) (localeCompare_base : string -> string -> Z)
    (st st' : State) (σ σ' : store) :
  updateFilteredRepositories Date_value localeCompare_base st σ = (σ', Ok st') ->
  st' = with_filteredRepositories st (filteredRepositories st')
  /\ filteredRepositories st'
     ≡ₚ filter (fun repo => selected st σ repo = true) (repositories st)
  /\ (forall repo, same_fields (σ repo) (σ' repo))
  /\ (searchTerm st = "" -> σ' = σ).
Proof.
  intros Hcall.
  split; [by eapply updateFilteredRepositories_fields|].
  pose proof (frames_updateFilteredRepositories Date_value localeCompare_base
                st σ) as Hframe.
  rewrite Hcall in Hframe. simpl in Hframe.
  unfold updateFilteredRepositories in Hcall.
  apply bindM_Ok in Hcall as (σ1 & l1 & Hsearch & Hcall).
  apply bindM_Ok in Hcall as (σ2 & l2 & Hlang & Hsort).
  unfold sortRepositories, read in Hsort. injection Hsort as <- <-. simpl.
  assert (l1 ≡ₚ filter (fun repo => passes_search st σ repo = true)
                  (repositories st)
          /\ (forall repo, same_fields (σ repo) (σ1 repo))
          /\ (searchTerm st = "" -> σ1 = σ)) as (Hl1 & Hsame & Hstore).
  { unfold passes_search. destruct (truthy_str (searchTerm st)) eqn:Hterm.
    - pose proof (frames_performAdvancedSearch (repositories st)
                    (searchTerm st) σ) as Hf.
      rewrite Hsearch in Hf. simpl in Hf.
      apply truthy_str_spec in Hterm.
      rewrite performAdvancedSearch_unfold in Hsearch by done.
      destruct (filterM _ _ σ) as [σk [kept|e]] eqn:Hkept; [|done].
      injection Hsearch as <- <-.
      destruct (search_pass_ok _ _ _ _ _ Hkept) as (-> & _).
      split; [|split; [intros repo; apply Hf|done]].
      rewrite sort_perm. simpl. done.
    - injection Hsearch as <- <-. simpl.
      split; [by rewrite filter_all|]. split; [by intros repo|done]. }
  assert (σ2 = σ1
          /\ l2 = filter (fun repo => passes_language st σ repo = true) l1)
    as (-> & ->).
  { unfold passes_language. destruct (truthy_str (selectedLanguage st)).
    - unfold language_filter, read in Hlang. injection Hlang as <- <-.
      split; [done|]. simpl. apply filter_ext_in. intros repo _.
      rewrite bool_decide_eq_true.
      destruct (Hsame repo) as (_ & _ & _ & _ & _ & -> & _). done.
    - injection Hlang as <- <-. simpl. by rewrite filter_all. }
  split; [|split; [done|done]].
  rewrite sort_perm, Hl1, list_filter_filter.
  apply Permutation_refl'. apply filter_ext_in. intros repo _.
  unfold selected. rewrite andb_true_iff. tauto.
Qed.

(** X9.  When [updateFilteredRepositories] returns, the state differs
    from the one it started from in [filteredRepositories] alone, which
    holds exactly the repositories of [state.repositories] that pass
    the filters in force, each as often as it occurs there: those the
    search retains, when there is a search term, that are of the
    selected language, when one is selected.  Without a search term the
    objects are not written to. *)
Theorem updateFilteredRepositories_selection
    (Date_value : string -> option Z) (localeCompare_base : string -> string -> Z)
    (st st' : State) (σ σ' : store) :
  updateFilteredRepositories Date_value localeCompare_base st σ = (σ', Ok st') ->
  st' = with_filteredRepositories st (filteredRepositories st')
  /\ filteredRepositories st'
     ≡ₚ filter (fun repo => selected st σ repo = true) (repositories st)
  /\ (forall repo, same_fields (σ repo) (σ' repo))
  /\ (searchTerm st = "" -> σ' = σ).
Proof. apply updateFilteredRepositories_passes. Qed.

Lemma updateFilteredRepositories_selection_witness :
  let objects := Sample.loaded Sample.kit_rs in
  let σ := store_of objects in
  let st := Sample.state_of objects "" "Rust" "recent-likes" in
  let st' := with_filteredRepositories st [1%nat] in
  st' = with_filteredRepositories st (filteredRepositories st')
  /\ filteredRepositories st'
     ≡ₚ filter (fun repo => selected st σ repo = true) (repositories st)
  /\ (forall repo, same_fields (σ repo) (σ repo))
  /\ (searchTerm st = "" -> σ = σ).
Proof.
  apply (updateFilteredRepositories_selection Sample.no_date Sample.no_collation
           (Sample.state_of (Sample.loaded Sample.kit_rs) "" "Rust" "recent-likes")
           (with_filteredRepositories
              (Sample.state_of (Sample.loaded Sample.kit_rs) "" "Rust"
                 "recent-likes") [1%nat])
           (store_of (Sample.loaded Sample.kit_rs))
           (store_of (Sample.loaded Sample.kit_rs))).
  reflexivity.
Defined.

(** ** Searching: blank terms, equal terms, and a repository's own name *)

Lemma is_ws_lower c : is_ws (lower_ascii c) = is_ws c.
Proof. by destruct c as [[] [] [] [] [] [] [] []]. Qed.

Lemma lower_ascii_ws c : is_ws c = true -> lower_ascii c = c.
Proof. by destruct c as [[] [] [] [] [] [] [] []]. Qed.

Lemma split_ws_cons prev s : exists p ps, split_ws prev s = p :: ps.
Proof.
  revert prev. induction s as [|c s IH]; intros prev; simpl; [by eexists _, _|].
  destruct (is_ws c).
  - destruct prev; [apply IH|by eexists _, _].
  - destruct (IH false) as (p & ps & ->). by eexists _, _.
Qed.

(** The pieces that are not empty do not depend on what came before. *)
Lemma split_ws_prev s :
  filter (fun term => term ≠ "") (split_ws true s)
  = filter (fun term => term ≠ "") (split_ws false s).
Proof.
  destruct s as [|c s]; [done|]. simpl. destruct (is_ws c); [|done].
  by rewrite filter_cons_False by (by intros ?).
Qed.

Lemma split_ws_blank prev s :
  all_chars is_ws s = true ->
  filter (fun term => term ≠ "") (split_ws prev s) = [].
Proof.
  revert prev. induction s as [|c s IH]; intros prev; simpl.
  - intros _. by rewrite filter_cons_False by (by intros ?).
  - intros [Hc Hs]%andb_true_iff. rewrite Hc. destruct prev; [by apply IH|].
    rewrite filter_cons_False by (by intros ?). by apply IH.
Qed.

Lemma all_chars_ws_lower s :
  all_chars is_ws (toLowerCase s) = all_chars is_ws s.
Proof. induction s as [|c s IH]; simpl; [done|]. by rewrite is_ws_lower, IH. Qed.

Lemma search_terms_blank searchTerm :
  all_chars is_ws searchTerm = true -> search_terms searchTerm = [].
Proof.
  intros Hblank. unfold search_terms. apply split_ws_blank.
  by rewrite all_chars_ws_lower.
Qed.

Lemma blank_pass l σ :
  exists σ',
    filterM (search_callback []) l σ = (σ', Ok [])
    /\ forall r, σ' r = if decide (r ∈ l) then with_searchScore (σ r) 0 else σ r.
Proof.
  revert σ. induction l as [|repo rest IH]; intros σ.
  - exists σ. split; [done|]. intros r. by rewrite decide_False by apply not_elem_of_nil.
  - rewrite filterM_cons, search_callback_spec. simpl.
    destruct (IH (set_searchScore σ repo 0)) as (σ' & -> & Hσ').
    exists σ'. split; [done|]. intros r. rewrite Hσ'. unfold set_searchScore.
    destruct (decide (r ∈ rest)) as [Hin|Hout],
      (decide (r ∈ repo :: rest)) as [Hin'|Hout'],
      (decide (r = repo)) as [->|Hne];
      first [ done
            | exfalso; apply Hout'; by right
            | exfalso; apply Hout'; by left
            | by apply elem_of_cons in Hin' as [?|?] ].
Qed.

(** X10.  A search term that is not empty but made of white space only
    has no terms: [performAdvancedSearch] then returns the empty array,
    whatever the repositories are, and does not throw even where an
    owner is missing; on its way it sets the [searchScore] of every
    repository it was given to 0. *)
Theorem performAdvancedSearch_blank
    (repositories : list ref) (searchTerm : string) (σ : store) :
  searchTerm <> "" ->
  all_chars is_ws searchTerm = true ->
  exists σ',
    performAdvancedSearch repositories searchTerm σ = (σ', Ok [])
    /\ forall r,
         σ' r = if decide (r ∈ repositories) then with_searchScore (σ r) 0
                else σ r.
Proof.
  intros Hne Hblank. rewrite performAdvancedSearch_unfold by done.
  rewrite (search_terms_blank _ Hblank).
  destruct (blank_pass repositories σ) as (σ' & -> & Hσ').
  by exists σ'.
Qed.

Lemma performAdvancedSearch_blank_witness :
  let σ := store_of (Sample.loaded Sample.kit_rs) in
  exists σ',
    performAdvancedSearch [0; 1]%nat "  " σ = (σ', Ok [])
    /\ forall r,
         σ' r = if decide (r ∈ [0; 1]%nat) then with_searchScore (σ r) 0
                else σ r.
Proof.
  apply (performAdvancedSearch_blank [0; 1]%nat "  "
           (store_of (Sample.loaded Sample.kit_rs))).
  - discriminate.
  - reflexivity.
Defined.

Section TrimFacts.

Lemma toLowerCase_trimStart s :
  toLowerCase (trimStart s) = trimStart (toLowerCase s).
Proof.
  induction s as [|c s IH]; simpl; [done|]. rewrite is_ws_lower.
  by destruct (is_ws c).
Qed.

Lemma toLowerCase_trimEnd s :
  toLowerCase (trimEnd s) = trimEnd (toLowerCase s).
Proof.
  induction s as [|c s IH]; simpl; [done|]. rewrite <- IH, is_ws_lower.
  destruct (trimEnd s); simpl; [by destruct (is_ws c)|done].
Qed.

Lemma toLowerCase_trim s : toLowerCase (trim s) = trim (toLowerCase s).
Proof. unfold trim. by rewrite toLowerCase_trimEnd, toLowerCase_trimStart. Qed.

Lemma split_ws_trimStart prev s :
  filter (fun term => term ≠ "") (split_ws prev (trimStart s))
  = filter (fun term => term ≠ "") (split_ws prev s).
Proof.
  induction s as [|c s IH]; [done|]. simpl.
  destruct (is_ws c) eqn:Hc; [|by simpl; rewrite Hc].
  rewrite IH. destruct prev.
  - done.
  - rewrite filter_cons_False by (by intros ?). by rewrite split_ws_prev.
Qed.

Lemma split_ws_trimEnd prev s :
  exists p ps ps',
    split_ws prev (trimEnd s) = p :: ps
    /\ split_ws prev s = p :: ps'
    /\ filter (fun term => term ≠ "") ps = filter (fun term => term ≠ "") ps'.
Proof.
  revert prev. induction s as [|c s IH]; intros prev.
  { by exists "", [], []. }
  simpl. destruct (trimEnd s) as [|d t] eqn:Ht.
  - destruct (is_ws c) eqn:Hc.
    + destruct (IH true) as (p & ps & ps' & Hp & -> & Hf).
      simpl in Hp. injection Hp as <- <-.
      destruct prev; [by exists "", [], ps'|].
      exists "", [], ("" :: ps'). split; [done|]. split; [done|].
      by rewrite filter_cons_False by (by intros ?).
    + destruct (IH false) as (p & ps & ps' & Hp & -> & Hf).
      simpl in Hp. injection Hp as <- <-.
      simpl. rewrite Hc. by exists (String c ""), [], ps'.
  - destruct (is_ws c) eqn:Hc.
    + destruct (IH true) as (p & ps & ps' & Hp & Hs & Hf).
      change (split_ws prev (String c (String d t)))
        with (if is_ws c
              then if prev then split_ws true (String d t)
                   else "" :: split_ws true (String d t)
              else match split_ws false (String d t) with
                   | p :: ps => String c p :: ps
                   | [] => [String c ""]
                   end).
      rewrite Hc, Hp, Hs. destruct prev; [by exists p, ps, ps'|].
      exists "", (p :: ps), (p :: ps'). split; [done|]. split; [done|].
      rewrite !filter_cons. by rewrite Hf.
    + destruct (IH false) as (p & ps & ps' & Hp & Hs & Hf).
      change (split_ws prev (String c (String d t)))
        with (if is_ws c
              then if prev then split_ws true (String d t)
                   else "" :: split_ws true (String d t)
              else match split_ws false (String d t) with
                   | p :: ps => String c p :: ps
                   | [] => [String c ""]
                   end).
      rewrite Hc, Hp, Hs. by exists (String c p), ps, ps'.
Qed.

Lemma search_terms_trim s : search_terms (trim s) = search_terms s.
Proof.
  unfold search_terms. rewrite toLowerCase_trim. unfold trim.
  destruct (split_ws_trimEnd false (trimStart (toLowerCase s)))
    as (p & ps & ps' & -> & Hs & Hf).
  rewrite <- split_ws_trimStart, Hs, !filter_cons. by rewrite Hf.
Qed.

Lemma search_terms_toLowerCase s : search_terms (toLowerCase s) = search_terms s.
Proof. unfold search_terms. by rewrite toLowerCase_idempotent. Qed.

Lemma trimStart_nonempty s : trimStart s <> "" -> s <> "".
Proof. by destruct s. Qed.

Lemma trim_nonempty s : trim s <> "" -> s <> "".
Proof.
  unfold trim. intros Hne. apply trimStart_nonempty. intros Heq.
  by rewrite Heq in Hne.
Qed.

Lemma toLowerCase_nonempty s : s <> "" -> toLowerCase s <> "".
Proof. by destruct s. Qed.

End TrimFacts.

Lemma performAdvancedSearch_same_terms repositories s1 s2 σ :
  s1 <> "" -> s2 <> "" -> search_terms s1 = search_terms s2 ->
  performAdvancedSearch repositories s1 σ = performAdvancedSearch repositories s2 σ.
Proof.
  intros H1 H2 Hterms. rewrite !performAdvancedSearch_unfold by done.
  by rewrite Hterms.
Qed.

(** X11.  The search reads its term through the terms alone: a term
    that is not blank gives the same result, and the same scores, as
    its trimmed form, which is what [handleSearch] stores, and as its
    lower-case form. *)
Theorem performAdvancedSearch_trim_and_case
    (repositories : list ref) (searchTerm : string) (σ : store) :
  trim searchTerm <> "" ->
  performAdvancedSearch repositories (trim searchTerm) σ
  = performAdvancedSearch repositories searchTerm σ
  /\ performAdvancedSearch repositories (toLowerCase searchTerm) σ
     = performAdvancedSearch repositories searchTerm σ.
Proof.
  intros Hne. pose proof (trim_nonempty _ Hne) as Hne'. split.
  - apply performAdvancedSearch_same_terms; [done|done|apply search_terms_trim].
  - apply performAdvancedSearch_same_terms;
      [by apply toLowerCase_nonempty|done|apply search_terms_toLowerCase].
Qed.

Lemma performAdvancedSearch_trim_and_case_witness :
  let σ := store_of (Sample.loaded Sample.xy) in
  performAdvancedSearch [0; 1]%nat (trim "  Go OCTO ") σ
  = performAdvancedSearch [0; 1]%nat "  Go OCTO " σ
  /\ performAdvancedSearch [0; 1]%nat (toLowerCase "  Go OCTO ") σ
     = performAdvancedSearch [0; 1]%nat "  Go OCTO " σ.
Proof.
  apply (performAdvancedSearch_trim_and_case [0; 1]%nat "  Go OCTO "
           (store_of (Sample.loaded Sample.xy))).
  discriminate.
Defined.

Example trim_ex :
  trim "  Go OCTO " = "Go OCTO" /\ trim "   " = "" /\ trim "x" = "x".
Proof. by vm_compute. Qed.

Lemma split_ws_one s :
  all_chars (fun c => negb (is_ws c)) s = true -> split_ws false s = [s].
Proof.
  induction s as [|c s IH]; simpl; [done|].
  intros [Hc Hs]%andb_true_iff. apply negb_true_iff in Hc.
  by rewrite Hc, IH.
Qed.

Lemma toLowerCase_no_ws s :
  all_chars (fun c => negb (is_ws c)) s = true ->
  all_chars (fun c => negb (is_ws c)) (toLowerCase s) = true.
Proof.
  induction s as [|c s IH]; simpl; [done|].
  intros [Hc Hs]%andb_true_iff. by rewrite is_ws_lower, Hc, IH.
Qed.

Lemma search_terms_one s :
  s <> "" -> all_chars (fun c => negb (is_ws c)) s = true ->
  search_terms s = [toLowerCase s].
Proof.
  intros Hne Hs. unfold search_terms.
  rewrite split_ws_one by (by apply toLowerCase_no_ws).
  rewrite filter_cons_True; [done|]. by apply toLowerCase_nonempty.
Qed.

Lemma prefix_app a b : String.prefix a (a ++ b) = true.
Proof.
  induction a as [|c a IH]; simpl; [apply prefix_nil_l|].
  by apply prefix_cons.
Qed.

Lemma includes_prefix s t : String.prefix t s = true -> includes s t = true.
Proof. intros Hpre. destruct s; cbn [includes]; by rewrite Hpre. Qed.

Lemma includes_app_l a b : includes (a ++ b) a = true.
Proof. apply includes_prefix, prefix_app. Qed.

Lemma append_empty_r s : (s ++ "")%string = s.
Proof. induction s as [|c s IH]; [done|]. change (String c (s ++ "") = String c s). by rewrite IH. Qed.

Lemma join_space_cons x xs : exists tail, join_space (x :: xs) = (x ++ tail)%string.
Proof.
  unfold join_space. destruct xs as [|y ys]; simpl.
  - exists "". by rewrite append_empty_r.
  - by eexists.
Qed.

(** The search text of a normalized record starts with its name. *)
Lemma searchText_name now_created now_updated i record :
  valid_entry (Some record) = true ->
  includes (searchText (normalize now_created now_updated i record))
    (toLowerCase (name (normalize now_created now_updated i record))) = true
  /\ name (normalize now_created now_updated i record) <> "".
Proof.
  unfold valid_entry. intros [_ Hname]%andb_true_iff. simpl.
  unfold createSearchText. destruct (raw_name record) as [n|]; [|done].
  simpl in *. rewrite Hname.
  split; [|by apply truthy_str_spec].
  match goal with
  | |- context [join_space (n :: ?rest)] =>
      destruct (join_space_cons n rest) as [tail ->]
  end.
  rewrite toLowerCase_app. apply includes_app_l.
Qed.

Lemma score_term_name repo score term score' :
  score_term repo score term = Ok score' ->
  includes (toLowerCase (name repo)) term = true ->
  score + 10 <= score'.
Proof.
  unfold score_term. intros Hscore Hname. rewrite Hname in Hscore.
  destruct (owner_login_lower repo) as [l|]; [|done].
  injection Hscore as <-.
  repeat match goal with |- context [if ?b then _ else _] => destruct b end; lia.
Qed.

(** X12.  A repository is found by its own name: for a repository made
    by [processRepositoryData] whose name has no white space, the
    search for that name, in any array that holds it and in which
    every repository has an owner login, returns an array that holds
    it, with a score of at least 10. *)
Theorem performAdvancedSearch_finds_by_name
    (now_created now_updated : nat -> string)
    (repositories : list ref) (σ : store) (repo : ref)
    (i : nat) (record : RawRepository) :
  σ repo = normalize now_created now_updated i record ->
  valid_entry (Some record) = true ->
  all_chars (fun c => negb (is_ws c)) (name (σ repo)) = true ->
  repo ∈ repositories ->
  (forall r, r ∈ repositories -> is_Some (owner (σ r) ≫= login)) ->
  exists σ' out,
    performAdvancedSearch repositories (name (σ repo)) σ = (σ', Ok out)
    /\ repo ∈ out
    /\ 10 <= searchScore_or_0 (σ' repo).
Proof.
  intros Hrepo Hvalid Hws Hin Hown.
  destruct (searchText_name now_created now_updated i record Hvalid)
    as [Htext Hne].
  rewrite <- Hrepo in Htext, Hne.
  destruct (performAdvancedSearch_returns repositories (name (σ repo)) σ Hown)
    as (σ' & out & Hcall).
  exists σ', out. split; [done|].
  rewrite performAdvancedSearch_unfold in Hcall by done.
  destruct (filterM _ _ σ) as [σk [kept|e]] eqn:Hkept; [|done].
  injection Hcall as <- <-.
  destruct (search_pass_ok _ _ _ _ _ Hkept) as (-> & Hscore & _).
  rewrite (search_terms_one _ Hne Hws) in *.
  assert (hasAllTerms (searchText (σ repo)) [toLowerCase (name (σ repo))] = true)
    as Hall by (simpl; by rewrite Htext).
  destruct (Hscore repo Hin Hall) as (score & Hterms & Hstored).
  assert (10 <= score) as Hten.
  { simpl in Hterms.
    destruct (score_term (σ repo) 0 (toLowerCase (name (σ repo))))
      as [s|] eqn:Hs; [|done].
    injection Hterms as <-.
    pose proof (score_term_name _ _ _ _ Hs) as Hge.
    rewrite <- (append_empty_r (toLowerCase (name (σ repo)))) in Hge at 1.
    rewrite includes_app_l in Hge. lia. }
  split.
  - apply sort_elem_of, list_elem_of_filter. split; [|done].
    unfold retained. rewrite Hall, Hterms. simpl. apply Z.ltb_lt. lia.
  - unfold searchScore_or_0. rewrite Hstored. simpl.
    unfold truthy_num. destruct (Z.eqb_spec score 0); simpl; lia.
Qed.

Lemma performAdvancedSearch_finds_by_name_witness :
  let σ := store_of [normalize Sample.now Sample.now 0 Sample.hello] in
  exists σ' out,
    performAdvancedSearch [0%nat] (name (σ 0%nat)) σ = (σ', Ok out)
    /\ 0%nat ∈ out
    /\ 10 <= searchScore_or_0 (σ' 0%nat).
Proof.
  apply (performAdvancedSearch_finds_by_name Sample.now Sample.now [0%nat]
           (store_of [normalize Sample.now Sample.now 0 Sample.hello])
           0%nat 0%nat Sample.hello).
  - reflexivity.
  - reflexivity.
  - reflexivity.
  - by left.
  - intros r ->%list_elem_of_singleton. by eexists.
Defined.

(** ** The search box: trimming and the debounce timer *)

Section TrimIdempotent.

Lemma trimStart_starts s : starts_without_ws (trimStart s).
Proof.
  induction s as [|c s IH]; simpl; [done|].
  destruct (is_ws c) eqn:Hc; [done|]. by simpl.
Qed.

Lemma trimStart_fixed s : starts_without_ws s -> trimStart s = s.
Proof. destruct s as [|c s]; simpl; [done|]. by intros ->. Qed.

Lemma trimEnd_starts s : starts_without_ws s -> starts_without_ws (trimEnd s).
Proof.
  destruct s as [|c s]; simpl; [done|]. intros Hc.
  destruct (trimEnd s); simpl; [by rewrite Hc|done].
Qed.

Lemma trimEnd_idempotent s : trimEnd (trimEnd s) = trimEnd s.
Proof.
  induction s as [|c s IH]; simpl; [done|].
  destruct (trimEnd s) as [|d t] eqn:Ht.
  - destruct (is_ws c) eqn:Hc; simpl; [done|by rewrite Hc].
  - change (trimEnd (String c (String d t)))
      with (match trimEnd (String d t) with
            | EmptyString => if is_ws c then EmptyString else String c EmptyString
            | String e u => String c (String e u)
            end).
    by rewrite IH.
Qed.

Lemma trim_idempotent s : trim (trim s) = trim s.
Proof.
  unfold trim.
  rewrite (trimStart_fixed (trimEnd (trimStart s)))
    by apply trimEnd_starts, trimStart_starts.
  apply trimEnd_idempotent.
Qed.

Lemma trimEnd_blank s : all_chars is_ws s = true -> trimEnd s = "".
Proof.
  induction s as [|c s IH]; simpl; [done|].
  intros [Hc Hs]%andb_true_iff. by rewrite (IH Hs), Hc.
Qed.

Lemma trimStart_blank s : all_chars is_ws s = true -> trimStart s = "".
Proof.
  induction s as [|c s IH]; simpl; [done|].
  intros [Hc Hs]%andb_true_iff. rewrite Hc. by apply IH.
Qed.

Lemma trim_blank s : all_chars is_ws s = true -> trim s = "".
Proof. intros Hs. unfold trim. by rewrite (trimStart_blank s Hs). Qed.

Lemma split_ws_all_empty prev s :
  filter (fun term => term ≠ "") (split_ws prev s) = [] ->
  all_chars is_ws s = true.
Proof.
  revert prev. induction s as [|c s IH]; intros prev; simpl; [done|].
  destruct (is_ws c) eqn:Hc.
  - destruct prev; [apply IH|].
    rewrite filter_cons_False by (by intros ?). apply IH.
  - destruct (split_ws_cons false s) as (p & ps & ->).
    by rewrite filter_cons_True.
Qed.

Lemma search_terms_nonempty s :
  trim s = s -> s <> "" -> search_terms s <> [].
Proof.
  intros Htrim Hne Hterms. apply Hne. rewrite <- Htrim. apply trim_blank.
  rewrite <- all_chars_ws_lower. by eapply split_ws_all_empty.
Qed.

End TrimIdempotent.

Section MachineFacts.
Variable Date_value : string -> option Z.
Variable localeCompare_base : string -> string -> Z.

Local Abbreviation handle_event := (handle Date_value localeCompare_base).
Local Abbreviation run_events := (run Date_value localeCompare_base).

Lemma written_searchTerm st newState σ σ' st' :
  written Date_value localeCompare_base st newState σ = (σ', st') ->
  searchTerm st' = default (searchTerm st) (new_searchTerm newState).
Proof.
  intros Hw.
  pose proof (written_fields Date_value localeCompare_base st newState σ) as Hf.
  rewrite Hw in Hf. simpl in Hf. by rewrite Hf.
Qed.

Lemma run_app events1 events2 app σ :
  run_events (events1 ++ events2) app σ
  = run_events events2 (run_events events1 app σ).2 (run_events events1 app σ).1.
Proof.
  revert app σ. induction events1 as [|e rest IH]; intros app σ; simpl; [done|].
  destruct (handle_event app e σ) as [σ' app']. apply IH.
Qed.

(** What an event does to the search term and to the timer. *)
Lemma handle_search app e σ :
  let app' := (handle_event app e σ).2 in
  match e with
  | Input s =>
      if decide (trim s = "") then
        searchTerm (state app') = "" /\ debounceTimer app' = None
      else
        (handle_event app e σ).1 = σ
        /\ state app' = state app /\ debounceTimer app' = Some s
  | TimerFires =>
      match debounceTimer app with
      | Some s => searchTerm (state app') = trim s /\ debounceTimer app' = None
      | None => (handle_event app e σ).1 = σ /\ app' = app
      end
  | ClearSearch | ResetFilters =>
      searchTerm (state app') = "" /\ debounceTimer app' = debounceTimer app
  | LanguageFilter _ | Sort _ | Categorize _ =>
      searchTerm (state app') = searchTerm (state app)
      /\ debounceTimer app' = debounceTimer app
  end.
Proof.
  destruct e as [s| | | | | |]; cbn [handle].
  - destruct (decide (trim s = "")) as [Hblank|Hterm].
    + rewrite Hblank. cbn [String.eqb].
      destruct (written _ _ _ _ _) as [σ' st'] eqn:Hw. simpl.
      by rewrite (written_searchTerm _ _ _ _ _ Hw).
    + apply String.eqb_neq in Hterm. by rewrite Hterm.
  - destruct (debounceTimer app) as [s|]; [|done].
    destruct (written _ _ _ _ _) as [σ' st'] eqn:Hw. simpl.
    by rewrite (written_searchTerm _ _ _ _ _ Hw).
  - destruct (written _ _ _ _ _) as [σ' st'] eqn:Hw. simpl.
    by rewrite (written_searchTerm _ _ _ _ _ Hw).
  - destruct (written _ _ _ _ _) as [σ' st'] eqn:Hw. simpl.
    by rewrite (written_searchTerm _ _ _ _ _ Hw).
  - destruct (written _ _ _ _ _) as [σ' st'] eqn:Hw. simpl.
    by rewrite (written_searchTerm _ _ _ _ _ Hw).
  - destruct (written _ _ _ _ _) as [σ' st'] eqn:Hw. simpl.
    by rewrite (written_searchTerm _ _ _ _ _ Hw).
  - destruct (written _ _ _ _ _) as [σ' st'] eqn:Hw. simpl.
    by rewrite (written_searchTerm _ _ _ _ _ Hw).
Qed.

Lemma handle_trimmed app e σ :
  (trim (searchTerm (state app)) = searchTerm (state app)) ->
  trim (searchTerm (state (handle_event app e σ).2))
  = searchTerm (state (handle_event app e σ).2).
Proof.
  intros Htrim. pose proof (handle_search app e σ) as H. cbv zeta in H.
  destruct e as [s| | | | | |].
  - destruct (decide (trim s = "")).
    + destruct H as [-> _]. done.
    + destruct H as (_ & -> & _). done.
  - destruct (debounceTimer app) as [s|].
    + destruct H as [-> _]. apply trim_idempotent.
    + destruct H as [_ ->]. done.
  - destruct H as [-> _]. done.
  - destruct H as [-> _]. done.
  - destruct H as [-> _]. done.
  - destruct H as [-> _]. done.
  - destruct H as [-> _]. done.
Qed.

Lemma run_trimmed events app σ :
  (trim (searchTerm (state app)) = searchTerm (state app)) ->
  trim (searchTerm (state (run_events events app σ).2))
  = searchTerm (state (run_events events app σ).2).
Proof.
  revert app σ. induction events as [|e rest IH]; intros app σ Htrim; simpl;
    [done|].
  pose proof (handle_trimmed app e σ Htrim) as Hstep.
  destruct (handle_event app e σ) as [σ' app']. by apply IH.
Qed.

(** Typing without a pause: no search runs and the timer holds the
    last input. *)
Lemma run_typing typed app σ :
  Forall (fun s => trim s <> "") typed ->
  run_events (Input <$> typed) app σ
  = (σ, {| state := state app;
           debounceTimer := match last typed with
                            | Some s => Some s
                            | None => debounceTimer app
                            end |}).
Proof.
  revert app. induction typed as [|s rest IH]; intros app Hall; simpl.
  - by destruct app.
  - apply Forall_cons in Hall as [Hs Hrest].
    apply String.eqb_neq in Hs. rewrite Hs.
    rewrite (IH _ Hrest). simpl. destruct rest as [|r rest]; [done|].
    change (last (s :: r :: rest)) with (last (r :: rest)).
    destruct (last (r :: rest)) eqn:Hlast; [done|].
    by apply last_None in Hlast.
Qed.

(** The controls other than the search box leave the timer pending. *)
Lemma run_pending events app σ :
  forallb (fun e => negb (search_event e)) events = true ->
  debounceTimer (run_events events app σ).2 = debounceTimer app.
Proof.
  revert app σ. induction events as [|e rest IH]; intros app σ Hall; simpl;
    [done|].
  apply andb_true_iff in Hall as [He Hrest].
  pose proof (handle_search app e σ) as H. cbv zeta in H.
  destruct (handle_event app e σ) as [σ' app'] eqn:Hstep. simpl in H.
  rewrite (IH _ _ Hrest).
  by destruct e; try done; destruct H as [_ ->].
Qed.

End MachineFacts.

(** X13.  Whatever the user does, the search term of the state stays
    trimmed: if it equals its own [trim()] before a sequence of events
    (typing, the timer firing, clearing, filtering, sorting,
    categorizing, resetting), it does so after it, also when a handler
    throws on the way; and a trimmed search term that is not empty has
    at least one term, so that the search never runs on a blank term. *)
Theorem handlers_keep_searchTerm_trimmed
    (Date_value : string -> option Z) (localeCompare_base : string -> string -> Z)
    (events : list event) (app : App) (σ : store) :
  trim (searchTerm (state app)) = searchTerm (state app) ->
  let app' := (run Date_value localeCompare_base events app σ).2 in
  trim (searchTerm (state app')) = searchTerm (state app')
  /\ (searchTerm (state app') <> "" ->
      search_terms (searchTerm (state app')) <> []).
Proof.
  intros Htrim app'.
  pose proof (run_trimmed Date_value localeCompare_base events app σ Htrim)
    as Htrim'.
  split; [done|]. by apply search_terms_nonempty.
Qed.

Lemma handlers_keep_searchTerm_trimmed_witness :
  let σ := store_of (Sample.loaded Sample.xy) in
  let app := {| state := Sample.state_of (Sample.loaded Sample.xy) "" ""
                           "recent-likes";
                debounceTimer := None |} in
  let app' := (run Sample.no_date Sample.no_collation
                 [Input " go "; Sort "stars"; TimerFires] app σ).2 in
  trim (searchTerm (state app')) = searchTerm (state app')
  /\ (searchTerm (state app') <> "" ->
      search_terms (searchTerm (state app')) <> []).
Proof.
  apply (handlers_keep_searchTerm_trimmed Sample.no_date Sample.no_collation
           [Input " go "; Sort "stars"; TimerFires]
           {| state := Sample.state_of (Sample.loaded Sample.xy) "" ""
                         "recent-likes";
              debounceTimer := None |}
           (store_of (Sample.loaded Sample.xy))).
  reflexivity.
Defined.

(** X14.  The debounce of [handleSearch]: while the user types terms
    that are not blank, no search runs, the state and the objects stay
    as they are, and the timer holds the last input alone; and when
    the timer fires after a burst of inputs, the search term of the
    state is the trimmed last input, whatever was typed before it, and
    no timer is left pending. *)
Theorem handleSearch_debounce
    (Date_value : string -> option Z) (localeCompare_base : string -> string -> Z)
    (typed : list string) (searchTerm' : string) (app : App) (σ : store) :
  (Forall (fun s => trim s <> "") typed ->
   run Date_value localeCompare_base (Input <$> typed) app σ
   = (σ, {| state := state app;
            debounceTimer := match last typed with
                             | Some s => Some s
                             | None => debounceTimer app
                             end |}))
  /\ searchTerm
       (state (run Date_value localeCompare_base
                 ((Input <$> typed) ++ [Input searchTerm'; TimerFires])%list
                 app σ).2)
     = trim searchTerm'
  /\ debounceTimer
       (run Date_value localeCompare_base
          ((Input <$> typed) ++ [Input searchTerm'; TimerFires])%list app σ).2
     = None.
Proof.
  split; [apply run_typing|].
  rewrite run_app.
  set (app1 := (run _ _ (Input <$> typed) app σ).2).
  set (σ1 := (run _ _ (Input <$> typed) app σ).1).
  cbn [run].
  pose proof (handle_search Date_value localeCompare_base app1
                (Input searchTerm') σ1) as H1. cbv zeta in H1.
  destruct (handle _ _ app1 (Input searchTerm') σ1) as [σ2 app2]. simpl in H1.
  pose proof (handle_search Date_value localeCompare_base app2 TimerFires σ2)
    as H2. cbv zeta in H2.
  destruct (handle _ _ app2 TimerFires σ2) as [σ3 app3]. simpl in H2. simpl.
  destruct (decide (trim searchTerm' = "")) as [Hblank|Hterm].
  - destruct H1 as [Hs Ht]. rewrite Ht in H2. destruct H2 as [_ ->].
    by rewrite Hblank.
  - destruct H1 as (_ & _ & Ht). rewrite Ht in H2. done.
Qed.

(** X15.  Clearing the search, resetting the filters, filtering,
    sorting and categorizing do not cancel a pending search: once a
    term that is not blank has been typed, whichever of these controls
    are used before the timer fires, the timer then stores the trimmed
    term as the search term of the state. *)
Theorem pending_search_survives_other_controls
    (Date_value : string -> option Z) (localeCompare_base : string -> string -> Z)
    (searchTerm' : string) (events : list event) (app : App) (σ : store) :
  trim searchTerm' <> "" ->
  forallb (fun e => negb (search_event e)) events = true ->
  let app' :=
    (run Date_value localeCompare_base
       (Input searchTerm' :: events ++ [TimerFires])%list app σ).2 in
  searchTerm (state app') = trim searchTerm'
  /\ debounceTimer app' = None.
Proof.
  intros Hterm Hothers. cbv zeta. cbn [run].
  pose proof (handle_search Date_value localeCompare_base app
                (Input searchTerm') σ) as H1. cbv zeta in H1.
  destruct (handle _ _ app (Input searchTerm') σ) as [σ1 app1]. simpl in H1.
  rewrite decide_False in H1 by done. destruct H1 as (_ & _ & Ht).
  rewrite run_app.
  pose proof (run_pending Date_value localeCompare_base events app1 σ1 Hothers)
    as Hpending.
  set (app2 := (run _ _ events app1 σ1).2) in *.
  set (σ2 := (run _ _ events app1 σ1).1).
  cbn [run].
  pose proof (handle_search Date_value localeCompare_base app2 TimerFires σ2)
    as H2. cbv zeta in H2.
  destruct (handle _ _ app2 TimerFires σ2) as [σ3 app3]. simpl in H2. simpl.
  by rewrite Hpending, Ht in H2.
Qed.

Lemma pending_search_survives_other_controls_witness :
  let σ := store_of (Sample.loaded Sample.xy) in
  let app := {| state := Sample.state_of (Sample.loaded Sample.xy) "" ""
                           "recent-likes";
                debounceTimer := None |} in
  let app' :=
    (run Sample.no_date Sample.no_collation
       (Input "go " :: [ClearSearch; ResetFilters] ++ [TimerFires])%list app σ).2 in
  searchTerm (state app') = trim "go "
  /\ debounceTimer app' = None.
Proof.
  apply (pending_search_survives_other_controls Sample.no_date
           Sample.no_collation "go " [ClearSearch; ResetFilters]
           {| state := Sample.state_of (Sample.loaded Sample.xy) "" ""
                         "recent-likes";
              debounceTimer := None |}
           (store_of (Sample.loaded Sample.xy))).
  - discriminate.
  - reflexivity.
Defined.

(** ** Sorting twice *)

Section SortTwice.
Variable Date_value : string -> option Z.
Variable localeCompare_base : string -> string -> Z.

Hypothesis collation_total :
  forall a b, localeCompare_base a b <= 0 \/ localeCompare_base b a <= 0.
Hypothesis collation_trans :
  forall a b c, localeCompare_base a b <= 0 -> localeCompare_base b c <= 0 ->
                localeCompare_base a c <= 0.

(** On repositories whose timestamps are valid the comparator of each
    key is that of a total preorder. *)
Lemma comparison_preorder sortBy :
  exists cmp' : Repository -> Repository -> Z,
    (forall a b, dated Date_value sortBy a -> dated Date_value sortBy b ->
       comparison Date_value localeCompare_base sortBy a b = cmp' a b)
    /\ (forall a b, before cmp' a b \/ before cmp' b a)
    /\ (forall a b c, before cmp' a b -> before cmp' b c -> before cmp' a c).
Proof.
  unfold comparison, dated.
  destruct (String.eqb_spec sortBy "stars") as [->|?].
  { exists (fun a b => stargazers_count b - stargazers_count a).
    unfold before. simpl. repeat split; intros; lia. }
  destruct (String.eqb_spec sortBy "recent-likes") as [->|?].
  { exists (fun a b => originalIndex a - originalIndex b).
    unfold before. simpl. setoid_rewrite num_or_0_id.
    repeat split; intros; lia. }
  destruct (String.eqb_spec sortBy "stars-asc") as [->|?].
  { exists (fun a b => stargazers_count a - stargazers_count b).
    unfold before. simpl. repeat split; intros; lia. }
  destruct (String.eqb_spec sortBy "name") as [->|?].
  { exists (fun a b => localeCompare_base (name a) (name b)).
    unfold before. simpl. repeat split; intros; eauto. }
  destruct (String.eqb_spec sortBy "name-desc") as [->|?].
  { exists (fun a b => localeCompare_base (name b) (name a)).
    unfold before. simpl. repeat split; intros; eauto. }
  destruct (String.eqb_spec sortBy "updated") as [->|?].
  { exists (fun a b => time Date_value (updated_at b) - time Date_value (updated_at a)).
    unfold before. simpl. split; [|split]; try (intros; lia).
    intros a b [Ha _] [Hb _].
    by apply date_difference_valid; [apply Ha|apply Hb]. }
  destruct (String.eqb_spec sortBy "created") as [->|?].
  { exists (fun a b => time Date_value (created_at b) - time Date_value (created_at a)).
    unfold before. simpl. split; [|split]; try (intros; lia).
    intros a b [_ Ha] [_ Hb].
    by apply date_difference_valid; [apply Ha|apply Hb]. }
  exists (fun a b => stargazers_count b - stargazers_count a).
  unfold before. repeat split; intros; lia.
Qed.

Lemma sort_comparison_twice sortBy (σ : store) (l : list ref) :
  (forall r, r ∈ l -> dated Date_value sortBy (σ r)) ->
  JS.sort (fun a b => comparison Date_value localeCompare_base sortBy (σ a) (σ b))
    (JS.sort (fun a b => comparison Date_value localeCompare_base sortBy
                           (σ a) (σ b)) l)
  = JS.sort (fun a b => comparison Date_value localeCompare_base sortBy
                          (σ a) (σ b)) l.
Proof.
  intros Hdated.
  destruct (comparison_preorder sortBy) as (cmp' & Hagree & Htotal & Htrans).
  set (cmp := fun a b => comparison _ _ sortBy (σ a) (σ b)).
  assert (forall a b, a ∈ l -> b ∈ l -> cmp a b = cmp' (σ a) (σ b)) as Hext.
  { intros a b Ha Hb. apply Hagree; by apply Hdated. }
  rewrite (sort_ext_in cmp (fun a b => cmp' (σ a) (σ b)) l Hext).
  rewrite (sort_ext_in cmp (fun a b => cmp' (σ a) (σ b))).
  - apply sort_sorted_id, sort_sorted.
    + intros a b. apply Htotal.
    + intros a b c. apply Htrans.
  - intros a b Ha%sort_elem_of Hb%sort_elem_of. by apply Hext.
Qed.

End SortTwice.

(** X16.  Sorting is idempotent: under a collation that is a total
    preorder, and for the two date keys on repositories whose
    timestamp is a valid date, [sortRepositories] applied to the state
    it has just returned returns that state again. *)
Theorem sortRepositories_idempotent
    (Date_value : string -> option Z) (localeCompare_base : string -> string -> Z)
    (st st1 : State) (σ σ1 : store) :
  (forall a b, localeCompare_base a b <= 0 \/ localeCompare_base b a <= 0) ->
  (forall a b c, localeCompare_base a b <= 0 -> localeCompare_base b c <= 0 ->
                 localeCompare_base a c <= 0) ->
  (forall r, r ∈ filteredRepositories st -> dated Date_value (sortBy st) (σ r)) ->
  sortRepositories Date_value localeCompare_base st σ = (σ1, Ok st1) ->
  sortRepositories Date_value localeCompare_base st1 σ1 = (σ1, Ok st1).
Proof.
  intros Htotal Htrans Hdated. unfold sortRepositories, read.
  intros [= <- <-]. simpl.
  by rewrite (sort_comparison_twice Date_value localeCompare_base Htotal Htrans).
Qed.

Lemma sortRepositories_idempotent_witness :
  let objects := Sample.loaded Sample.fruits in
  let σ := store_of objects in
  let st1 := with_filteredRepositories (Sample.state_of objects "" "" "name")
               [0; 1; 2]%nat in
  sortRepositories Sample.date_value Sample.collation st1 σ = (σ, Ok st1).
Proof.
  apply (sortRepositories_idempotent Sample.date_value Sample.collation
           (Sample.state_of (Sample.loaded Sample.fruits) "" "" "name")
           (with_filteredRepositories
              (Sample.state_of (Sample.loaded Sample.fruits) "" "" "name")
              [0; 1; 2]%nat)
           (store_of (Sample.loaded Sample.fruits))
           (store_of (Sample.loaded Sample.fruits))).
  - apply collation_total.
  - apply collation_trans.
  - intros r _. split; discriminate.
  - reflexivity.
Defined.

(** ** Rendering helpers *)

Lemma div_at_least_1 d s : 0 < s -> (1 <=? d / s) = (s <=? d).
Proof.
  intros Hs. destruct (Z.leb_spec s d) as [Hle|Hlt].
  - apply Z.leb_le. apply Z.div_le_lower_bound; lia.
  - apply Z.leb_gt. apply Z.div_lt_upper_bound; lia.
Qed.

Lemma elem_of_intervals label seconds :
  (label, seconds) ∈ intervals <->
  (label = "year" /\ seconds = 31536000)
  \/ (label = "month" /\ seconds = 2592000)
  \/ (label = "day" /\ seconds = 86400)
  \/ (label = "hour" /\ seconds = 3600)
  \/ (label = "minute" /\ seconds = 60).
Proof.
  unfold intervals. rewrite !elem_of_cons, elem_of_nil.
  split.
  - intros [[= -> ->]|[[= -> ->]|[[= -> ->]|[[= -> ->]|[[= -> ->]|[]]]]]]; tauto.
  - intros [[-> ->]|[[-> ->]|[[-> ->]|[[-> ->]|[-> ->]]]]]; tauto.
Qed.

(** X17.  [getRelativeTime] answers ['Just now'] for an invalid date,
    for a date in the future and for one less than a minute old.
    Otherwise it counts the age in the largest of the units year (365
    days), month (30 days), day, hour and minute that the age reaches:
    the count is the whole number of such units, at least 1, at most 12
    months, 29 days, 23 hours or 59 minutes, and the unit takes an [s]
    unless the count is 1. *)
Theorem getRelativeTime_unit (now date : Z) :
  let diffInSeconds := (now - date) / 1000 in
  getRelativeTime now None = "Just now"
  /\ (diffInSeconds < 60 -> getRelativeTime now (Some date) = "Just now")
  /\ (60 <= diffInSeconds ->
      exists label seconds count,
        (label, seconds) ∈ intervals
        /\ seconds <= diffInSeconds
        /\ (forall label' seconds', (label', seconds') ∈ intervals ->
              seconds < seconds' -> diffInSeconds < seconds')
        /\ count = diffInSeconds / seconds
        /\ 1 <= count
        /\ (label = "month" -> count <= 12)
        /\ (label = "day" -> count <= 29)
        /\ (label = "hour" -> count <= 23)
        /\ (label = "minute" -> count <= 59)
        /\ getRelativeTime now (Some date)
           = pretty count +:+ " " +:+ label
             +:+ (if decide (count = 1) then "" else "s") +:+ " ago").
Proof.
  intros d. split; [done|]. unfold getRelativeTime. fold d.
  unfold intervals, relative_from.
  rewrite !div_at_least_1 by lia.
  assert (forall s c, 0 < s -> s <= d -> c = d / s ->
            1 <= c
            /\ (if 1 <? c then "s" else "") = (if decide (c = 1) then "" else "s"))
    as Hcount.
  { intros s c Hs Hle ->.
    assert (1 <= d / s) by (apply Z.div_le_lower_bound; lia).
    split; [done|]. destruct (Z.ltb_spec 1 (d / s)), (decide (d / s = 1)); (done || lia). }
  split.
  - intros Hlt.
    repeat match goal with
           | |- context [?s <=? d] => destruct (Z.leb_spec s d); [lia|]
           end. done.
  - intros Hge.
    destruct (Z.leb_spec 31536000 d) as [H1|H1].
    { destruct (Hcount 31536000 (d / 31536000)) as [Hc ->]; [lia|done|done|].
      exists "year", 31536000, (d / 31536000).
      split; [apply elem_of_intervals; tauto|]. split; [done|].
      split; [intros l' s' Hin%elem_of_intervals; intros; intuition lia|].
      repeat split; try done. }
    destruct (Z.leb_spec 2592000 d) as [H2|H2].
    { destruct (Hcount 2592000 (d / 2592000)) as [Hc ->]; [lia|done|done|].
      exists "month", 2592000, (d / 2592000).
      split; [apply elem_of_intervals; tauto|]. split; [done|].
      split; [intros l' s' Hin%elem_of_intervals; intros; intuition lia|].
      repeat split; try done.
      intros _. assert (d / 2592000 < 13); [|lia].
      apply Z.div_lt_upper_bound; lia. }
    destruct (Z.leb_spec 86400 d) as [H3|H3].
    { destruct (Hcount 86400 (d / 86400)) as [Hc ->]; [lia|done|done|].
      exists "day", 86400, (d / 86400).
      split; [apply elem_of_intervals; tauto|]. split; [done|].
      split; [intros l' s' Hin%elem_of_intervals; intros; intuition lia|].
      repeat split; try done.
      intros _. assert (d / 86400 < 30); [|lia].
      apply Z.div_lt_upper_bound; lia. }
    destruct (Z.leb_spec 3600 d) as [H4|H4].
    { destruct (Hcount 3600 (d / 3600)) as [Hc ->]; [lia|done|done|].
      exists "hour", 3600, (d / 3600).
      split; [apply elem_of_intervals; tauto|]. split; [done|].
      split; [intros l' s' Hin%elem_of_intervals; intros; intuition lia|].
      repeat split; try done.
      intros _. assert (d / 3600 < 24); [|lia].
      apply Z.div_lt_upper_bound; lia. }
    destruct (Z.leb_spec 60 d) as [H5|H5]; [|lia].
    destruct (Hcount 60 (d / 60)) as [Hc ->]; [lia|done|done|].
    exists "minute", 60, (d / 60).
    split; [apply elem_of_intervals; tauto|]. split; [done|].
    split; [intros l' s' Hin%elem_of_intervals; intros; intuition lia|].
    repeat split; try done.
    intros _. assert (d / 60 < 60); [|lia].
    apply Z.div_lt_upper_bound; lia.
Qed.

Example getRelativeTime_ex :
  getRelativeTime 1767225600000 (Some 1735689600000) = "1 year ago"
  /\ getRelativeTime 1767225600000 (Some (1767225600000 - 360 * 86400000))
     = "12 months ago"
  /\ getRelativeTime 1767225600000 (Some (1767225600000 - 7200000))
     = "2 hours ago"
  /\ getRelativeTime 1767225600000 (Some (1767225600000 + 5000)) = "Just now".
Proof. by vm_compute. Qed.

Section EscapeFacts.

Lemma escapeHtml_Some s : escapeHtml (Some s) = innerHTML s.
Proof. by destruct s. Qed.

Lemma escape_char_cases c :
  (c = "&"%char /\ escape_char c = "&amp;")
  \/ (c = "<"%char /\ escape_char c = "&lt;")
  \/ (c = ">"%char /\ escape_char c = "&gt;")
  \/ (plain_char c = true /\ escape_char c = String c "").
Proof.
  unfold escape_char, plain_char.
  destruct (Ascii.eqb_spec c "&") as [->|?]; [by left|].
  destruct (Ascii.eqb_spec c "<") as [->|?]; [by right; left|].
  destruct (Ascii.eqb_spec c ">") as [->|?]; [by right; right; left|].
  by right; right; right.
Qed.

Lemma plain_char_spec c :
  plain_char c = true <-> c <> "&"%char /\ c <> "<"%char /\ c <> ">"%char.
Proof.
  unfold plain_char. rewrite !andb_true_iff, !negb_true_iff.
  rewrite !Ascii.eqb_neq. tauto.
Qed.

Lemma innerHTML_inj a b : innerHTML a = innerHTML b -> a = b.
Proof.
  revert b. induction a as [|x a IH]; intros [|y b]; simpl; [done| | |].
  - destruct (escape_char_cases y) as [[_ ->]|[[_ ->]|[[_ ->]|[_ ->]]]];
      intros H; discriminate H.
  - destruct (escape_char_cases x) as [[_ ->]|[[_ ->]|[[_ ->]|[_ ->]]]];
      intros H; discriminate H.
  - destruct (escape_char_cases x) as [[-> ->]|[[-> ->]|[[-> ->]|[Hx ->]]]],
      (escape_char_cases y) as [[-> ->]|[[-> ->]|[[-> ->]|[Hy ->]]]];
      intros Heq; cbv [String.append] in Heq; fold String.append in Heq;
      simplify_eq;
      first [ f_equal; by apply IH
            | by vm_compute in Hx
            | by vm_compute in Hy ].
Qed.

Lemma all_chars_app P a b :
  all_chars P (a ++ b) = all_chars P a && all_chars P b.
Proof.
  induction a as [|c a IH]; [done|].
  change (P c && all_chars P (a ++ b) = P c && all_chars P a && all_chars P b).
  by rewrite IH, andb_assoc.
Qed.

Lemma occurs_app c a b : occurs c (a ++ b) = occurs c a || occurs c b.
Proof.
  induction a as [|x a IH]; [done|].
  change ((Ascii.eqb x c || occurs c (a ++ b))
          = (Ascii.eqb x c || occurs c a) || occurs c b).
  by rewrite IH, orb_assoc.
Qed.

Lemma innerHTML_no_tag s :
  all_chars (fun c => negb (Ascii.eqb c "<") && negb (Ascii.eqb c ">"))
    (innerHTML s) = true.
Proof.
  induction s as [|x s IH]; [done|]. cbn [innerHTML].
  rewrite all_chars_app, IH, andb_true_r.
  destruct (escape_char_cases x) as [[_ ->]|[[_ ->]|[[_ ->]|[Hx ->]]]];
    [done|done|done|].
  simpl. apply plain_char_spec in Hx as (_ & H1 & H2).
  apply Ascii.eqb_neq in H1, H2. by rewrite H1, H2.
Qed.

Lemma innerHTML_plain s : all_chars plain_char s = true -> innerHTML s = s.
Proof.
  induction s as [|x s IH]; [done|]. simpl.
  intros [Hx Hs]%andb_true_iff. rewrite (IH Hs).
  by destruct (escape_char_cases x) as [[-> _]|[[-> _]|[[-> _]|[_ ->]]]].
Qed.

Lemma innerHTML_occurs c s :
  occurs c "<>&amp;&lt;&gt;" = false -> occurs c (innerHTML s) = occurs c s.
Proof.
  intros Hc. cbn [occurs] in Hc.
  repeat (apply orb_false_iff in Hc as [? Hc]).
  induction s as [|x s IH]; [done|]. cbn [innerHTML].
  rewrite occurs_app, IH. cbn [occurs]. f_equal.
  destruct (escape_char_cases x) as [[-> ->]|[[-> ->]|[[-> ->]|[_ ->]]]];
    cbn [occurs]; rewrite ?orb_false_r;
    repeat match goal with
           | H : Ascii.eqb ?a c = false |- context [Ascii.eqb ?a c] => rewrite H
           end;
    done.
Qed.

End EscapeFacts.

(** X18.  [escapeHtml] gives the empty string for a missing or empty
    text.  Its result never holds [<] or [>]; it is the text itself
    when the text holds none of [&], [<] and [>]; two different texts
    never give the same result; and a double quote, which the escaping
    does not touch, occurs in the result exactly when it occurs in the
    text. *)
Theorem escapeHtml_spec (text text' : string) :
  escapeHtml None = "" /\ escapeHtml (Some "") = ""
  /\ all_chars (fun c => negb (Ascii.eqb c "<") && negb (Ascii.eqb c ">"))
       (escapeHtml (Some text)) = true
  /\ (all_chars plain_char text = true -> escapeHtml (Some text) = text)
  /\ (escapeHtml (Some text) = escapeHtml (Some text') -> text = text')
  /\ occurs double_quote (escapeHtml (Some text)) = occurs double_quote text.
Proof.
  rewrite !escapeHtml_Some. split; [done|]. split; [done|].
  split; [apply innerHTML_no_tag|]. split; [apply innerHTML_plain|].
  split; [apply innerHTML_inj|]. apply innerHTML_occurs. by vm_compute.
Qed.

Example escapeHtml_ex :
  escapeHtml (Some "a<b & c>d") = "a&lt;b &amp; c&gt;d"
  /\ escapeHtml (Some (String double_quote "x")) = String double_quote "x".
Proof. by vm_compute. Qed.

Lemma getGridColumns_range width : 1 <= getGridColumns width <= 3.
Proof.
  unfold getGridColumns.
  destruct (width <=? 768); [lia|]. destruct (width <=? 1024); lia.
Qed.

(** X19.  Arrow navigation never leaves the cards: when the focus is
    on a card, an arrow key moves it to a card of the list, at most one
    row of one to three cards away, and any other key moves nothing. *)
Theorem handleArrowNavigation_stays_in_grid
    (width cards currentIndex : Z) (key : string) :
  0 <= currentIndex < cards ->
  match handleArrowNavigation width cards currentIndex key with
  | Some nextIndex =>
      key ∈ arrow_keys
      /\ 0 <= nextIndex < cards
      /\ Z.abs (nextIndex - currentIndex) <= getGridColumns width
      /\ getGridColumns width <= 3
  | None => key ∉ arrow_keys
  end.
Proof.
  intros Hcur. unfold handleArrowNavigation, arrow_keys.
  pose proof (getGridColumns_range width) as Hcols.
  destruct (Z.eqb_spec currentIndex (-1)) as [?|_]; [lia|].
  destruct (String.eqb_spec key "ArrowUp") as [->|Hup].
  { rewrite (proj2 (andb_true_iff _ _)) by (split; [apply Z.leb_le|apply Z.ltb_lt]; lia).
    split; [by left|]. lia. }
  destruct (String.eqb_spec key "ArrowDown") as [->|Hdown].
  { rewrite (proj2 (andb_true_iff _ _)) by (split; [apply Z.leb_le|apply Z.ltb_lt]; lia).
    split; [right; by left|]. lia. }
  destruct (String.eqb_spec key "ArrowLeft") as [->|Hleft].
  { rewrite (proj2 (andb_true_iff _ _)) by (split; [apply Z.leb_le|apply Z.ltb_lt]; lia).
    split; [right; right; by left|]. lia. }
  destruct (String.eqb_spec key "ArrowRight") as [->|Hright].
  { rewrite (proj2 (andb_true_iff _ _)) by (split; [apply Z.leb_le|apply Z.ltb_lt]; lia).
    split; [right; right; right; by left|]. lia. }
  rewrite !not_elem_of_cons. repeat split; try done. apply not_elem_of_nil.
Qed.

Lemma handleArrowNavigation_stays_in_grid_witness :
  "ArrowDown" ∈ arrow_keys
  /\ 0 <= 4 < 5
  /\ Z.abs (4 - 3) <= getGridColumns 1000
  /\ getGridColumns 1000 <= 3.
Proof.
  apply (handleArrowNavigation_stays_in_grid 1000 5 3 "ArrowDown"). lia.
Defined.

(** X20.  What [updateUI] displays: the empty state and the grid are
    never displayed together; some region always is; the statistics
    bar is displayed exactly when neither loading nor an error is;
    while loading the grid is displayed, with the skeleton cards, also
    when an error is displayed; and once loaded without error, the
    empty state is displayed when no repository passes the filters and
    the grid otherwise. *)
Theorem updateUI_regions (isLoading error : bool) (filteredRepositories : list ref) :
  let shown := updateUI isLoading error filteredRepositories in
  emptyState shown && repositoryGrid shown = false
  /\ loadingState shown || errorState shown || emptyState shown
     || repositoryGrid shown = true
  /\ statsBar shown = negb (loadingState shown) && negb (errorState shown)
  /\ repositoryGrid shown
     = isLoading
       || (negb error && negb (bool_decide (filteredRepositories = [])))
  /\ emptyState shown
     = negb isLoading && negb error && bool_decide (filteredRepositories = []).
Proof.
  unfold updateUI. simpl.
  destruct filteredRepositories as [|repo rest]; simpl;
    by destruct isLoading, error.
Qed.

(** ** The count on a quick filter *)

Section QuickFilterFacts.

Lemma own_count_elem_of counts language v :
  NoDup counts.*1 ->
  own_count counts language = Some v <-> (language, v) ∈ counts.
Proof.
  induction counts as [|[k w] rest IH]; simpl.
  - intros _. split; [done|]. by intros ?%elem_of_nil.
  - intros [Hk Hnd]%NoDup_cons. rewrite elem_of_cons.
    destruct (decide (k = language)) as [->|Hne].
    + split; [intros [= ->]; by left|].
      intros [[= ->]|Hin]; [done|]. exfalso. by apply Hk, (elem_of_fst _ v).
    + rewrite (IH Hnd). split; [by right|]. by intros [[= ? ?]|?].
Qed.

Lemma own_count_None counts language :
  own_count counts language = None <-> language ∉ counts.*1.
Proof.
  induction counts as [|[k w] rest IH]; simpl.
  - split; [intros _; apply not_elem_of_nil|done].
  - rewrite not_elem_of_cons. destruct (decide (k = language)) as [->|Hne].
    + split; [done|]. by intros [? _].
    + rewrite IH. split; [by split|by intros [_ ?]].
Qed.

Lemma language_count_nonneg σ repositories language :
  0 <= language_count σ repositories language.
Proof. unfold language_count. lia. Qed.

Lemma count_or_0_counts σ repositories counts language :
  counts_of σ repositories counts ->
  inherited language = false ->
  count_or_0 counts language = Count (language_count σ repositories language).
Proof.
  intros (Hnd & Hkeys & Hval) Hown. unfold count_or_0.
  destruct (own_count counts language) as [v|] eqn:E.
  - apply own_count_elem_of in E; [|done].
    rewrite (Hval _ _ E), Hown. f_equal. unfold truthy_num.
    by destruct (Z.eqb_spec (language_count σ repositories language) 0) as [->|?].
  - rewrite Hown. f_equal. apply own_count_None in E.
    pose proof (language_count_nonneg σ repositories language).
    destruct (decide (0 < language_count σ repositories language)) as [Hpos|?];
      [|lia].
    exfalso. apply E, Hkeys. split; [|by apply language_count_pos].
    intros ->. by rewrite proto_inherited in Hown.
Qed.

Lemma calculateLanguageCounts_same_fields σ σ' repositories :
  (forall r, same_fields (σ r) (σ' r)) ->
  calculateLanguageCounts σ' repositories = calculateLanguageCounts σ repositories.
Proof.
  intros Hsame. unfold calculateLanguageCounts.
  generalize ([] : list (string * count_value)).
  induction repositories as [|repo rest IH]; intros counts; [done|]. simpl.
  rewrite IH. f_equal. unfold count_add, counted_language.
  by destruct (Hsame repo) as (_ & _ & _ & _ & _ & -> & _).
Qed.

End QuickFilterFacts.

(** X21.  The count in the toast of [handleQuickFilter]: for a language
    whose name is not empty and not inherited from [Object.prototype],
    and repositories that all have a language, as those made by
    [processRepositoryData] have, the count shown is the number of
    repositories of that language; the repositories then displayed are
    never more, and they are exactly as many when there is no search
    term. *)
Theorem handleQuickFilter_count
    (Date_value : string -> option Z) (localeCompare_base : string -> string -> Z)
    (st st' : State) (σ σ' : store) (language' : string) (shown : count_value) :
  language' <> "" ->
  inherited language' = false ->
  (forall r, r ∈ repositories st -> language (σ r) <> "") ->
  handleQuickFilter Date_value localeCompare_base st language' σ
  = (σ', Ok (st', shown)) ->
  shown = Count (Z.of_nat (length (filter (fun r => language (σ r) = language')
                                     (repositories st))))
  /\ (length (filteredRepositories st')
      <= length (filter (fun r => language (σ r) = language') (repositories st)))%nat
  /\ (searchTerm st = "" ->
      length (filteredRepositories st')
      = length (filter (fun r => language (σ r) = language') (repositories st))).
Proof.
  intros Hne Hown Hlang Hcall. unfold handleQuickFilter in Hcall.
  apply bindM_Ok in Hcall as (σ1 & st1 & Hfilter & Hread).
  unfold read in Hread. injection Hread as <- <- <-.
  unfold handleLanguageFilter, setState in Hfilter. simpl in Hfilter.
  apply bindM_Ok in Hfilter as (σ2 & st2 & Hupdate & Hret).
  injection Hret as <- <-.
  destruct (updateFilteredRepositories_passes _ _ _ _ _ _ Hupdate)
    as (Hst & Hperm & Hsame & Hstore).
  set (u := update_selectedLanguage language') in *.
  assert (repositories st2 = repositories st) as Hrepos by (by rewrite Hst).
  assert (filter (fun r => counted_language σ r = language') (repositories st)
          = filter (fun r => language (σ r) = language') (repositories st))
    as Hcounted.
  { apply filter_ext_in. intros r Hr. unfold counted_language.
    destruct (truthy_str (language (σ r))) eqn:Ht; [done|].
    exfalso. apply (Hlang r Hr).
    destruct (decide (language (σ r) = "")) as [?|Hn]; [done|].
    apply truthy_str_spec in Hn. congruence. }
  split.
  { rewrite Hrepos, (calculateLanguageCounts_same_fields σ σ2) by done.
    rewrite (count_or_0_counts σ (repositories st)
               _ _ (calculateLanguageCounts_keys σ (repositories st)) Hown).
    unfold language_count. by rewrite Hcounted. }
  assert (filter (fun repo => selected (merge_state st u) σ repo = true)
            (repositories st)
          = filter (fun repo => passes_search (merge_state st u) σ repo = true)
              (filter (fun r => language (σ r) = language') (repositories st)))
    as Hsel.
  { rewrite list_filter_filter. apply filter_ext_in. intros r _.
    unfold selected, passes_language. simpl.
    rewrite andb_true_iff, (proj2 (truthy_str_spec language')) by done.
    simpl. rewrite bool_decide_eq_true. tauto. }
  rewrite Hperm. simpl. rewrite Hsel. split; [apply length_filter|].
  intros Hterm. f_equal. apply filter_all. intros r _.
  unfold passes_search. simpl. by rewrite Hterm.
Qed.

Lemma handleQuickFilter_count_witness :
  let objects := Sample.loaded Sample.six in
  let σ := store_of objects in
  let st := Sample.state_of objects "" "" "recent-likes" in
  let st' := {| repositories := refs_of objects;
                filteredRepositories := [5; 1]%nat;
                searchTerm := "";
                selectedLanguage := "Go";
                sortBy := "recent-likes";
                languageCategory := "recently" |} in
  Count 2 = Count (Z.of_nat (length (filter (fun r => language (σ r) = "Go")
                                       (repositories st))))
  /\ (length (filteredRepositories st')
      <= length (filter (fun r => language (σ r) = "Go") (repositories st)))%nat
  /\ (searchTerm st = "" ->
      length (filteredRepositories st')
      = length (filter (fun r => language (σ r) = "Go") (repositories st))).
Proof.
  apply (handleQuickFilter_count Sample.no_date Sample.no_collation
           (Sample.state_of (Sample.loaded Sample.six) "" "" "recent-likes")
           {| repositories := refs_of (Sample.loaded Sample.six);
              filteredRepositories := [5; 1]%nat;
              searchTerm := "";
              selectedLanguage := "Go";
              sortBy := "recent-likes";
              languageCategory := "recently" |}
           (store_of (Sample.loaded Sample.six))
           (store_of (Sample.loaded Sample.six)) "Go" (Count 2)).
  - discriminate.
  - reflexivity.
  - intros r Hr. apply list_elem_of_In in Hr. simpl in Hr.
    by destruct Hr as [<-|[<-|[<-|[<-|[<-|[<-|[]]]]]]].
  - reflexivity.
Defined.

(** ** The search cache *)

Section CacheFacts.
Variable Date_value : string -> option Z.
Variable localeCompare_base : string -> string -> Z.

Lemma cache_get_Some cache key a :
  Cached.cache_get cache key = Some a -> (key, a) ∈ cache.
Proof.
  induction cache as [|[k b] rest IH]; simpl; [done|].
  destruct (decide (k = key)) as [->|?].
  - intros [= ->]. by left.
  - intros H. right. by apply IH.
Qed.

Lemma cache_get_app_new cache key a :
  Cached.cache_get cache key = None ->
  Cached.cache_get (cache ++ [(key, a)]) key = Some a.
Proof.
  induction cache as [|[k b] rest IH]; simpl.
  - intros _. by rewrite decide_True.
  - destruct (decide (k = key)); [done|]. apply IH.
Qed.

Lemma cache_get_tail cache key :
  Cached.cache_get cache key = None ->
  Cached.cache_get (tail cache) key = None.
Proof.
  destruct cache as [|[k b] rest]; simpl; [done|].
  by destruct (decide (k = key)).
Qed.

Lemma append_length a b :
  String.length (a ++ b) = (String.length a + String.length b)%nat.
Proof.
  induction a as [|c a IH]; [done|].
  change (S (String.length (a ++ b)) = S (String.length a + String.length b)).
  by rewrite IH.
Qed.

Lemma append_cancel_r a b c : (a ++ c)%string = (b ++ c)%string -> a = b.
Proof.
  revert b. induction a as [|x a IH]; intros [|y b] Heq.
  - done.
  - apply (f_equal String.length) in Heq.
    rewrite !append_length in Heq. cbn [String.length] in Heq. lia.
  - apply (f_equal String.length) in Heq.
    rewrite !append_length in Heq. cbn [String.length] in Heq. lia.
  - change (String x (a ++ c) = String y (b ++ c)) in Heq.
    injection Heq as -> Heq. f_equal. by apply IH.
Qed.

Lemma cacheKey_inj term term' n :
  Cached.cacheKey term n = Cached.cacheKey term' n -> term = term'.
Proof. unfold Cached.cacheKey. apply append_cancel_r. Qed.

Lemma content_alloc elements m :
  Cached.content (Cached.alloc elements m).1 (Cached.alloc elements m).2
  = elements.
Proof.
  unfold Cached.content, Cached.alloc. simpl.
  by rewrite lookup_app_r, Nat.sub_diag by lia.
Qed.

Lemma arrays_alloc elements m a l :
  Cached.arrays m !! a = Some l ->
  Cached.arrays (Cached.alloc elements m).1 !! a = Some l.
Proof. intros Ha. simpl. by apply lookup_app_l_Some. Qed.

(** What holds of a cache stays so when arrays are added or permuted,
    entries are dropped and scores are written. *)
Lemma cache_sound_transport repos m m' :
  cache_sound repos m ->
  (forall a l, Cached.arrays m !! a = Some l ->
     exists l', Cached.arrays m' !! a = Some l' /\ l' ≡ₚ l) ->
  (forall r, same_fields (Cached.objects m r) (Cached.objects m' r)) ->
  (forall entry, entry ∈ Cached.searchCache m' -> entry ∈ Cached.searchCache m) ->
  cache_sound repos m'.
Proof.
  intros Hsound Harrays Hsame Hcache key a term Hin Hkey Hterm.
  destruct (Hsound key a term (Hcache _ Hin) Hkey Hterm)
    as (elements & Ha & Hperm & Hreturns).
  destruct (Harrays a elements Ha) as (elements' & Ha' & Hperm').
  exists elements'. split; [done|]. split.
  - rewrite Hperm', Hperm. apply Permutation_refl'. apply filter_ext_in.
    intros r _. by rewrite (retained_same_fields _ _ _ (Hsame r)).
  - intros r Hr Hall.
    rewrite <- (hasAllTerms_same_fields _ _ _ (Hsame r)) in Hall.
    destruct (Hreturns r Hr Hall) as [score Hscore]. exists score.
    by rewrite <- (score_terms_same_fields _ _ _ _ (Hsame r)).
Qed.

(** The wrapper on a sound cache: what it returns is an array of the
    repositories that the search retains, and it returns exactly when
    the search does. *)
Lemma wrapper_sound repos m a0 term m1 res :
  cache_sound repos m ->
  Cached.content m a0 = repos ->
  term <> "" ->
  Cached.performAdvancedSearch a0 term m = (m1, res) ->
  (forall a l, Cached.arrays m !! a = Some l -> Cached.arrays m1 !! a = Some l)
  /\ (forall r, same_fields (Cached.objects m r) (Cached.objects m1 r))
  /\ cache_sound repos m1
  /\ match res with
     | Ok a =>
         Cached.cache_get (Cached.searchCache m1)
           (Cached.cacheKey term (length repos)) = Some a
         /\ (exists l,
               Cached.arrays m1 !! a = Some l
               /\ l ≡ₚ filter (fun r => retained (search_terms term)
                                          (Cached.objects m r) = true) repos)
         /\ exists σ' out,
              performAdvancedSearch repos term (Cached.objects m) = (σ', Ok out)
     | Throw _ =>
         exists σ',
           performAdvancedSearch repos term (Cached.objects m)
           = (σ', Throw TypeError)
     end.
Proof.
  intros Hsound Hcontent Hterm. unfold Cached.performAdvancedSearch.
  rewrite Hcontent.
  destruct (Cached.cache_get _ _) as [a|] eqn:Hget.
  - intros [= <- <-]. split; [done|]. split; [done|]. split; [done|].
    split; [done|].
    destruct (Hsound _ a term (cache_get_Some _ _ _ Hget) eq_refl Hterm)
      as (elements & Ha & Hperm & Hreturns).
    split; [by exists elements|].
    rewrite performAdvancedSearch_unfold by done.
    destruct (search_pass_total (search_terms term) repos (Cached.objects m)
                Hreturns) as (σ' & kept & ->).
    by eexists _, _.
  - pose proof (frames_performAdvancedSearch repos term (Cached.objects m))
      as Hframe.
    destruct (performAdvancedSearch repos term (Cached.objects m))
      as [σ [found|e]] eqn:Hsearch.
    + rewrite (proj2 (truthy_str_spec term) Hterm). simpl.
      intros [= <- <-]. simpl.
      assert (forall r, same_fields (Cached.objects m r) (σ r)) as Hsame.
      { intros r. apply Hframe. }
      rewrite performAdvancedSearch_unfold in Hsearch by done.
      destruct (filterM _ _ _) as [σk [kept|e]] eqn:Hkept; [|done].
      injection Hsearch as <- <-.
      destruct (search_pass_ok _ _ _ _ _ Hkept) as (-> & Hscore & _).
      set (cache := if (50 <? length (Cached.searchCache m))%nat
                    then tail (Cached.searchCache m)
                    else Cached.searchCache m).
      assert (forall entry, entry ∈ cache -> entry ∈ Cached.searchCache m)
        as Hcache.
      { intros entry. unfold cache.
        destruct (50 <? length (Cached.searchCache m))%nat; [|done].
        destruct (Cached.searchCache m); [done|]. simpl. by right. }
      split; [intros a l Ha; by apply lookup_app_l_Some|].
      split; [done|]. split.
      { intros key a t [Hin|Hin]%elem_of_app Hkey Ht.
        - destruct (Hsound key a t (Hcache _ Hin) Hkey Ht)
            as (elements & Ha & Hperm & Hreturns).
          exists elements. simpl. split; [by apply lookup_app_l_Some|]. split.
          + rewrite Hperm. apply Permutation_refl'. apply filter_ext_in.
            intros r _. by rewrite (retained_same_fields _ _ _ (Hsame r)).
          + intros r Hr Hall.
            rewrite <- (hasAllTerms_same_fields _ _ _ (Hsame r)) in Hall.
            destruct (Hreturns r Hr Hall) as [score Hs]. exists score.
            by rewrite <- (score_terms_same_fields _ _ _ _ (Hsame r)).
        - apply list_elem_of_singleton in Hin. injection Hin as -> ->.
          apply cacheKey_inj in Hkey as <-.
          eexists. simpl. split; [by rewrite lookup_app_r, Nat.sub_diag by lia|].
          split.
          + rewrite sort_perm. apply Permutation_refl'. apply filter_ext_in.
            intros r _. by rewrite (retained_same_fields _ _ _ (Hsame r)).
          + intros r Hr Hall.
            rewrite <- (hasAllTerms_same_fields _ _ _ (Hsame r)) in Hall.
            destruct (Hscore r Hr Hall) as (score & Hs & _). exists score.
            by rewrite <- (score_terms_same_fields _ _ _ _ (Hsame r)). }
      split.
      { apply cache_get_app_new. unfold cache.
        destruct (50 <? length (Cached.searchCache m))%nat;
          [by apply cache_get_tail|done]. }
      split.
      { eexists. split; [by rewrite lookup_app_r, Nat.sub_diag by lia|].
        by rewrite sort_perm. }
      by eexists _, _.
    + intros [= <- <-]. simpl.
      assert (forall r, same_fields (Cached.objects m r) (σ r)) as Hsame.
      { intros r. apply Hframe. }
      split; [done|]. split; [done|]. split.
      { by apply (cache_sound_transport repos m); [|eauto|..]. }
      destruct e. by eexists.
Qed.

End CacheFacts.

Lemma cache_sound_alloc repos m elements :
  cache_sound repos m -> cache_sound repos (Cached.alloc elements m).1.
Proof.
  intros Hsound. apply (cache_sound_transport repos m); [done| |done|done].
  intros a l Ha. exists l. split; [by apply arrays_alloc|done].
Qed.

Lemma cache_sound_sortRepositories Date_value localeCompare_base repos st m :
  cache_sound repos m ->
  cache_sound repos (Cached.sortRepositories Date_value localeCompare_base st m).
Proof.
  intros Hsound. apply (cache_sound_transport repos m); [done| |done|done].
  intros a l Ha. simpl.
  destruct (decide (a = Cached.filteredRepositories st)) as [->|Hne].
  - eexists. split.
    + apply list_lookup_insert_eq. by eapply lookup_lt_Some.
    + replace (Cached.content m (Cached.filteredRepositories st)) with l;
        [apply sort_perm|].
      symmetry. exact (f_equal (default []) Ha).
  - exists l. split; [|done]. by rewrite list_lookup_insert_ne.
Qed.

Lemma content_sortRepositories Date_value localeCompare_base st m :
  Cached.content (Cached.sortRepositories Date_value localeCompare_base st m)
    (Cached.filteredRepositories st)
  = JS.sort (fun x y => comparison Date_value localeCompare_base
                          (Cached.sortBy st) (Cached.objects m x)
                          (Cached.objects m y))
      (Cached.content m (Cached.filteredRepositories st)).
Proof.
  unfold Cached.content at 1. simpl.
  destruct (decide (Cached.filteredRepositories st < length (Cached.arrays m))%nat)
    as [Hin|Hout].
  - by rewrite list_lookup_insert_eq.
  - rewrite list_insert_ge by lia. unfold Cached.content.
    by rewrite (lookup_ge_None_2 (Cached.arrays m)) by lia.
Qed.

(** X22.  With the cache installed, a search without language filter
    leaves in the state the very array that the cache holds for the
    search term: [sortRepositories], which sorts the array of the state
    in place, sorts the cached array, so that a later search for the
    same term receives its result in the order of the last sort and
    not in the order of the scores. *)
Theorem cached_search_array_is_shared
    (Date_value : string -> option Z) (localeCompare_base : string -> string -> Z)
    (st st' : Cached.State) (m m' : Cached.Memory) :
  Cached.searchTerm st <> "" ->
  Cached.selectedLanguage st = "" ->
  Cached.updateFilteredRepositories Date_value localeCompare_base st m
  = (m', Ok st') ->
  Cached.cache_get (Cached.searchCache m')
    (Cached.cacheKey (Cached.searchTerm st) (length (Cached.repositories st)))
  = Some (Cached.filteredRepositories st')
  /\ forall sortBy',
       let st'' :=
         {| Cached.repositories := Cached.repositories st';
            Cached.filteredRepositories := Cached.filteredRepositories st';
            Cached.searchTerm := Cached.searchTerm st';
            Cached.selectedLanguage := Cached.selectedLanguage st';
            Cached.sortBy := sortBy' |} in
       let m'' := Cached.sortRepositories Date_value localeCompare_base st'' m' in
       Cached.cache_get (Cached.searchCache m'')
         (Cached.cacheKey (Cached.searchTerm st)
            (length (Cached.repositories st)))
       = Some (Cached.filteredRepositories st')
       /\ Cached.content m'' (Cached.filteredRepositories st')
          = JS.sort (fun x y => comparison Date_value localeCompare_base
                                  sortBy' (Cached.objects m' x)
                                  (Cached.objects m' y))
              (Cached.content m' (Cached.filteredRepositories st')).
Proof.
  intros Hterm Hlang Hcall.
  assert (Cached.cache_get (Cached.searchCache m')
            (Cached.cacheKey (Cached.searchTerm st)
               (length (Cached.repositories st)))
          = Some (Cached.filteredRepositories st')) as Hshared.
  { unfold Cached.updateFilteredRepositories in Hcall.
    destruct (Cached.alloc (Cached.repositories st) m) as [m0 a0] eqn:Halloc.
    assert (Cached.content m0 a0 = Cached.repositories st) as Hcontent.
    { pose proof (content_alloc (Cached.repositories st) m) as H.
      by rewrite Halloc in H. }
    rewrite (proj2 (truthy_str_spec _) Hterm), Hlang in Hcall. simpl in Hcall.
    unfold Cached.performAdvancedSearch in Hcall. rewrite Hcontent in Hcall.
    destruct (Cached.cache_get _ _) as [a|] eqn:Hget.
    - by injection Hcall as <- <-.
    - destruct (performAdvancedSearch _ _ _) as [σ [found|e]]; [|done].
      rewrite (proj2 (truthy_str_spec _) Hterm) in Hcall. simpl in Hcall.
      injection Hcall as <- <-. simpl.
      apply cache_get_app_new.
      destruct (50 <? length (Cached.searchCache m0))%nat;
        [by apply cache_get_tail|done]. }
  split; [done|]. intros sortBy' st'' m''. split; [done|].
  apply (content_sortRepositories Date_value localeCompare_base st'' m').
Qed.

(** X23.  The cache does not change what is displayed, ties apart:
    started on a cache that is sound for [state.repositories], as the
    empty cache is, [updateFilteredRepositories] with the wrapper
    installed leaves the cache sound and every field of every object
    other than [searchScore] as it was; it returns exactly when it
    does without the cache; and the array it then stores in the state
    is sorted by the comparator of the sort key and holds exactly the
    repositories that pass the filters in force, as without the cache. *)
Theorem cached_update_agrees
    (Date_value : string -> option Z) (localeCompare_base : string -> string -> Z)
    (st : Cached.State) (m m' : Cached.Memory) (res : result Cached.State) :
  cache_sound (Cached.repositories st) m ->
  Cached.updateFilteredRepositories Date_value localeCompare_base st m
  = (m', res) ->
  cache_sound (Cached.repositories st) m'
  /\ (forall r, same_fields (Cached.objects m r) (Cached.objects m' r))
  /\ match res with
     | Ok st' =>
         st' = Cached.with_filteredRepositories st
                 (Cached.filteredRepositories st')
         /\ (exists elements,
               Cached.content m' (Cached.filteredRepositories st')
               = JS.sort (fun x y => comparison Date_value localeCompare_base
                                       (Cached.sortBy st) (Cached.objects m' x)
                                       (Cached.objects m' y)) elements
               /\ elements
                  ≡ₚ filter (fun r => selected (uncached st)
                                        (Cached.objects m) r = true)
                       (Cached.repositories st))
         /\ exists σ' st'',
              updateFilteredRepositories Date_value localeCompare_base
                (uncached st) (Cached.objects m)
              = (σ', Ok st'')
     | Throw _ =>
         exists σ',
           updateFilteredRepositories Date_value localeCompare_base
             (uncached st) (Cached.objects m)
           = (σ', Throw TypeError)
     end.
Proof.
  intros Hsound Hcall. unfold Cached.updateFilteredRepositories in Hcall.
  pose proof (cache_sound_alloc _ _ (Cached.repositories st) Hsound) as Hsound0.
  pose proof (content_alloc (Cached.repositories st) m) as Hcontent.
  destruct (Cached.alloc (Cached.repositories st) m) as [m0 a0] eqn:Halloc.
  simpl in Hsound0, Hcontent.
  assert (Cached.objects m0 = Cached.objects m) as Hobjects.
  { by injection Halloc as <- _. }
  assert (Cached.arrays m0 !! a0 = Some (Cached.repositories st)) as Ha0.
  { injection Halloc as <- <-. simpl. by rewrite lookup_app_r, Nat.sub_diag by lia. }
  set (search := if truthy_str (Cached.searchTerm st)
                 then Cached.performAdvancedSearch a0 (Cached.searchTerm st) m0
                 else (m0, Ok a0)) in Hcall.
  (* the search step *)
  assert (match search with
          | (m1, Ok a) =>
              (forall r, same_fields (Cached.objects m r) (Cached.objects m1 r))
              /\ cache_sound (Cached.repositories st) m1
              /\ (exists l,
                    Cached.arrays m1 !! a = Some l
                    /\ l ≡ₚ filter (fun r => passes_search (uncached st)
                                               (Cached.objects m) r = true)
                             (Cached.repositories st))
              /\ exists σ' out,
                   (if truthy_str (Cached.searchTerm st)
                    then performAdvancedSearch (Cached.repositories st)
                           (Cached.searchTerm st)
                    else ret (Cached.repositories st)) (Cached.objects m)
                   = (σ', Ok out)
          | (m1, Throw _) =>
              (forall r, same_fields (Cached.objects m r) (Cached.objects m1 r))
              /\ cache_sound (Cached.repositories st) m1
              /\ truthy_str (Cached.searchTerm st) = true
              /\ exists σ',
                   performAdvancedSearch (Cached.repositories st)
                     (Cached.searchTerm st) (Cached.objects m)
                   = (σ', Throw TypeError)
          end) as Hsearch.
  { unfold search, passes_search. simpl.
    destruct (truthy_str (Cached.searchTerm st)) eqn:Hterm.
    - apply truthy_str_spec in Hterm.
      destruct (Cached.performAdvancedSearch a0 (Cached.searchTerm st) m0)
        as [m1 res1] eqn:Hwrap.
      destruct (wrapper_sound _ _ _ _ _ _ Hsound0 Hcontent Hterm Hwrap)
        as (_ & Hsame & Hsound1 & Hres).
      rewrite Hobjects in Hsame, Hres.
      destruct res1 as [a|e].
      + destruct Hres as (_ & Hl & Hreturns).
        split; [done|]. split; [done|]. split; [exact Hl|exact Hreturns].
      + split; [done|]. split; [done|]. split; [done|]. exact Hres.
    - simpl. split; [by rewrite Hobjects|]. split; [done|]. split.
      + exists (Cached.repositories st). split; [done|]. by rewrite filter_all.
      + by eexists _, _. }
  destruct search as [m1 [a|e]].
  - destruct Hsearch as (Hsame1 & Hsound1 & (l & Hl & Hperm) & (σu & out & Hu)).
    (* the language filter *)
    set (filtered := if truthy_str (Cached.selectedLanguage st)
                     then Cached.alloc
                            (filter (fun repo => language (Cached.objects m1 repo)
                                                 = Cached.selectedLanguage st)
                               (Cached.content m1 a)) m1
                     else (m1, a)) in Hcall.
    assert (Cached.objects filtered.1 = Cached.objects m1
            /\ cache_sound (Cached.repositories st) filtered.1
            /\ exists l2,
                 Cached.arrays filtered.1 !! filtered.2 = Some l2
                 /\ l2 ≡ₚ filter (fun r => selected (uncached st)
                                            (Cached.objects m) r = true)
                          (Cached.repositories st))
      as (Hobjects2 & Hsound2 & l2 & Hl2 & Hperm2).
    { unfold filtered, selected, passes_language. simpl.
      destruct (truthy_str (Cached.selectedLanguage st)) eqn:Hlang.
      - split; [done|]. split; [by apply cache_sound_alloc|].
        eexists. split; [simpl; by rewrite lookup_app_r, Nat.sub_diag by lia|].
        replace (Cached.content m1 a) with l
          by (symmetry; exact (f_equal (default []) Hl)).
        rewrite Hperm, list_filter_filter.
        apply Permutation_refl'. apply filter_ext_in. intros r _.
        rewrite andb_true_iff. simpl. rewrite bool_decide_eq_true.
        destruct (Hsame1 r) as (_ & _ & _ & _ & _ & -> & _). tauto.
      - split; [done|]. split; [done|]. exists l. split; [done|].
        rewrite Hperm. apply Permutation_refl'. apply filter_ext_in.
        intros r _. rewrite andb_true_iff. simpl. tauto. }
    destruct filtered as [m2 a2]. simpl in Hobjects2, Hsound2, Hl2.
    injection Hcall as <- <-.
    split; [by apply cache_sound_sortRepositories|].
    split; [simpl; by rewrite Hobjects2|].
    split; [done|]. split.
    + exists l2. split; [|done].
      rewrite (content_sortRepositories Date_value localeCompare_base
                 (Cached.with_filteredRepositories st a2) m2). simpl.
      f_equal. exact (f_equal (default []) Hl2).
    + unfold updateFilteredRepositories, uncached, bindM. simpl.
      rewrite Hu. unfold sortRepositories, language_filter, read, ret.
      destruct (truthy_str (Cached.selectedLanguage st)); by eexists _, _.
  - destruct Hsearch as (Hsame1 & Hsound1 & Hterm & (σu & Hu)).
    injection Hcall as <- <-.
    split; [done|]. split; [done|]. destruct e.
    unfold updateFilteredRepositories, uncached, bindM. simpl.
    rewrite Hterm, Hu. by eexists.
Qed.

Lemma cache_sound_empty repos σ arrays :
  cache_sound repos
    {| Cached.objects := σ; Cached.arrays := arrays; Cached.searchCache := [] |}.
Proof. by intros key a term ?%elem_of_nil. Qed.

Lemma cached_search_array_is_shared_witness :
  let st := CacheSample.searching "name" in
  let st' := Cached.with_filteredRepositories st 1%nat in
  let m' := (Cached.updateFilteredRepositories Sample.date_value
               Sample.collation st CacheSample.loaded).1 in
  Cached.cache_get (Cached.searchCache m')
    (Cached.cacheKey (Cached.searchTerm st) (length (Cached.repositories st)))
  = Some (Cached.filteredRepositories st')
  /\ forall sortBy',
       let st'' :=
         {| Cached.repositories := Cached.repositories st';
            Cached.filteredRepositories := Cached.filteredRepositories st';
            Cached.searchTerm := Cached.searchTerm st';
            Cached.selectedLanguage := Cached.selectedLanguage st';
            Cached.sortBy := sortBy' |} in
       let m'' := Cached.sortRepositories Sample.date_value Sample.collation
                    st'' m' in
       Cached.cache_get (Cached.searchCache m'')
         (Cached.cacheKey (Cached.searchTerm st)
            (length (Cached.repositories st)))
       = Some (Cached.filteredRepositories st')
       /\ Cached.content m'' (Cached.filteredRepositories st')
          = JS.sort (fun x y => comparison Sample.date_value Sample.collation
                                  sortBy' (Cached.objects m' x)
                                  (Cached.objects m' y))
              (Cached.content m' (Cached.filteredRepositories st')).
Proof.
  apply (cached_search_array_is_shared Sample.date_value Sample.collation
           (CacheSample.searching "name")
           (Cached.with_filteredRepositories (CacheSample.searching "name") 1%nat)
           CacheSample.loaded
           (Cached.updateFilteredRepositories Sample.date_value
              Sample.collation (CacheSample.searching "name")
              CacheSample.loaded).1).
  - discriminate.
  - reflexivity.
  - reflexivity.
Defined.

Lemma cached_update_agrees_witness :
  let st := CacheSample.searching "stars" in
  let m := CacheSample.loaded in
  let out := Cached.updateFilteredRepositories Sample.date_value
               Sample.collation st m in
  cache_sound (Cached.repositories st) out.1
  /\ (forall r, same_fields (Cached.objects m r) (Cached.objects out.1 r))
  /\ match out.2 with
     | Ok st' =>
         st' = Cached.with_filteredRepositories st
                 (Cached.filteredRepositories st')
         /\ (exists elements,
               Cached.content out.1 (Cached.filteredRepositories st')
               = JS.sort (fun x y => comparison Sample.date_value
                                       Sample.collation (Cached.sortBy st)
                                       (Cached.objects out.1 x)
                                       (Cached.objects out.1 y)) elements
               /\ elements
                  ≡ₚ filter (fun r => selected (uncached st)
                                        (Cached.objects m) r = true)
                       (Cached.repositories st))
         /\ exists σ' st'',
              updateFilteredRepositories Sample.date_value Sample.collation
                (uncached st) (Cached.objects m)
              = (σ', Ok st'')
     | Throw _ =>
         exists σ',
           updateFilteredRepositories Sample.date_value Sample.collation
             (uncached st) (Cached.objects m)
           = (σ', Throw TypeError)
     end.
Proof.
  apply (cached_update_agrees Sample.date_value Sample.collation
           (CacheSample.searching "stars") CacheSample.loaded).
  - apply cache_sound_empty.
  - reflexivity.
Defined.

(** The order of a tie depends on the cache: sorted by stars, the two
    repositories found for [go] come in the order of their scores
    without the cache, and in the order of the names when the cache
    holds the array of an earlier search that was sorted by name. *)
Example cached_tie_order :
  let by_name :=
    Cached.updateFilteredRepositories Sample.date_value Sample.collation
      (CacheSample.searching "name") CacheSample.loaded in
  let by_stars :=
    Cached.updateFilteredRepositories Sample.date_value Sample.collation
      (CacheSample.searching "stars") by_name.1 in
  let first :=
    Cached.updateFilteredRepositories Sample.date_value Sample.collation
      (CacheSample.searching "stars") CacheSample.loaded in
  name <$> Sample.loaded CacheSample.two = ["zgo"; "a"]
  /\ CacheSample.shown by_name = ["a"; "zgo"]
  /\ CacheSample.shown by_stars = ["a"; "zgo"]
  /\ CacheSample.shown first = ["zgo"; "a"]
  /\ Sample.filtered_names (store_of (Sample.loaded CacheSample.two))
       (updateFilteredRepositories Sample.date_value Sample.collation
          (uncached (CacheSample.searching "stars"))
          (store_of (Sample.loaded CacheSample.two)))
     = ["zgo"; "a"].
Proof. by vm_compute. Qed.

(** X24.  The cache stays small and its keys distinct: a call of the
    wrapper on a cache of at most 51 entries with distinct keys leaves
    such a cache.  A hit and a search that throws leave the cache as
    it is; a search that returns adds one entry, for its key, at the
    end, after the oldest entry has been dropped if there were 51:
    the limit is 51 entries, not 50. *)
Theorem searchCache_bounded
    (repositories : Cached.array) (searchTerm : string)
    (m m1 : Cached.Memory) (res : result Cached.array) :
  NoDup (Cached.searchCache m).*1 ->
  (length (Cached.searchCache m) <= 51)%nat ->
  Cached.performAdvancedSearch repositories searchTerm m = (m1, res) ->
  NoDup (Cached.searchCache m1).*1
  /\ (length (Cached.searchCache m1) <= 51)%nat
  /\ (Cached.searchCache m1 = Cached.searchCache m
      \/ exists a,
           res = Ok a
           /\ Cached.cache_get (Cached.searchCache m)
                (Cached.cacheKey searchTerm
                   (length (Cached.content m repositories))) = None
           /\ Cached.searchCache m1
              = ((if decide (length (Cached.searchCache m) = 51)%nat
                  then tail (Cached.searchCache m)
                  else Cached.searchCache m)
                 ++ [(Cached.cacheKey searchTerm
                        (length (Cached.content m repositories)), a)])%list).
Proof.
  intros Hnodup Hsize. unfold Cached.performAdvancedSearch.
  set (key := Cached.cacheKey searchTerm _).
  destruct (Cached.cache_get (Cached.searchCache m) key) as [a|] eqn:Hget.
  { intros [= <- <-]. split; [done|]. split; [done|]. by left. }
  destruct (performAdvancedSearch _ _ _) as [σ [found|e]].
  2:{ intros [= <- <-]. split; [done|]. split; [done|]. by left. }
  assert (key ∉ (Cached.searchCache m).*1) as Hfresh.
  { intros ([k a] & -> & Hin)%list_elem_of_fmap. simpl in Hget.
    clear -Hget Hin. induction (Cached.searchCache m) as [|[k' a'] rest IH];
      [by apply elem_of_nil in Hin|].
    simpl in Hget. destruct (decide (k' = k)) as [|Hne]; [done|].
    apply elem_of_cons in Hin as [[= <- <-]|Hin]; [done|]. by apply IH. }
  set (cache := Cached.searchCache m) in *.
  assert (forall m2 a,
            Cached.searchCache m2 = cache ->
            let cache' := ((if (50 <? length (Cached.searchCache m2))%nat
                            then tail (Cached.searchCache m2)
                            else Cached.searchCache m2) ++ [(key, a)])%list in
            NoDup cache'.*1 /\ (length cache' <= 51)%nat
            /\ cache' = ((if decide (length cache = 51)%nat then tail cache
                          else cache) ++ [(key, a)])%list) as Hadd.
  { intros m2 a -> cache'. unfold cache'.
    destruct (Nat.ltb_spec 50 (length cache)) as [Hfull|Hroom].
    - rewrite decide_True by lia. split; [|split; [|done]].
      + rewrite fmap_app. apply NoDup_app. split; [|split].
        * destruct cache as [|[k a'] rest]; [constructor|]. simpl in *.
          by apply NoDup_cons in Hnodup as [_ ?].
        * intros k Hk ->%list_elem_of_singleton. apply Hfresh.
          destruct cache as [|[k' a'] rest]; [done|]. simpl in *. by right.
        * apply NoDup_singleton.
      + rewrite length_app. destruct cache; simpl in *; lia.
    - rewrite decide_False by lia. split; [|split; [|done]].
      + rewrite fmap_app. apply NoDup_app. split; [done|]. split.
        * by intros k Hk ->%list_elem_of_singleton.
        * apply NoDup_singleton.
      + rewrite length_app. simpl. lia. }
  destruct (truthy_str searchTerm).
  - simpl. intros [= <- <-]. simpl.
    destruct (Hadd (Cached.alloc found (Cached.with_objects m σ)).1
                (length (Cached.arrays m)) eq_refl) as (H1 & H2 & H3).
    simpl in H1, H2, H3. split; [done|]. split; [done|]. right.
    by eexists.
  - simpl. intros [= <- <-]. simpl.
    destruct (Hadd (Cached.with_objects m σ) repositories eq_refl)
      as (H1 & H2 & H3).
    simpl in H1, H2, H3. split; [done|]. split; [done|]. right.
    by eexists.
Qed.

Lemma searchCache_bounded_witness :
  let out := Cached.performAdvancedSearch 0%nat "go"
               (Cached.alloc [0; 1]%nat CacheSample.loaded).1 in
  let m := (Cached.alloc [0; 1]%nat CacheSample.loaded).1 in
  NoDup (Cached.searchCache out.1).*1
  /\ (length (Cached.searchCache out.1) <= 51)%nat
  /\ (Cached.searchCache out.1 = Cached.searchCache m
      \/ exists a,
           out.2 = Ok a
           /\ Cached.cache_get (Cached.searchCache m)
                (Cached.cacheKey "go" (length (Cached.content m 0%nat))) = None
           /\ Cached.searchCache out.1
              = ((if decide (length (Cached.searchCache m) = 51)%nat
                  then tail (Cached.searchCache m)
                  else Cached.searchCache m)
                 ++ [(Cached.cacheKey "go" (length (Cached.content m 0%nat)),
                      a)])%list).
Proof.
  apply (searchCache_bounded 0%nat "go"
           (Cached.alloc [0; 1]%nat CacheSample.loaded).1).
  - constructor.
  - simpl. lia.
  - reflexivity.
Defined.

(** ** Languages after normalization *)

(** X25.  A repository made by [processRepositoryData] always has a
    language, ['Unknown'] when the record has none: the fallbacks of
    [groupRepositoriesByLanguage] and of [calculateLanguageCounts] are
    never taken for it, both file it under its [language] field, and
    it is grouped under ['Other'] only when the record itself names
    that language. *)
Theorem normalized_language_fallbacks
    (now_created now_updated : nat -> string) (i : nat)
    (record : RawRepository) (σ : store) (repo : ref) :
  σ repo = normalize now_created now_updated i record ->
  language (σ repo) <> ""
  /\ language (σ repo) = js_or truthy_str (raw_language record) "Unknown"
  /\ group_language σ repo = language (σ repo)
  /\ counted_language σ repo = language (σ repo)
  /\ (group_language σ repo = "Other" -> raw_language record = Some "Other")
  /\ (group_language σ repo = "Unknown" <->
      raw_language record = None \/ raw_language record = Some ""
      \/ raw_language record = Some "Unknown").
Proof.
  intros Hrepo. unfold group_language, counted_language. rewrite Hrepo. simpl.
  destruct (raw_language record) as [l|]; simpl.
  - destruct (truthy_str l) eqn:Hl.
    + rewrite Hl. apply truthy_str_spec in Hl.
      split; [done|]. split; [done|]. split; [done|]. split; [done|].
      split; [by intros ->|]. split.
      * intros ->. by right; right.
      * intros [?|[[= ->]|[= ->]]]; done.
    + assert (l = "") as ->.
      { destruct (decide (l = "")) as [|Hn]; [done|].
        apply truthy_str_spec in Hn. congruence. }
      simpl. repeat split; try done. intros _. by right; left.
  - repeat split; try done. intros _. by left.
Qed.

Lemma normalized_language_fallbacks_witness :
  let σ := store_of [normalize Sample.now Sample.now 0
                       (Sample.raw 3 "plain" 3 None None Sample.octocat)] in
  language (σ 0%nat) <> ""
  /\ language (σ 0%nat) = js_or truthy_str None "Unknown"
  /\ group_language σ 0%nat = language (σ 0%nat)
  /\ counted_language σ 0%nat = language (σ 0%nat)
  /\ (group_language σ 0%nat = "Other" -> (None : option string) = Some "Other")
  /\ (group_language σ 0%nat = "Unknown" <->
      (None : option string) = None \/ (None : option string) = Some ""
      \/ (None : option string) = Some "Unknown").
Proof.
  apply (normalized_language_fallbacks Sample.now Sample.now 0
           (Sample.raw 3 "plain" 3 None None Sample.octocat)
           (store_of [normalize Sample.now Sample.now 0
                        (Sample.raw 3 "plain" 3 None None Sample.octocat)])
           0%nat).
  reflexivity.
Defined.
